(** * dln-taker: the per-destination-chain order pipeline

    A shallow embedding of the order taker's dispatcher ([Executor]), of its
    two order processors ([UniversalProcessor], [StrictProcessor]) and of the
    start-up validation of the confirmation thresholds, followed by the
    properties that the specification states about them.

    Conventions of the embedding.
    - An [async] function is a computation in the monad [M]: it threads the
      object's fields and the log of the calls made to external collaborators,
      and ends in a value or in a thrown exception. A thrown exception keeps
      the field updates made before it, as in JavaScript.
    - The answers of the external collaborators (chain clients, providers,
      price service) are read from an [Env]; an answer is either a resolved
      value or a rejection.
    - The scheduling of the processor is a step function over the events
      "[process] is called" and "the awaited [processOrder] settles": the code
      between two [await]s runs atomically, everything else interleaves.
    - JavaScript [number]s that the code only compares are integers ([Z]). *)

From Stdlib Require Import ZArith Lia List String Bool Sorted.
From Stdlib.Strings Require Import Byte.
From stdpp Require Import base option list gmap strings.

#[global] Instance byte_eq_decision : EqDecision byte := byte_eq_dec.

(** ** JavaScript values the code relies on *)

Module JS.

(** Truthiness of a string: only the empty string is falsy. *)
Definition truthy (s : string) : bool := negb (String.eqb s "").

(** [a || b] where each side is a string or [undefined]. *)
Definition or (a b : option string) : option string :=
  match a with
  | Some s => if truthy s then Some s else b
  | None => b
  end.

(** [Set<string>]: iteration follows insertion order; [add] of a member
    keeps its position. *)
Definition set_add (x : string) (s : list string) : list string :=
  if decide (x ∈ s) then s else s ++ [x].

Definition set_delete (x : string) (s : list string) : list string :=
  filter (λ y, y ≠ x) s.

(** [s.values().next().value] *)
Definition set_first (s : list string) : option string := head s.

End JS.

(** ** Data model *)

(** [ChainId] restricted to [SupportedChain], the chains [Executor.init]
    accepts. *)
Inductive ChainId :=
  Arbitrum | Avalanche | BSC | Ethereum | Fantom | Polygon | Solana.

#[global] Instance ChainId_eq_decision : EqDecision ChainId.
Proof. solve_decision. Defined.

Abbreviation Address := (list byte).

(** Modelled from the spec: [buffersAreEqual] of [../utils/buffers.are.equal],
    which is not among the sources. "Address: chain-scoped byte string.
    Equality uses byte comparison, not string form." *)
Definition buffersAreEqual (a b : Address) : bool := bool_decide (a = b).

Record Offer := {
  chainId : ChainId;
  tokenAddress : Address;
  amount : Z
}.

Record OrderData := {
  give : Offer;
  take : Offer
}.

Module OrderInfoStatus.
Inductive t :=
  Created | ArchivalCreated | ArchivalFulfilled | Cancelled | Fulfilled | Other.
#[global] Instance eq_decision : EqDecision t.
Proof. solve_decision. Defined.
End OrderInfoStatus.

Module OrderState.
Inductive t :=
  NotSet | Created | Fulfilled | SentUnlock | OrderCancelled | SentCancel
| ClaimedUnlock | ClaimedCancel.
#[global] Instance eq_decision : EqDecision t.
Proof. solve_decision. Defined.
End OrderState.

(** [TokensBucket] of the client library: for every chain the ordered list of
    the bucket's tokens there; [findFirstToken] is [undefined] on a chain
    without tokens. *)
Definition TokensBucket := ChainId → list Address.

Definition findFirstToken (bucket : TokensBucket) (chain : ChainId)
  : option Address := head (bucket chain).

(** [IncomingOrder]: an event of the order feed. The executor reads the
    event's kind as [status], the processor as [type]; it is one field. *)
Record IncomingOrder := {
  orderId : string;
  status : OrderInfoStatus.t;
  order : option OrderData
}.

(** [OrderProcessorContext]: what [processOrder] reads from it, namely
    [context.config.buckets] and the chain behind [context.giveChain]. *)
Record OrderProcessorContext := {
  config_buckets : list TokensBucket;
  giveChain : ChainId
}.

(** [IncomingOrderContext]; [attempts] is absent from the objects that
    [processOrder] hands to the mempool. *)
Record IncomingOrderContext := {
  orderInfo : IncomingOrder;
  context : OrderProcessorContext;
  attempts : option Z
}.

(** Transactions and their hashes are opaque handles of the chain client. *)
Definition Tx := Z.
Definition TxHash := Z.

(** The native token whose price [StrictProcessor] asks for. *)
Inductive NativeToken := evmNativeTokenAddress | solanaNativeTokenAddress.

(** The part of [getTakerFlowCost]'s answer that the code reads. *)
Record Fees := {
  executionFees_total : Z;
  executionFees_rewards : Z * Z
}.

(** The answer of [calculateExpectedTakeAmount]. *)
Record ExpectedTakeAmount := {
  reserveDstToken : Address;
  requiredReserveDstAmount : Z;
  isProfitable : bool;
  reserveToTakeSlippageBps : option Z
}.

(** ** Calls to external collaborators *)

Inductive Call :=
| GetTakeOrderStatus (id : string) (chain : ChainId)
| GetGiveOrderStatus (id : string) (chain : ChainId)
| CalculateExpectedTakeAmount (o : OrderData) (minProfitabilityBps : option Z)
    (batchSize : option Z)
| GetBalance (token : Address)
| PreswapAndFulfillOrder (o : OrderData) (id : string) (reserve : Address)
    (reservedAmount : Z) (slippageBps : option Z)
| SendTransaction (tx : Tx)
| WaitIsOrderFulfilled (id : string)
| UnlockOrder (id : string)
| GetPrice (chain : ChainId) (token : NativeToken)
| GetTakerFlowCost (o : OrderData) (giveNativePrice takeNativePrice : Z)
| GetAmountToSend (takeChain giveChain : ChainId) (total : Z)
| FulfillOrder (o : OrderData) (id : string)
| SendUnlockOrder (o : OrderData) (beneficiary : string) (fee : Z)
    (rewards : option (Z * Z))
| Sleep (ms : Z)
| ApproveToken (chain : ChainId) (token : string)
| RunFilter (index : nat) (o : OrderData)
| ProcessorProcess (takeChain : ChainId) (p : IncomingOrderContext).

Inductive Answer (A : Type) :=
| Resolved (a : A)
| Rejected.
Arguments Resolved {A} a.
Arguments Rejected {A}.

(** The answers of the collaborators. [getTakeOrderStatus] is polled, so its
    answer also depends on how many times it was asked before; a status
    answer of [None] is [null] or an object without [status], and for
    [processOrder], which reads it with [?.], also [undefined]. *)
Record Env := {
  getTakeOrderStatus : string → ChainId → nat → Answer (option OrderState.t);
  getGiveOrderStatus : string → ChainId → Answer (option OrderState.t);
  calculateExpectedTakeAmount :
    OrderData → option Z → option Z → Answer ExpectedTakeAmount;
  getBalance : Address → Answer Z;
  preswapAndFulfillOrder :
    OrderData → string → Address → Z → option Z → Answer Tx;
  sendTransaction : Tx → Answer TxHash;
  waitIsOrderFulfilled : string → Answer unit;
  unlockOrder : string → Answer unit;
  getPrice : ChainId → NativeToken → Answer Z;
  getTakerFlowCost : OrderData → Z → Z → Answer Fees;
  getAmountToSend : ChainId → ChainId → Z → Answer Z;
  fulfillOrder : OrderData → string → Answer Tx;
  sendUnlockOrder : OrderData → string → Z → option (Z * Z) → Answer Tx;
  approveToken : ChainId → string → Answer unit
}.

(** ** Exceptions *)

Inductive MarketMakerExecutorErrorType := OrderIsFulfilled.

Inductive exn :=
| Error (message : string)
    (** [new Error(message)] with a constant message *)
| UnexpectedOrderStatus (t : OrderInfoStatus.t)
    (** [Unexpected order status: ${OrderInfoStatus[type]}] *)
| ThresholdNotGreater (chain : ChainId) (usd confirmations prev : Z)
    (** [... minBlockConfirmations (${confirmations}) must be greater than
        ${prev}] *)
| ThresholdNotBelowCap (chain : ChainId) (usd confirmations cap : Z)
    (** [... minBlockConfirmations (${confirmations}) must be less than max
        block confirmations (${cap})] *)
| MarketMakerExecutorError (t : MarketMakerExecutorErrorType)
| TypeError
    (** a property read on [undefined] *)
| Rejection (c : Call)
    (** the promise of an external call was rejected *).

(** ** The monad of [async] methods *)

Inductive Res (A : Type) :=
| Ok (a : A)
| Throw (e : exn).
Arguments Ok {A} a.
Arguments Throw {A} e.

(** The fields of an object together with the log of its external calls. *)
Record World (St : Type) := MkWorld {
  fields : St;
  calls : list Call
}.
Arguments MkWorld {St} fields calls.
Arguments fields {St} w.
Arguments calls {St} w.

Definition M (St A : Type) : Type := World St → Res A * World St.

Definition ret {St A} (a : A) : M St A := λ w, (Ok a, w).

Definition bind {St A B} (c : M St A) (k : A → M St B) : M St B :=
  λ w, match c w with
       | (Ok a, w') => k a w'
       | (Throw e, w') => (Throw e, w')
       end.

Definition throw {St A} (e : exn) : M St A := λ w, (Throw e, w).

Definition get {St} : M St St := λ w, (Ok (fields w), w).

Definition modify {St} (f : St → St) : M St unit :=
  λ w, (Ok tt, MkWorld (f (fields w)) (calls w)).

(** [try { c } catch (e) { h }] *)
Definition try_catch {St A} (c : M St A) (h : exn → M St A) : M St A :=
  λ w, match c w with
       | (Ok a, w') => (Ok a, w')
       | (Throw e, w') => h e w'
       end.

(** [await] of an external call: the call is logged, a rejection is thrown. *)
Definition await {St A} (c : Call) (answer : Answer A) : M St A :=
  λ w, let w' := MkWorld (fields w) (calls w ++ [c]) in
       match answer with
       | Resolved a => (Ok a, w')
       | Rejected => (Throw (Rejection c), w')
       end.

(** [await Promise.all(...)]: every call is made before any answer is
    awaited; the first rejection is thrown. *)
Fixpoint settle_all {A} (l : list (Call * Answer A)) : Res (list A) :=
  match l with
  | [] => Ok []
  | (c, Resolved a) :: l' =>
      match settle_all l' with
      | Ok r => Ok (a :: r)
      | Throw e => Throw e
      end
  | (c, Rejected) :: _ => Throw (Rejection c)
  end.

Definition promise_all {St A} (l : list (Call * Answer A)) : M St (list A) :=
  λ w, (settle_all l, MkWorld (fields w) (calls w ++ map fst l)).

(** A call whose promise is dropped: its rejection reaches nobody. *)
Definition detached {St} (c : M St unit) : M St unit :=
  try_catch c (λ _, ret tt).

(** [x!.field] and [x.field] on a value that may be [undefined]. *)
Definition deref {St A} (x : option A) : M St A :=
  match x with
  | Some a => ret a
  | None => throw TypeError
  end.

Declare Scope js_scope.
Delimit Scope js_scope with js.
Notation "x <- c ;; k" := (bind c (λ x, k))
  (at level 100, c at next level, right associativity) : js_scope.
Notation "c ;;; k" := (bind c (λ _, k))
  (at level 100, right associativity) : js_scope.
Local Open Scope js_scope.

(** ** UniversalProcessor *)

Module UniversalProcessor.

Record UniversalProcessorParams := {
  minProfitabilityBps : option Z;
  mempoolInterval : option Z;
  batchUnlockSize : option Z
}.

(** A property of a [Partial<UniversalProcessorParams>] argument: left out,
    or present with a value, which may be [undefined]. *)
Inductive Property :=
| Omitted
| Present (v : option Z).

Record PartialParams := {
  p_minProfitabilityBps : Property;
  p_mempoolInterval : Property;
  p_batchUnlockSize : Property
}.

(** [params?.batchUnlockSize] *)
Definition read (p : Property) : option Z :=
  match p with
  | Omitted => None
  | Present v => v
  end.

(** One property of [Object.assign(target, source)]. *)
Definition assign (target : option Z) (source : Property) : option Z :=
  match source with
  | Omitted => target
  | Present v => v
  end.

Definition defaultParams : UniversalProcessorParams :=
  {| minProfitabilityBps := Some 4%Z;
     mempoolInterval := Some 60%Z;
     batchUnlockSize := Some 10%Z |}.

(** The fields of the class. [mempoolService] stands for the orders held by
    the [MempoolService]. The last two fields are not fields of the class:
    they record which invocations of [processOrder] have begun and not yet
    settled, and all that have begun, oldest first. *)
Record Processor := {
  priorityQueue : list string;
  queue : list string;
  incomingOrdersMap : gmap string IncomingOrderContext;
  isLocked : bool;
  params : UniversalProcessorParams;
  mempoolService : gmap string IncomingOrderContext;
  inFlight : list IncomingOrderContext;
  processed : list IncomingOrderContext
}.

Definition set_priorityQueue (v : list string) (s : Processor) : Processor :=
  {| priorityQueue := v; queue := queue s;
     incomingOrdersMap := incomingOrdersMap s; isLocked := isLocked s;
     params := params s; mempoolService := mempoolService s;
     inFlight := inFlight s; processed := processed s |}.

Definition set_queue (v : list string) (s : Processor) : Processor :=
  {| priorityQueue := priorityQueue s; queue := v;
     incomingOrdersMap := incomingOrdersMap s; isLocked := isLocked s;
     params := params s; mempoolService := mempoolService s;
     inFlight := inFlight s; processed := processed s |}.

Definition set_incomingOrdersMap (v : gmap string IncomingOrderContext)
    (s : Processor) : Processor :=
  {| priorityQueue := priorityQueue s; queue := queue s;
     incomingOrdersMap := v; isLocked := isLocked s;
     params := params s; mempoolService := mempoolService s;
     inFlight := inFlight s; processed := processed s |}.

Definition set_isLocked (v : bool) (s : Processor) : Processor :=
  {| priorityQueue := priorityQueue s; queue := queue s;
     incomingOrdersMap := incomingOrdersMap s; isLocked := v;
     params := params s; mempoolService := mempoolService s;
     inFlight := inFlight s; processed := processed s |}.

Definition set_mempoolService (v : gmap string IncomingOrderContext)
    (s : Processor) : Processor :=
  {| priorityQueue := priorityQueue s; queue := queue s;
     incomingOrdersMap := incomingOrdersMap s; isLocked := isLocked s;
     params := params s; mempoolService := v;
     inFlight := inFlight s; processed := processed s |}.

Definition set_inFlight (v : list IncomingOrderContext) (s : Processor)
  : Processor :=
  {| priorityQueue := priorityQueue s; queue := queue s;
     incomingOrdersMap := incomingOrdersMap s; isLocked := isLocked s;
     params := params s; mempoolService := mempoolService s;
     inFlight := v; processed := processed s |}.

Definition set_processed (v : list IncomingOrderContext) (s : Processor)
  : Processor :=
  {| priorityQueue := priorityQueue s; queue := queue s;
     incomingOrdersMap := incomingOrdersMap s; isLocked := isLocked s;
     params := params s; mempoolService := mempoolService s;
     inFlight := inFlight s; processed := v |}.

(** [new UniversalProcessor(params)] *)
Definition constructor (arg : option PartialParams) : Res Processor :=
  let size := arg ≫= (λ a, read (p_batchUnlockSize a)) in
  if match size with
     | Some n => (10 <? n)%Z || (n <? 1)%Z
     | None => false
     end
  then Throw (Error "batchUnlockSize should be in [1, 10]")
  else
    let assigned :=
      match arg with
      | Some a =>
          {| minProfitabilityBps :=
               assign (minProfitabilityBps defaultParams)
                      (p_minProfitabilityBps a);
             mempoolInterval :=
               assign (mempoolInterval defaultParams) (p_mempoolInterval a);
             batchUnlockSize :=
               assign (batchUnlockSize defaultParams) (p_batchUnlockSize a) |}
      | None => defaultParams
      end in
    Ok {| priorityQueue := []; queue := []; incomingOrdersMap := ∅;
          isLocked := false; params := assigned; mempoolService := ∅;
          inFlight := []; processed := [] |}.

(** Modelled from the spec: [MempoolService] of [./mempool.service], which is
    not among the sources. "Exposes [addOrder(event)] and [delete(orderId)].
    Stores (orderId → event)." Its timer calls [process] again, which the
    scheduler below receives as an event. *)
Definition mempool_addOrder (p : IncomingOrderContext) : M Processor unit :=
  modify (λ s, set_mempoolService
                 (<[orderId (orderInfo p) := p]> (mempoolService s)) s).

Definition mempool_delete (id : string) : M Processor unit :=
  modify (λ s, set_mempoolService (delete id (mempoolService s)) s).

(** The predicate of [context.config.buckets.find(...)]. *)
Definition covers (o : OrderData) (bucket : TokensBucket) : bool :=
  bool_decide (findFirstToken bucket (chainId (give o)) ≠ None)
  && bool_decide (findFirstToken bucket (chainId (take o)) ≠ None).

Definition createOrderFullfillTx (env : Env) (id : string) (o : OrderData)
    (reserve : Address) (reservedAmount : Z) (slippageBps : option Z)
  : M Processor Tx :=
  await (PreswapAndFulfillOrder o id reserve reservedAmount slippageBps)
        (preswapAndFulfillOrder env o id reserve reservedAmount slippageBps).

Definition processOrder (env : Env) (p : IncomingOrderContext)
  : M Processor unit :=
  let id := orderId (orderInfo p) in
  match order (orderInfo p) with
  | None => throw (Error "order is empty, should not happen")
  | Some o =>
  if negb (JS.truthy id)
  then throw (Error "order is empty, should not happen")
  else
  match List.find (covers o) (config_buckets (context p)) with
  | None =>
      throw (Error "no token bucket effectively covering both chains. Seems like no reserve tokens are configured to fulfill orders")
  | Some bucket =>
  (* validate that order is not fullfilled *)
  takeOrderStatus <- await (GetTakeOrderStatus id (chainId (take o)))
                           (getTakeOrderStatus env id (chainId (take o)) 0) ;;
  if bool_decide (takeOrderStatus ≠ Some OrderState.NotSet)
     && bool_decide (takeOrderStatus ≠ None)
  then throw (Error "Order is fulfilled")
  else
  (* validate that order is created *)
  giveOrderStatus <- await (GetGiveOrderStatus id (chainId (give o)))
                           (getGiveOrderStatus env id (chainId (give o))) ;;
  if bool_decide (giveOrderStatus ≠ Some OrderState.Created)
  then throw (Error "Order is not created")
  else
  this <- get ;;
  let batchSize :=
    if bool_decide (chainId (give o) = Solana)
       || bool_decide (chainId (take o) = Solana)
    then None
    else batchUnlockSize (params this) in
  r <- await (CalculateExpectedTakeAmount o
                (minProfitabilityBps (params this)) batchSize)
             (calculateExpectedTakeAmount env o
                (minProfitabilityBps (params this)) batchSize) ;;
  if negb (isProfitable r)
  then mempool_addOrder
         {| orderInfo := orderInfo p; context := context p; attempts := None |}
  else
  accountReserveBalance <- await (GetBalance (reserveDstToken r))
                                 (getBalance env (reserveDstToken r)) ;;
  if (accountReserveBalance <? requiredReserveDstAmount r)%Z
  then mempool_addOrder
         {| orderInfo := orderInfo p; context := context p; attempts := None |}
  else
  (* fulfill order *)
  fulfillTx <- createOrderFullfillTx env id o (reserveDstToken r)
                 (requiredReserveDstAmount r) (reserveToTakeSlippageBps r) ;;
  sent <- try_catch
            (txFulfill <- await (SendTransaction fulfillTx)
                                (sendTransaction env fulfillTx) ;;
             ret true)
            (λ e,
             mempool_addOrder
               {| orderInfo := orderInfo p; context := context p;
                  attempts := None |} ;;;
             ret false) ;;
  if negb sent then ret tt
  else
  await (WaitIsOrderFulfilled id) (waitIsOrderFulfilled env id) ;;;
  (* unlocking *)
  await (UnlockOrder id) (unlockOrder env id)
  end
  end.

(** [tryProcess], from its entry to its [await]: either the order is
    postponed, or the lock is taken and [processOrder] begins. *)
Definition tryProcess (p : IncomingOrderContext) : M Processor unit :=
  let id := orderId (orderInfo p) in
  this <- get ;;
  (* already processing an order *)
  if isLocked this then
    match status (orderInfo p) with
    | OrderInfoStatus.ArchivalCreated =>
        modify (λ s, set_queue (JS.set_add id (queue s)) s)
    | OrderInfoStatus.Created =>
        modify (λ s, set_priorityQueue (JS.set_add id (priorityQueue s)) s)
    | t => throw (UnexpectedOrderStatus t)
    end ;;;
    modify (λ s, set_incomingOrdersMap (<[id := p]> (incomingOrdersMap s)) s)
  else
    (* process this order *)
    modify (set_isLocked true) ;;;
    modify (λ s, set_inFlight (inFlight s ++ [p])
                   (set_processed (processed s ++ [p]) s)).

Definition pickNextOrder : M Processor (option IncomingOrderContext) :=
  this <- get ;;
  let nextOrderId :=
    JS.or (JS.set_first (priorityQueue this)) (JS.set_first (queue this)) in
  match nextOrderId with
  | Some id =>
      if JS.truthy id then
        let order := incomingOrdersMap this !! id in
        modify (λ s, set_priorityQueue (JS.set_delete id (priorityQueue s)) s) ;;;
        modify (λ s, set_queue (JS.set_delete id (queue s)) s) ;;;
        modify (λ s, set_incomingOrdersMap (delete id (incomingOrdersMap s)) s) ;;;
        ret order
      else ret None
  | None => ret None
  end.

(** [tryProcess], from the moment the awaited [processOrder] of the [i]-th
    invocation in flight settles: what [processOrder] did is applied, its
    exception is caught, the lock is cleared and the next order is taken. *)
Definition tryProcess_resume (env : Env) (i : nat) : M Processor unit :=
  this <- get ;;
  match inFlight this !! i with
  | None => ret tt
  | Some p =>
      try_catch (processOrder env p) (λ e, ret tt) ;;;
      modify (λ s, set_inFlight (delete i (inFlight s)) s) ;;;
      modify (set_isLocked false) ;;;
      (* forward to the next order *)
      nextOrder <- pickNextOrder ;;
      match nextOrder with
      | Some next => detached (tryProcess next)
      | None => ret tt
      end
  end.

Definition forget (id : string) : M Processor unit :=
  modify (λ s, set_queue (JS.set_delete id (queue s)) s) ;;;
  modify (λ s, set_priorityQueue (JS.set_delete id (priorityQueue s)) s) ;;;
  modify (λ s, set_incomingOrdersMap (delete id (incomingOrdersMap s)) s) ;;;
  mempool_delete id.

(** [process], up to the first [await] that waits for [processOrder]. *)
Definition process (env : Env) (p : IncomingOrderContext) : M Processor unit :=
  let id := orderId (orderInfo p) in
  match status (orderInfo p) with
  | OrderInfoStatus.ArchivalCreated
  | OrderInfoStatus.Created => tryProcess p
  | OrderInfoStatus.ArchivalFulfilled =>
      await (UnlockOrder id) (unlockOrder env id)
  | OrderInfoStatus.Cancelled => forget id
  | OrderInfoStatus.Fulfilled =>
      forget id ;;;
      await (UnlockOrder id) (unlockOrder env id)
  | OrderInfoStatus.Other => ret tt
  end.

(** *** The scheduler of one processor *)

Inductive Event :=
| Arrives (env : Env) (p : IncomingOrderContext)
    (** somebody (the executor, the mempool timer) calls [process(p)] *)
| Settles (env : Env) (i : nat)
    (** the [processOrder] of the [i]-th invocation in flight settles *).

Definition step (w : World Processor) (e : Event) : World Processor :=
  match e with
  | Arrives env p => snd (process env p w)
  | Settles env i => snd (tryProcess_resume env i w)
  end.

Definition run (w : World Processor) (es : list Event) : World Processor :=
  fold_left step es w.

(** The processor right after [universalProcessor(params)] built it. *)
Definition boot (s : Processor) : World Processor := MkWorld s [].

(** *** Vocabulary of the properties *)

(** A property that the constructor's argument leaves out: there is no
    argument, or the argument has no such property. *)
Definition omitted (field : PartialParams → Property)
    (arg : option PartialParams) : Prop :=
  arg = None ∨ ∃ a, arg = Some a ∧ field a = Omitted.

(** No bucket has a token on both chains of the order. *)
Definition NoReserveCoverage (p : IncomingOrderContext) (o : OrderData) : Prop :=
  ∀ bucket, bucket ∈ config_buckets (context p) →
    bucket (chainId (give o)) = [] ∨ bucket (chainId (take o)) = [].

(** The destination answers with a status that is neither [NotSet] nor
    unknown. *)
Definition AlreadyFulfilled (env : Env) (p : IncomingOrderContext)
    (o : OrderData) : Prop :=
  ∃ st, getTakeOrderStatus env (orderId (orderInfo p)) (chainId (take o)) 0
        = Resolved (Some st)
        ∧ st ≠ OrderState.NotSet.

(** The destination answers [NotSet], or nothing. *)
Definition TakeSideClear (env : Env) (p : IncomingOrderContext)
    (o : OrderData) : Prop :=
  ∃ st, getTakeOrderStatus env (orderId (orderInfo p)) (chainId (take o)) 0
        = Resolved st
        ∧ (st = None ∨ st = Some OrderState.NotSet).

(** The source answers with a status other than [Created]. *)
Definition NotCreatedOnSource (env : Env) (p : IncomingOrderContext)
    (o : OrderData) : Prop :=
  ∃ st, getGiveOrderStatus env (orderId (orderInfo p)) (chainId (give o))
        = Resolved st
        ∧ st ≠ Some OrderState.Created.

Definition msgNoBucket : string :=
  "no token bucket effectively covering both chains. Seems like no reserve tokens are configured to fulfill orders".

(** What [processOrder] hands to the mempool: the order and its context. *)
Definition deferred (p : IncomingOrderContext) : IncomingOrderContext :=
  {| orderInfo := orderInfo p; context := context p; attempts := None |}.

(** The [batchSize] that [processOrder] passes on. *)
Definition batchSizeFor (s : Processor) (o : OrderData) : option Z :=
  if bool_decide (chainId (give o) = Solana)
     || bool_decide (chainId (take o) = Solana)
  then None
  else batchUnlockSize (params s).

Definition Unprofitable (r : ExpectedTakeAmount) : Prop :=
  isProfitable r = false.

Definition InsufficientReserve (env : Env) (r : ExpectedTakeAmount) : Prop :=
  isProfitable r = true
  ∧ ∃ balance, getBalance env (reserveDstToken r) = Resolved balance
               ∧ (balance < requiredReserveDstAmount r)%Z.

Definition FulfillSendFailed (env : Env) (p : IncomingOrderContext)
    (o : OrderData) (r : ExpectedTakeAmount) : Prop :=
  isProfitable r = true
  ∧ ∃ balance tx,
      getBalance env (reserveDstToken r) = Resolved balance
      ∧ (requiredReserveDstAmount r ≤ balance)%Z
      ∧ preswapAndFulfillOrder env o (orderId (orderInfo p))
          (reserveDstToken r) (requiredReserveDstAmount r)
          (reserveToTakeSlippageBps r) = Resolved tx
      ∧ sendTransaction env tx = Rejected.

(** The lock is held exactly while one [processOrder] is in flight. *)
Definition lockInv (s : Processor) : Prop :=
  if isLocked s then ∃ p, inFlight s = [p] else inFlight s = [].

Definition isCreation (t : OrderInfoStatus.t) : Prop :=
  t = OrderInfoStatus.Created ∨ t = OrderInfoStatus.ArchivalCreated.

(** The order in which the queued orderIds leave the queues. *)
Definition pending (s : Processor) : list string :=
  priorityQueue s ++ filter (λ id, id ∉ priorityQueue s) (queue s).

(** The queues are sets of non-empty orderIds, and each queued orderId has
    its context in [incomingOrdersMap]. *)
Definition wf (s : Processor) : Prop :=
  NoDup (priorityQueue s) ∧ NoDup (queue s)
  ∧ ∀ id, id ∈ priorityQueue s ∨ id ∈ queue s →
      id ≠ "" ∧ ∃ p, incomingOrdersMap s !! id = Some p
                     ∧ orderId (orderInfo p) = id.

(** Events as the executor delivers them: with an orderId. *)
Definition event_ok (e : Event) : Prop :=
  match e with
  | Arrives _ p => orderId (orderInfo p) ≠ ""
  | Settles _ _ => True
  end.

(** The order in flight settles, then the next one, and so on. *)
Definition settles (envs : list Env) : list Event :=
  map (λ env, Settles env 0) envs.

(** The claim as the specification states it: while the processor is busy,
    a second arrival of an orderId changes neither queue, and the orderId is
    held at most once across the two queues. *)
Definition reenqueue_as_stated : Prop :=
  ∀ w env1 env2 p1 p2,
    isLocked (fields w) = true →
    orderId (orderInfo p1) = orderId (orderInfo p2) →
    isCreation (status (orderInfo p1)) →
    isCreation (status (orderInfo p2)) →
    let id := orderId (orderInfo p1) in
    let w1 := step w (Arrives env1 p1) in
    let w2 := step w1 (Arrives env2 p2) in
    priorityQueue (fields w2) = priorityQueue (fields w1)
    ∧ queue (fields w2) = queue (fields w1)
    ∧ length (filter (λ y, y = id)
                (priorityQueue (fields w2) ++ queue (fields w2))) ≤ 1.

(** How many of the invocations in [l] are for the orderId [id]. *)
Definition attemptsFor (id : string) (l : list IncomingOrderContext) : nat :=
  length (filter (λ p, orderId (orderInfo p) = id) l).

End UniversalProcessor.

(** ** StrictProcessor *)

Module StrictProcessor.

(** An entry of [executorConfig.chains]. *)
Record ChainConfig := {
  chainRpc : string;
  beneficiary : string
}.

(** What [process] looks up by chain: [executorConfig.chains.find(...)],
    [context.providersForUnlock.get(...)] and
    [context.providersForFulfill.get(...)]; a provider is known by its
    address. *)
Record Config := {
  chains : ChainId → option ChainConfig;
  providersForUnlock : ChainId → option string;
  providersForFulfill : ChainId → option string
}.

(** The fields of the class, and [context.orderFulfilledMap], which
    [process] updates. *)
Record Processor := {
  approvedTokens : list string;
  approvedTokensInBuffer : list Address;
  orderFulfilledMap : gset string
}.

Definition constructor (approvedTokens : list string) : Processor :=
  {| approvedTokens := approvedTokens; approvedTokensInBuffer := [];
     orderFulfilledMap := ∅ |}.

Section Init.

(** [convertAddressToBuffer] of [../utils/convert.address.to.buffer]. *)
Variable convertAddressToBuffer : ChainId → string → Address.

Definition init (cfg : Config) (env : Env) (chain : ChainId)
  : M Processor unit :=
  chainConfig <- deref (chains cfg chain) ;;
  modify (λ s, {| approvedTokens := approvedTokens s;
                  approvedTokensInBuffer :=
                    map (convertAddressToBuffer chain) (approvedTokens s);
                  orderFulfilledMap := orderFulfilledMap s |}) ;;;
  this <- get ;;
  if bool_decide (chain ≠ Solana) then
    promise_all (map (λ token, (ApproveToken chain token,
                                approveToken env chain token))
                     (approvedTokens this)) ;;;
    ret tt
  else ret tt.

End Init.

Definition nativeToken (chain : ChainId) : NativeToken :=
  if bool_decide (chain ≠ Solana)
  then evmNativeTokenAddress
  else solanaNativeTokenAddress.

(** The loop that waits for the fulfilment on Solana; [remaining] is
    [limit - iteration] and [asked] counts the status calls made so far. *)
Fixpoint waitFulfilled (env : Env) (id : string) (chain : ChainId)
    (remaining asked : nat) (state : option OrderState.t)
  : M Processor unit :=
  if bool_decide (state = Some OrderState.Fulfilled) then ret tt
  else
    match remaining with
    | O =>
        throw (Error "Failed to wait for order fulfillment, retries limit reached")
    | S remaining' =>
        state' <- await (GetTakeOrderStatus id chain)
                        (getTakeOrderStatus env id chain asked) ;;
        await (Sleep 2000) (Resolved tt) ;;;
        waitFulfilled env id chain remaining' (S asked) state'
    end.

Definition process (cfg : Config) (env : Env) (id : string) (o : OrderData)
  : M Processor unit :=
  let giveId := chainId (give o) in
  let takeId := chainId (take o) in
  let takeProviderUnlock := providersForUnlock cfg takeId in
  let takeProviderFulfill := providersForFulfill cfg takeId in
  let chainConfig := chains cfg takeId in
  this <- get ;;
  if negb (existsb (λ address, buffersAreEqual (tokenAddress (take o)) address)
                   (approvedTokensInBuffer this))
  then ret tt
  else
  giveWeb3 <- (if bool_decide (giveId ≠ Solana)
               then c <- deref (chains cfg giveId) ;; ret (Some (chainRpc c))
               else ret None) ;;
  takeWeb3 <- (if bool_decide (takeId ≠ Solana)
               then c <- deref chainConfig ;; ret (Some (chainRpc c))
               else ret None) ;;
  prices <- promise_all
              [ (GetPrice giveId (nativeToken giveId),
                 getPrice env giveId (nativeToken giveId));
                (GetPrice takeId (nativeToken takeId),
                 getPrice env takeId (nativeToken takeId)) ] ;;
  match prices with
  | [giveNativePrice; takeNativePrice] =>
  fees <- await (GetTakerFlowCost o giveNativePrice takeNativePrice)
                (getTakerFlowCost env o giveNativePrice takeNativePrice) ;;
  executionFeeAmount <-
    await (GetAmountToSend takeId giveId (executionFees_total fees))
          (getAmountToSend env takeId giveId (executionFees_total fees)) ;;
  fulfillTx <-
    (if bool_decide (takeId = Solana) then
       wallet <- deref takeProviderFulfill ;;
       await (FulfillOrder o id) (fulfillOrder env o id)
     else
       web3 <- deref takeProviderFulfill ;;
       unlockAuthority <- deref takeProviderUnlock ;;
       await (FulfillOrder o id) (fulfillOrder env o id)) ;;
  this <- get ;;
  if bool_decide (id ∈ orderFulfilledMap this) then
    modify (λ s, {| approvedTokens := approvedTokens s;
                    approvedTokensInBuffer := approvedTokensInBuffer s;
                    orderFulfilledMap := orderFulfilledMap s ∖ {[ id ]} |}) ;;;
    throw (MarketMakerExecutorError OrderIsFulfilled)
  else
  sent <- try_catch
            (provider <- deref takeProviderFulfill ;;
             txFulfill <- await (SendTransaction fulfillTx)
                                (sendTransaction env fulfillTx) ;;
             ret true)
            (λ e, ret false) ;;
  if negb sent then ret tt
  else
  (if bool_decide (takeId = Solana) then
     state <- await (GetTakeOrderStatus id takeId)
                    (getTakeOrderStatus env id takeId 0) ;;
     waitFulfilled env id takeId 10 1 state
   else ret tt) ;;;
  giveConfig <- deref (chains cfg giveId) ;;
  unlockTx <-
    (if bool_decide (takeId = Solana) then
       wallet <- deref takeProviderUnlock ;;
       await (SendUnlockOrder o (beneficiary giveConfig) executionFeeAmount
                              None)
             (sendUnlockOrder env o (beneficiary giveConfig)
                              executionFeeAmount None)
     else
       let rewards :=
         if bool_decide (giveId = Solana)
         then executionFees_rewards fees
         else (0, 0)%Z in
       web3 <- deref takeProviderUnlock ;;
       await (SendUnlockOrder o (beneficiary giveConfig) executionFeeAmount
                              (Some rewards))
             (sendUnlockOrder env o (beneficiary giveConfig)
                              executionFeeAmount (Some rewards))) ;;
  provider <- deref takeProviderUnlock ;;
  transactionUnlock <- await (SendTransaction unlockTx)
                             (sendTransaction env unlockTx) ;;
  ret tt
  | _ => throw TypeError
  end.

(** *** Vocabulary of the properties *)

(** The take token is, byte for byte, one of the approved tokens. *)
Definition approved (s : Processor) (o : OrderData) : Prop :=
  tokenAddress (take o) ∈ approvedTokensInBuffer s.

(** Both chains of the order and the providers of the take chain are
    configured. *)
Definition configured (cfg : Config) (o : OrderData) : Prop :=
  is_Some (chains cfg (chainId (give o)))
  ∧ is_Some (chains cfg (chainId (take o)))
  ∧ is_Some (providersForUnlock cfg (chainId (take o)))
  ∧ is_Some (providersForFulfill cfg (chainId (take o))).

(** No collaborator rejects a call. *)
Definition responsive (env : Env) : Prop :=
  (∀ c t, getPrice env c t ≠ Rejected)
  ∧ (∀ o a b, getTakerFlowCost env o a b ≠ Rejected)
  ∧ (∀ a b c, getAmountToSend env a b c ≠ Rejected)
  ∧ (∀ o id, fulfillOrder env o id ≠ Rejected)
  ∧ (∀ tx, sendTransaction env tx ≠ Rejected)
  ∧ (∀ o b f r, sendUnlockOrder env o b f r ≠ Rejected).

(** The take chain shows the order fulfilled at the first status call or at
    one of the ten that may follow, and answers every call before. *)
Definition fulfilmentSeen (env : Env) (id : string) (chain : ChainId) : Prop :=
  ∃ k, k ≤ 10
       ∧ getTakeOrderStatus env id chain k
         = Resolved (Some OrderState.Fulfilled)
       ∧ ∀ j, j < k →
           ∃ st, getTakeOrderStatus env id chain j = Resolved st
                 ∧ st ≠ Some OrderState.Fulfilled.


(** The transactions sent, in order. *)
Definition sends (l : list Call) : list Tx :=
  omap (λ c, match c with SendTransaction tx => Some tx | _ => None end) l.


End StrictProcessor.

(** ** Executor *)

Module Executor.

(** An entry of [constraints.requiredConfirmationsThresholds]. *)
Record Threshold := {
  thresholdAmountInUSD : Z;
  minBlockConfirmations : Z
}.

(** An entry of [UsdWorthBlockConfirmationConstraints]. *)
Record Range := {
  usdWorthFrom : Z;
  usdWorthTo : Z;
  range_minBlockConfirmations : Z
}.

Definition BLOCK_CONFIRMATIONS_HARD_CAPS (chain : ChainId) : Z :=
  match chain with
  | Avalanche => 15
  | Arbitrum => 15
  | BSC => 15
  | Ethereum => 12
  | Polygon => 256
  | Solana => 32
  | Fantom => 15
  end.

(** [Array.prototype.sort(compare)]: every element, in the order of the
    array, is put behind the elements that [compare] does not place after
    it. *)
Fixpoint sort_insert {A} (compare : A → A → Z) (x : A) (l : list A)
  : list A :=
  match l with
  | [] => [x]
  | y :: l' =>
      if (compare x y <? 0)%Z then x :: y :: l'
      else y :: sort_insert compare x l'
  end.

Definition sort {A} (compare : A → A → Z) (l : list A) : list A :=
  fold_left (λ sorted x, sort_insert compare x sorted) l [].

(** [(a, b) => a.thresholdAmountInUSD < b.thresholdAmountInUSD ? -1 : 1] *)
Definition byUsdWorthAsc (a b : Threshold) : Z :=
  if (thresholdAmountInUSD a <? thresholdAmountInUSD b)%Z then (-1)%Z
  else 1%Z.

(** The body of the [forEach]; [prev] is the threshold visited just before,
    which is [thresholdsSortedByUsdWorth[index - 1]]. *)
Fixpoint forEachThreshold (chain : ChainId) (prev : Threshold)
    (thresholds : list Threshold) (ranges : list Range)
  : Res (list Range) :=
  match thresholds with
  | [] => Ok ranges
  | threshold :: rest =>
      if (minBlockConfirmations threshold <=? minBlockConfirmations prev)%Z
      then Throw (ThresholdNotGreater chain (thresholdAmountInUSD threshold)
                    (minBlockConfirmations threshold)
                    (minBlockConfirmations prev))
      else if (BLOCK_CONFIRMATIONS_HARD_CAPS chain
                 <=? minBlockConfirmations threshold)%Z
      then Throw (ThresholdNotBelowCap chain (thresholdAmountInUSD threshold)
                    (minBlockConfirmations threshold)
                    (BLOCK_CONFIRMATIONS_HARD_CAPS chain))
      else forEachThreshold chain threshold rest
             (ranges ++
              [ {| usdWorthFrom := thresholdAmountInUSD prev;
                   usdWorthTo := thresholdAmountInUSD threshold;
                   range_minBlockConfirmations :=
                     minBlockConfirmations threshold |} ])
  end.

(** [definition.constraints?.requiredConfirmationsThresholds] is the second
    argument. *)
Definition getConfirmationRanges (chain : ChainId)
    (requiredConfirmationsThresholds : option (list Threshold))
  : Res (list Range) :=
  forEachThreshold chain
    {| minBlockConfirmations := 0; thresholdAmountInUSD := 0 |}
    (sort byUsdWorthAsc (default [] requiredConfirmationsThresholds))
    [].

(** The context a filter is called with: [giveChain] and [takeChain]. *)
Record FilterContext := {
  filter_giveChain : ChainId;
  filter_takeChain : ChainId
}.

Definition OrderFilter := OrderData → FilterContext → Answer bool.

(** An initializer is called once per chain and resolves to the filter. *)
Definition OrderFilterInitializer := ChainId → OrderFilter.

(** Modelled from the spec: [filters.disableFulfill] of [../filters], which
    is not among the sources. "DisableFulfill: always false; automatically
    appended when a destination chain is marked disabled." *)
Definition disableFulfill : OrderFilterInitializer :=
  λ _ _ _, Resolved false.

(** An entry of [config.chains]. *)
Record ChainDefinition := {
  def_chain : ChainId;
  def_disabled : bool;
  def_dstFilters : option (list OrderFilterInitializer);
  def_srcFilters : option (list OrderFilterInitializer);
  def_requiredConfirmationsThresholds : option (list Threshold);
  def_beneficiary : string
}.

Record ExecutorLaunchConfig := {
  launch_filters : option (list OrderFilterInitializer);
  launch_chains : list ChainDefinition;
  launch_buckets : list TokensBucket
}.

Record ExecutorSupportedChain := {
  chain : ChainId;
  srcFilters : list OrderFilter;
  dstFilters : list OrderFilter;
  usdAmountConfirmations : list Range;
  beneficiary : string
}.

(** The fields of the class that the dispatch reads. *)
Record Executor := {
  chains : ChainId → option ExecutorSupportedChain;
  buckets : list TokensBucket;
  isInitialized : bool
}.

Definition new : Executor :=
  {| chains := λ _, None; buckets := []; isInitialized := false |}.

(** One turn of the loop of [init] over [config.chains], without the
    construction of the clients and providers. The chain definitions are
    taken not to share their [dstFilters] array, to which [init] pushes
    [disableFulfill]. *)
Definition initChain (config : ExecutorLaunchConfig) (d : ChainDefinition)
  : Res ExecutorSupportedChain :=
  let dstFiltersInitializers :=
    default [] (def_dstFilters d)
    ++ (if def_disabled d then [disableFulfill] else []) in
  (* append global filters to the list of dstFilters *)
  let dstFilters :=
    map (λ filter, filter (def_chain d))
        (dstFiltersInitializers ++ default [] (launch_filters config)) in
  let srcFilters :=
    map (λ initializer, initializer (def_chain d))
        (default [] (def_srcFilters d)) in
  match getConfirmationRanges (def_chain d)
          (def_requiredConfirmationsThresholds d) with
  | Throw e => Throw e
  | Ok ranges =>
      Ok {| chain := def_chain d; srcFilters := srcFilters;
            dstFilters := dstFilters; usdAmountConfirmations := ranges;
            beneficiary := def_beneficiary d |}
  end.

Fixpoint initChains (config : ExecutorLaunchConfig)
    (defs : list ChainDefinition)
    (chains : ChainId → option ExecutorSupportedChain)
  : Res (ChainId → option ExecutorSupportedChain) :=
  match defs with
  | [] => Ok chains
  | d :: defs' =>
      match initChain config d with
      | Throw e => Throw e
      | Ok c =>
          initChains config defs'
            (λ id, if bool_decide (id = def_chain d) then Some c
                   else chains id)
      end
  end.

(** [init]. When it throws it returns no executor: the properties are about
    the [init] of a new executor, whose failure ends the start-up; the
    entries that the code has written to [this.chains] before the throw are
    not kept. *)
Definition init (this : Executor) (config : ExecutorLaunchConfig)
  : Res Executor :=
  if isInitialized this then Ok this
  else
    match initChains config (launch_chains config) (chains this) with
    | Throw e => Throw e
    | Ok chains' =>
        Ok {| chains := chains'; buckets := launch_buckets config;
              isInitialized := true |}
    end.

Definition runsFilters (t : OrderInfoStatus.t) : bool :=
  bool_decide (t ∈ [OrderInfoStatus.Created; OrderInfoStatus.ArchivalCreated]).

Definition executeOrder (nextOrderInfo : IncomingOrder) : M Executor bool :=
  match order nextOrderInfo with
  | None => throw (Error "Order is undefined")
  | Some o =>
  if negb (JS.truthy (orderId nextOrderInfo))
  then throw (Error "Order is undefined")
  else
  this <- get ;;
  match chains this (chainId (take o)) with
  | None => ret false
  | Some takeChain =>
  match chains this (chainId (give o)) with
  | None => ret false
  | Some giveChain =>
  let listOrderFilters := dstFilters takeChain ++ srcFilters giveChain in
  let ctx := {| filter_giveChain := chain giveChain;
                filter_takeChain := chain takeChain |} in
  (* run filters for create or archival orders *)
  accepted <-
    (if runsFilters (status nextOrderInfo) then
       orderFilters <-
         promise_all (imap (λ i filter, (RunFilter i o, filter o ctx))
                           listOrderFilters) ;;
       ret (forallb (λ it, it) orderFilters)
     else ret true) ;;
  if negb accepted then ret false
  else
  (* run processor *)
  detached
    (await (ProcessorProcess (chain takeChain)
              {| orderInfo := nextOrderInfo;
                 context := {| config_buckets := buckets this;
                               giveChain := chain giveChain |};
                 attempts := Some 0%Z |})
           (Resolved tt)) ;;;
  ret true
  end
  end
  end.

(** [execute]: whatever [executeOrder] throws is logged and dropped. *)
Definition execute (nextOrderInfo : IncomingOrder) : M Executor unit :=
  try_catch (executeOrder nextOrderInfo ;;; ret tt) (λ e, ret tt).

(** *** Vocabulary of the properties *)

Definition usd_le (a b : Threshold) : Prop :=
  (thresholdAmountInUSD a ≤ thresholdAmountInUSD b)%Z.

Definition conf_lt (a b : Threshold) : Prop :=
  (minBlockConfirmations a < minBlockConfirmations b)%Z.

Definition zeroThreshold : Threshold :=
  {| minBlockConfirmations := 0; thresholdAmountInUSD := 0 |}.

(** The threshold at index [i] of the sorted list breaks a rule: its
    predecessor is the entry at index [i] of the list with the implicit
    initial threshold in front. *)
Definition violates (chain : ChainId) (sorted : list Threshold) (i : nat)
    (t : Threshold) : Prop :=
  sorted !! i = Some t
  ∧ ∃ prev, (zeroThreshold :: sorted) !! i = Some prev
            ∧ ((minBlockConfirmations t ≤ minBlockConfirmations prev)%Z
               ∨ (BLOCK_CONFIRMATIONS_HARD_CAPS chain
                  ≤ minBlockConfirmations t)%Z).

(** The order as the executor hands it to the processor. *)
Definition dispatched (this : Executor) (ev : IncomingOrder)
    (giveChain : ExecutorSupportedChain) : IncomingOrderContext :=
  {| orderInfo := ev;
     context := {| config_buckets := buckets this;
                   giveChain := chain giveChain |};
     attempts := Some 0%Z |}.

(** The calls with which [executeOrder] starts the filters. *)
Definition filterRuns (o : OrderData) (filters : list OrderFilter)
  : list Call :=
  imap (λ i _, RunFilter i o) filters.

(** The filters of a chain definition, once initialized. *)
Definition ownDstFilters (d : ChainDefinition) : list OrderFilter :=
  map (λ f, f (def_chain d)) (default [] (def_dstFilters d)).

Definition ownSrcFilters (d : ChainDefinition) : list OrderFilter :=
  map (λ f, f (def_chain d)) (default [] (def_srcFilters d)).

Definition globalFilters (config : ExecutorLaunchConfig) (c : ChainId)
  : list OrderFilter :=
  map (λ f, f c) (default [] (launch_filters config)).

End Executor.

(** ** The filter [whitelistedOrderId] *)

Module OrderFilters.
Import Executor.

Section WhitelistedOrderId.

(** [Order.calculateId] of the client library. *)
Variable calculateId : OrderData → string.

Definition whitelistedOrderId (orderIds : list string)
  : OrderFilterInitializer :=
  λ _ order _,
    let result :=
      existsb (λ orderId, String.eqb orderId (calculateId order)) orderIds in
    Resolved result.

End WhitelistedOrderId.

End OrderFilters.

(** ** The approvals of [UniversalProcessor.init] *)

Module UniversalInit.

(** [evm.ServiceType], as far as [init] names it. *)
Inductive ServiceType := CrosschainForwarder | Destination.

(** One call of [approveToken(chainId, token, contractAddress, ...)], where
    [contractAddress] is [client.getContractAddress(chainId, service)]. *)
Record Approval := {
  approval_chain : ChainId;
  approval_token : string;
  approval_service : ServiceType
}.

Section Init.

(** [tokenAddressToString] of the client library, and the answers of
    [approveToken] of [./utils/approve]. *)
Variable tokenAddressToString : ChainId → Address → string.
Variable approveToken : ChainId → string → ServiceType → Answer unit.

(** [await approveToken(...)]; the state is the list of the approvals asked
    for so far. *)
Definition approve (chainId : ChainId) (token : string) (service : ServiceType)
  : M (list Approval) unit :=
  modify (λ asked, asked ++ [ {| approval_chain := chainId;
                                 approval_token := token;
                                 approval_service := service |} ]) ;;;
  match approveToken chainId token service with
  | Resolved _ => ret tt
  | Rejected => throw (Rejection (ApproveToken chainId token))
  end.

(** The tokens that [init] collects: [bucket.findTokens(chainId) || []] of
    every bucket, in the order of the buckets. *)
Definition tokens (chainId : ChainId) (buckets : list TokensBucket)
  : list string :=
  flat_map (λ bucket, map (tokenAddressToString chainId) (bucket chainId))
           buckets.

Fixpoint approveEach (chainId : ChainId) (tokens : list string)
  : M (list Approval) unit :=
  match tokens with
  | [] => ret tt
  | token :: rest =>
      approve chainId token CrosschainForwarder ;;;
      approve chainId token Destination ;;;
      approveEach chainId rest
  end.

(** [init], past the construction of the batch unlocker and of the mempool
    service. *)
Definition init (chainId : ChainId) (buckets : list TokensBucket)
  : M (list Approval) unit :=
  if bool_decide (chainId ≠ Solana)
  then approveEach chainId (tokens chainId buckets)
  else ret tt.

(** *** Vocabulary of the properties *)

(** The approvals that [init] asks for when nothing is rejected: for every
    token, first towards the crosschain forwarder, then towards the
    destination contract. *)
Definition approvalsOf (chainId : ChainId) (tokens : list string)
  : list Approval :=
  flat_map (λ token, [ {| approval_chain := chainId; approval_token := token;
                          approval_service := CrosschainForwarder |};
                       {| approval_chain := chainId; approval_token := token;
                          approval_service := Destination |} ])
           tokens.

Definition answerOf (a : Approval) : Answer unit :=
  approveToken (approval_chain a) (approval_token a) (approval_service a).

End Init.

End UniversalInit.

(** ** What the logs of calls show *)

Module Observations.

(** The orders handed to the batch unlocker, in order. *)
Definition unlocks (l : list Call) : list string :=
  omap (λ c, match c with UnlockOrder id => Some id | _ => None end) l.

(** The status calls to the take chain. *)
Definition statusCalls (l : list Call) : list Call :=
  List.filter (λ c, match c with GetTakeOrderStatus _ _ => true | _ => false end)
              l.

(** The unlock transactions asked of the client. *)
Definition unlockRequests (l : list Call) : list Call :=
  List.filter (λ c, match c with SendUnlockOrder _ _ _ _ => true | _ => false end)
              l.

(** The orders handed to a processor, each with the chain of the processor,
    in order. *)
Definition forwards (l : list Call) : list (ChainId * IncomingOrderContext) :=
  omap (λ c, match c with ProcessorProcess chain p => Some (chain, p)
                        | _ => None end) l.

(** [process(p)] has been called in the history [es]. *)
Definition arrived (es : list UniversalProcessor.Event)
    (p : IncomingOrderContext) : Prop :=
  ∃ env, UniversalProcessor.Arrives env p ∈ es.

End Observations.

(** ** Invariants of the scheduler *)

Module Invariants.
Import UniversalProcessor.

(** The state of a processor between two events: the queues are sets of
    non-empty orderIds, [incomingOrdersMap] holds exactly the queued orders,
    each under its own orderId and of a creation status, the lock is held
    exactly while an order is in flight, and nothing waits while the lock is
    free. *)
Definition consistent (s : Processor) : Prop :=
  wf s ∧ lockInv s
  ∧ (∀ id p, incomingOrdersMap s !! id = Some p →
       (id ∈ priorityQueue s ∨ id ∈ queue s)
       ∧ isCreation (status (orderInfo p)))
  ∧ (isLocked s = false → priorityQueue s = [] ∧ queue s = []).

(** Every order that began processing, is in flight or waits in
    [incomingOrdersMap] came in by a call of [process] in the history [es],
    with a creation status. *)
Definition accounted (es : list Event) (s : Processor) : Prop :=
  ∀ p, p ∈ processed s ∨ p ∈ inFlight s
       ∨ (∃ id, incomingOrdersMap s !! id = Some p) →
    Observations.arrived es p ∧ isCreation (status (orderInfo p)).

End Invariants.

(** ** Concrete configurations, for the examples *)

Module Fixtures.

(** Collaborators that answer every call: the order is new on both chains,
    profitable, and the reserve suffices. *)
Definition env0 : Env := {|
  getTakeOrderStatus := λ _ _ _, Resolved (Some OrderState.NotSet);
  getGiveOrderStatus := λ _ _, Resolved (Some OrderState.Created);
  calculateExpectedTakeAmount := λ _ _ _,
    Resolved {| reserveDstToken := [x01]; requiredReserveDstAmount := 5;
                isProfitable := true; reserveToTakeSlippageBps := None |};
  getBalance := λ _, Resolved 10%Z;
  preswapAndFulfillOrder := λ _ _ _ _ _, Resolved 7%Z;
  sendTransaction := λ _, Resolved 8%Z;
  waitIsOrderFulfilled := λ _, Resolved tt;
  unlockOrder := λ _, Resolved tt;
  getPrice := λ _ _, Resolved 1%Z;
  getTakerFlowCost := λ _ _ _,
    Resolved {| executionFees_total := 1; executionFees_rewards := (0, 0)%Z |};
  getAmountToSend := λ _ _ _, Resolved 1%Z;
  fulfillOrder := λ _ _, Resolved 11%Z;
  sendUnlockOrder := λ _ _ _ _, Resolved 12%Z;
  approveToken := λ _ _, Resolved tt
|}.

(** The same collaborators, except that the order is not profitable. *)
Definition envUnprofitable : Env := {|
  getTakeOrderStatus := getTakeOrderStatus env0;
  getGiveOrderStatus := getGiveOrderStatus env0;
  calculateExpectedTakeAmount := λ _ _ _,
    Resolved {| reserveDstToken := [x01]; requiredReserveDstAmount := 5;
                isProfitable := false; reserveToTakeSlippageBps := None |};
  getBalance := getBalance env0;
  preswapAndFulfillOrder := preswapAndFulfillOrder env0;
  sendTransaction := sendTransaction env0;
  waitIsOrderFulfilled := waitIsOrderFulfilled env0;
  unlockOrder := unlockOrder env0;
  getPrice := getPrice env0;
  getTakerFlowCost := getTakerFlowCost env0;
  getAmountToSend := getAmountToSend env0;
  fulfillOrder := fulfillOrder env0;
  sendUnlockOrder := sendUnlockOrder env0;
  approveToken := approveToken env0
|}.

(** The same collaborators, except that the take chain shows the order
    fulfilled from the third status call on. *)
Definition envFulfilledLater : Env := {|
  getTakeOrderStatus := λ _ _ n,
    Resolved (Some (if (n <? 2)%nat then OrderState.NotSet
                    else OrderState.Fulfilled));
  getGiveOrderStatus := getGiveOrderStatus env0;
  calculateExpectedTakeAmount := calculateExpectedTakeAmount env0;
  getBalance := getBalance env0;
  preswapAndFulfillOrder := preswapAndFulfillOrder env0;
  sendTransaction := sendTransaction env0;
  waitIsOrderFulfilled := waitIsOrderFulfilled env0;
  unlockOrder := unlockOrder env0;
  getPrice := getPrice env0;
  getTakerFlowCost := getTakerFlowCost env0;
  getAmountToSend := getAmountToSend env0;
  fulfillOrder := fulfillOrder env0;
  sendUnlockOrder := sendUnlockOrder env0;
  approveToken := approveToken env0
|}.

(** A bucket with one token on every chain. *)
Definition usdc : TokensBucket := λ _, [[x01]].

(** 100 of the token on Arbitrum for 99 of it on Polygon. *)
Definition order0 : OrderData :=
  {| give := {| chainId := Arbitrum; tokenAddress := [x01]; amount := 100 |};
     take := {| chainId := Polygon; tokenAddress := [x01]; amount := 99 |} |}.

(** The same offer, taken on Solana. *)
Definition orderToSolana : OrderData :=
  {| give := give order0;
     take := {| chainId := Solana; tokenAddress := [x01]; amount := 99 |} |}.

Definition event (id : string) (t : OrderInfoStatus.t) : IncomingOrder :=
  {| orderId := id; status := t; order := Some order0 |}.

Definition incoming (id : string) (t : OrderInfoStatus.t)
  : IncomingOrderContext :=
  {| orderInfo := event id t;
     context := {| config_buckets := [usdc]; giveChain := Arbitrum |};
     attempts := Some 0%Z |}.

(** The processor as [new UniversalProcessor()] leaves it. *)
Definition idle : UniversalProcessor.Processor :=
  {| UniversalProcessor.priorityQueue := [];
     UniversalProcessor.queue := [];
     UniversalProcessor.incomingOrdersMap := ∅;
     UniversalProcessor.isLocked := false;
     UniversalProcessor.params := UniversalProcessor.defaultParams;
     UniversalProcessor.mempoolService := ∅;
     UniversalProcessor.inFlight := [];
     UniversalProcessor.processed := [] |}.

(** The processor while it processes the order ["x"]. *)
Definition busy : World UniversalProcessor.Processor :=
  UniversalProcessor.run (UniversalProcessor.boot idle)
    [UniversalProcessor.Arrives env0 (incoming "x" OrderInfoStatus.Created)].

(** A strict processor with every chain configured, which approves the
    token of [order0] and has the orders [fulfilled] on record. *)
Definition strictConfig : StrictProcessor.Config :=
  {| StrictProcessor.chains :=
       λ _, Some {| StrictProcessor.chainRpc := "rpc";
                    StrictProcessor.beneficiary := "beneficiary" |};
     StrictProcessor.providersForUnlock := λ _, Some "unlocker";
     StrictProcessor.providersForFulfill := λ _, Some "taker" |}.

Definition strictWorld (fulfilled : gset string)
  : World StrictProcessor.Processor :=
  MkWorld {| StrictProcessor.approvedTokens := ["0x01"];
             StrictProcessor.approvedTokensInBuffer := [[x01]];
             StrictProcessor.orderFulfilledMap := fulfilled |} [].

(** Two filters, and a launch configuration of Arbitrum and Polygon with one
    global filter, which accepts; [dst] are Polygon's own [dstFilters]. *)
Definition rejectAll : Executor.OrderFilterInitializer :=
  λ _ _ _, Resolved false.

Definition acceptAll : Executor.OrderFilterInitializer :=
  λ _ _ _, Resolved true.

Definition chainDef (c : ChainId) (dst : list Executor.OrderFilterInitializer)
  : Executor.ChainDefinition :=
  {| Executor.def_chain := c; Executor.def_disabled := false;
     Executor.def_dstFilters := Some dst; Executor.def_srcFilters := None;
     Executor.def_requiredConfirmationsThresholds := None;
     Executor.def_beneficiary := "beneficiary" |}.

Definition launch (dst : list Executor.OrderFilterInitializer)
  : Executor.ExecutorLaunchConfig :=
  {| Executor.launch_filters := Some [acceptAll];
     Executor.launch_chains := [chainDef Arbitrum []; chainDef Polygon dst];
     Executor.launch_buckets := [usdc] |}.

Definition executorOf (config : Executor.ExecutorLaunchConfig)
  : Executor.Executor :=
  match Executor.init Executor.new config with
  | Ok ex => ex
  | Throw _ => Executor.new
  end.

End Fixtures.

(** ** Further configurations, for the examples *)

Module Scenarios.
Import Fixtures.

(** The collaborators of [env0], except that no transaction can be sent. *)
Definition envSendFails : Env := {|
  getTakeOrderStatus := getTakeOrderStatus env0;
  getGiveOrderStatus := getGiveOrderStatus env0;
  calculateExpectedTakeAmount := calculateExpectedTakeAmount env0;
  getBalance := getBalance env0;
  preswapAndFulfillOrder := preswapAndFulfillOrder env0;
  sendTransaction := λ _, Rejected;
  waitIsOrderFulfilled := waitIsOrderFulfilled env0;
  unlockOrder := unlockOrder env0;
  getPrice := getPrice env0;
  getTakerFlowCost := getTakerFlowCost env0;
  getAmountToSend := getAmountToSend env0;
  fulfillOrder := fulfillOrder env0;
  sendUnlockOrder := sendUnlockOrder env0;
  approveToken := approveToken env0
|}.

(** The offer of [order0], given on Solana. *)
Definition orderFromSolana : OrderData :=
  {| give := {| chainId := Solana; tokenAddress := [x01]; amount := 100 |};
     take := take order0 |}.

(** The configuration [strictConfig] without an entry for Solana. *)
Definition strictConfigWithoutSolana : StrictProcessor.Config :=
  {| StrictProcessor.chains :=
       λ c, if bool_decide (c = Solana) then None
            else StrictProcessor.chains strictConfig c;
     StrictProcessor.providersForUnlock :=
       StrictProcessor.providersForUnlock strictConfig;
     StrictProcessor.providersForFulfill :=
       StrictProcessor.providersForFulfill strictConfig |}.

End Scenarios.

(** * Properties *)

(** ** Tactics and facts shared by the components *)

Ltac unfold_monad :=
  unfold detached;
  unfold bind, ret, throw, get, modify, await, try_catch, deref, promise_all.

Lemma truthy_spec (s : string) : JS.truthy s = true ↔ s ≠ "".
Proof.
  unfold JS.truthy. destruct (String.eqb_spec s ""); simpl; split; intros;
    congruence.
Qed.

Lemma truthy_false (s : string) : JS.truthy s = false ↔ s = "".
Proof.
  unfold JS.truthy. destruct (String.eqb_spec s ""); simpl; split; intros;
    congruence.
Qed.

(** ** UniversalProcessor *)

Module UniversalFacts.
Import UniversalProcessor Fixtures.

Ltac unfold_universal :=
  unfold mempool_addOrder, mempool_delete, createOrderFullfillTx;
  unfold_monad.

(** C7. The constructor throws "batchUnlockSize should be in [1, 10]" when
    [batchUnlockSize] is given outside of [1, 10], and accepts it inside.
    When the property is omitted the processor is built with
    [batchUnlockSize = 10]; an omitted [minProfitabilityBps] is 4 and an
    omitted [mempoolInterval] is 60. *)
Theorem constructor_params (arg : option PartialParams) :
  let size := arg ≫= (λ a, read (p_batchUnlockSize a)) in
  (∀ n, size = Some n → ¬ (1 ≤ n ≤ 10)%Z →
     constructor arg = Throw (Error "batchUnlockSize should be in [1, 10]"))
  ∧ (∀ n, size = Some n → (1 ≤ n ≤ 10)%Z →
     ∃ s, constructor arg = Ok s ∧ batchUnlockSize (params s) = Some n)
  ∧ (omitted p_batchUnlockSize arg →
     ∃ s, constructor arg = Ok s ∧ batchUnlockSize (params s) = Some 10%Z)
  ∧ (∀ s, constructor arg = Ok s →
       (omitted p_minProfitabilityBps arg →
        minProfitabilityBps (params s) = Some 4%Z)
       ∧ (omitted p_mempoolInterval arg →
          mempoolInterval (params s) = Some 60%Z)).
Proof.
  intros size. subst size. unfold constructor, omitted.
  split; [|split; [|split]].
  - intros n Hn Hout. rewrite Hn.
    destruct (10 <? n)%Z eqn:E1; [reflexivity|].
    destruct (n <? 1)%Z eqn:E2; [reflexivity|]. lia.
  - intros n Hn Hin. rewrite Hn.
    destruct (10 <? n)%Z eqn:E1; [lia|].
    destruct (n <? 1)%Z eqn:E2; [lia|]. simpl.
    eexists; split; [reflexivity|]. simpl.
    destruct arg as [a|]; simpl in *; [|discriminate].
    destruct (p_batchUnlockSize a); simpl in *; congruence.
  - intros [->|(a & -> & Ha)]; simpl.
    + eexists; split; reflexivity.
    + rewrite Ha. simpl. eexists; split; reflexivity.
  - intros s.
    destruct (match arg ≫= _ with Some _ => _ | None => _ end); [discriminate|].
    intros [= <-]. split; intros [->|(a & -> & Ha)]; simpl;
      try reflexivity; rewrite Ha; reflexivity.
Qed.

Lemma constructor_params_witness :
  constructor (Some {| p_minProfitabilityBps := Omitted;
                       p_mempoolInterval := Omitted;
                       p_batchUnlockSize := Present (Some 11%Z) |})
  = Throw (Error "batchUnlockSize should be in [1, 10]")
  ∧ ∃ s, constructor None = Ok s ∧ batchUnlockSize (params s) = Some 10%Z.
Proof.
  split.
  - apply (proj1 (constructor_params _) 11%Z); [reflexivity | lia].
  - apply (proj1 (proj2 (proj2 (constructor_params None)))).
    left; reflexivity.
Defined.

Lemma find_covers_None p o :
  List.find (covers o) (config_buckets (context p)) = None ↔ NoReserveCoverage p o.
Proof.
  unfold NoReserveCoverage. split.
  - intros H b Hb. apply list_elem_of_In in Hb.
    pose proof (find_none _ _ H b Hb) as Hc. unfold covers, findFirstToken in Hc.
    apply andb_false_iff in Hc. 
    destruct (b (chainId (give o))); [left; reflexivity|].
    destruct (b (chainId (take o))); [right; reflexivity|].
    destruct Hc as [Hc|Hc]; apply bool_decide_eq_false in Hc; exfalso; apply Hc; simpl; discriminate.
  - intros H. destruct (List.find _ _) as [b|] eqn:E; [|reflexivity].
    apply find_some in E. destruct E as [Hin Hc].
    apply list_elem_of_In in Hin. unfold covers, findFirstToken in Hc.
    apply andb_true_iff in Hc. destruct Hc as [H1 H2].
    apply bool_decide_eq_true in H1. apply bool_decide_eq_true in H2.
    destruct (H b Hin) as [E|E]; rewrite E in *; simpl in *; congruence.
Qed.

Ltac leaf :=
  repeat split; intros;
  repeat match goal with
    | H : _ ∧ _ |- _ => destruct H
    | H : ∃ _, _ |- _ => destruct H
    | H : _ ∨ _ |- _ => destruct H
    end;
  simplify_eq; try discriminate; try tauto; eauto 6;
  try (repeat (rewrite elem_of_app in * || rewrite list_elem_of_singleton in * );
       intuition congruence).

(** C5. For an order that is present, [processOrder] throws "no token bucket
    ..." exactly when no bucket has a token on both chains, "Order is
    fulfilled" exactly when a bucket covers both chains and the take chain
    answers with a status other than [NotSet] or none, and "Order is not
    created" exactly when, past these two checks, the give chain answers
    with anything but [Created]. These are its only [Error]s; when one is
    thrown no field has changed, so the mempool does not hold the order, and
    no transaction was sent. *)
Theorem processOrder_prechecks env p o w :
  order (orderInfo p) = Some o →
  orderId (orderInfo p) ≠ "" →
  let r := fst (processOrder env p w) in
  let w' := snd (processOrder env p w) in
  (r = Throw (Error msgNoBucket) ↔ NoReserveCoverage p o)
  ∧ (r = Throw (Error "Order is fulfilled") ↔
       ¬ NoReserveCoverage p o ∧ AlreadyFulfilled env p o)
  ∧ (r = Throw (Error "Order is not created") ↔
       ¬ NoReserveCoverage p o ∧ TakeSideClear env p o ∧ NotCreatedOnSource env p o)
  ∧ (∀ m, r = Throw (Error m) →
       (m = msgNoBucket ∨ m = "Order is fulfilled" ∨ m = "Order is not created")
       ∧ fields w' = fields w
       ∧ (∀ tx, SendTransaction tx ∈ calls w' → SendTransaction tx ∈ calls w)).
Proof.
  intros Ho Hid r w'. subst r w'. apply truthy_spec in Hid.
  unfold processOrder. rewrite Ho, Hid. simpl.
  rewrite <- find_covers_None.
  unfold AlreadyFulfilled, TakeSideClear, NotCreatedOnSource, msgNoBucket.
  destruct (List.find _ _) as [b|] eqn:Hb.
  2:{ unfold_universal; simpl. split; [tauto|]. split; [split; [discriminate|tauto]|].
      split; [split; [discriminate|tauto]|].
      intros m [= <-]. auto. }
  unfold_universal; simpl.
  destruct (getTakeOrderStatus env _ _ 0) as [ts|] eqn:Hts; simpl.
  2:{ leaf. }
  destruct ts as [[]|]; simpl.
  all: try solve [leaf].

  all: destruct (getGiveOrderStatus env _ _) as [gs|] eqn:Hgs; simpl.
  all: try solve [leaf].
  all: destruct gs as [[]|]; simpl.
  all: try solve [leaf].
  all: destruct (calculateExpectedTakeAmount env _ _ _) as [r|] eqn:Hr; simpl.
  all: try solve [leaf].
  all: destruct (isProfitable r) eqn:Hp; simpl.
  all: try solve [leaf].
  all: destruct (getBalance env _) as [bal|] eqn:Hbal; simpl.
  all: try solve [leaf].
  all: destruct (bal <? _)%Z eqn:Hlt; simpl.
  all: try solve [leaf].
  all: destruct (preswapAndFulfillOrder env _ _ _ _ _) as [tx|] eqn:Htx; simpl.
  all: try solve [leaf].
  all: destruct (sendTransaction env _) as [h|] eqn:Hsend; simpl.
  all: try solve [leaf].
  all: destruct (waitIsOrderFulfilled env _) as [[]|] eqn:Hwait; simpl.
  all: try solve [leaf].
  all: destruct (unlockOrder env _) as [[]|] eqn:Hunlock; simpl.
  all: try solve [leaf].
Qed.

(** C6. Past the prechecks, if [calculateExpectedTakeAmount] reports the
    order not profitable, or the balance of [reserveDstToken] is strictly
    below [requiredReserveDstAmount], or the sending of the fulfill
    transaction is rejected, then [processOrder] returns normally and the
    only field that has changed is the mempool, which now holds the order
    with its context. *)
Theorem processOrder_soft_failures env p o r w :
  order (orderInfo p) = Some o →
  orderId (orderInfo p) ≠ "" →
  ¬ NoReserveCoverage p o →
  TakeSideClear env p o →
  getGiveOrderStatus env (orderId (orderInfo p)) (chainId (give o))
    = Resolved (Some OrderState.Created) →
  calculateExpectedTakeAmount env o (minProfitabilityBps (params (fields w)))
    (batchSizeFor (fields w) o) = Resolved r →
  Unprofitable r ∨ InsufficientReserve env r ∨ FulfillSendFailed env p o r →
  fst (processOrder env p w) = Ok tt
  ∧ fields (snd (processOrder env p w))
    = set_mempoolService
        (<[orderId (orderInfo p) := deferred p]> (mempoolService (fields w)))
        (fields w).
Proof.
  intros Ho Hid Hcov (ts & Hts & Hclear) Hgive Hcalc Hsoft.
  apply truthy_spec in Hid. rewrite <- find_covers_None in Hcov.
  unfold batchSizeFor in Hcalc.
  unfold processOrder. rewrite Ho, Hid. simpl.
  destruct (List.find _ _) as [b|]; [|congruence].
  unfold_universal; simpl. rewrite Hts; simpl.
  assert (bool_decide (ts ≠ Some OrderState.NotSet) && bool_decide (ts ≠ None) = false) as ->.
  { destruct Hclear as [->| ->]; reflexivity. }
  rewrite Hgive; simpl. rewrite Hcalc; simpl.
  unfold Unprofitable, InsufficientReserve, FulfillSendFailed, deferred in *.
  destruct Hsoft as [Hp | [(Hp & bal & Hbal & Hlt) | (Hp & bal & tx & Hbal & Hge & Htx & Hsend)]];
    rewrite Hp; simpl.
  - split; reflexivity.
  - rewrite Hbal; simpl.
    assert ((bal <? requiredReserveDstAmount r)%Z = true) as -> by lia.
    split; reflexivity.
  - rewrite Hbal; simpl.
    assert ((bal <? requiredReserveDstAmount r)%Z = false) as -> by lia.
    rewrite Htx; simpl. rewrite Hsend; simpl. split; reflexivity.
Qed.

Lemma processOrder_order_empty env p w :
  order (orderInfo p) = None ∨ orderId (orderInfo p) = "" →
  processOrder env p w = (Throw (Error "order is empty, should not happen"), w).
Proof.
  intros H. unfold processOrder.
  destruct (order (orderInfo p)); [|reflexivity].
  destruct H as [H|H]; [discriminate|].
  apply truthy_false in H. rewrite H. reflexivity.
Qed.

(** [processOrder] touches no field but the mempool. *)
Lemma processOrder_frame env p w :
  ∃ m, fields (snd (processOrder env p w)) = set_mempoolService m (fields w).
Proof.
  assert (∃ m, fields w = set_mempoolService m (fields w)) as Hid.
  { exists (mempoolService (fields w)). destruct (fields w); reflexivity. }
  unfold processOrder.
  destruct (order (orderInfo p)) as [o|]; [|exact Hid].
  destruct (negb _); [exact Hid|].
  destruct (List.find _ _); [|exact Hid].
  unfold_universal; simpl.
  destruct (getTakeOrderStatus env _ _ 0) as [ts|]; simpl; [|exact Hid].
  destruct (bool_decide _ && bool_decide _); simpl; [exact Hid|].
  destruct (getGiveOrderStatus env _ _) as [gs|]; simpl; [|exact Hid].
  destruct (bool_decide _); simpl; [exact Hid|].
  destruct (calculateExpectedTakeAmount env _ _ _) as [r|]; simpl; [|exact Hid].
  destruct (isProfitable r); simpl; [|eexists; reflexivity].
  destruct (getBalance env _) as [bal|]; simpl; [|exact Hid].
  destruct (bal <? _)%Z; simpl; [eexists; reflexivity|].
  destruct (preswapAndFulfillOrder env _ _ _ _ _) as [tx|]; simpl; [|exact Hid].
  destruct (sendTransaction env _) as [h|]; simpl; [|eexists; reflexivity].
  destruct (waitIsOrderFulfilled env _) as [[]|]; simpl; [|exact Hid].
  destruct (unlockOrder env _) as [[]|]; simpl; exact Hid.
Qed.

Lemma tryProcess_unlocked p w :
  isLocked (fields w) = false →
  tryProcess p w
  = (Ok tt,
     MkWorld (set_inFlight (inFlight (fields w) ++ [p])
                (set_processed (processed (fields w) ++ [p])
                   (set_isLocked true (fields w))))
             (calls w)).
Proof.
  intros H. unfold tryProcess. unfold_universal. rewrite H. reflexivity.
Qed.

Lemma tryProcess_locked p w :
  isLocked (fields w) = true →
  isCreation (status (orderInfo p)) →
  let id := orderId (orderInfo p) in
  let s := fields w in
  tryProcess p w
  = (Ok tt,
     MkWorld
       (set_incomingOrdersMap (<[id := p]> (incomingOrdersMap s))
          (match status (orderInfo p) with
           | OrderInfoStatus.ArchivalCreated =>
               set_queue (JS.set_add id (queue s)) s
           | _ => set_priorityQueue (JS.set_add id (priorityQueue s)) s
           end))
       (calls w)).
Proof.
  intros H Hc. unfold tryProcess. unfold_universal. rewrite H.
  destruct Hc as [-> | ->]; reflexivity.
Qed.

Lemma pickNextOrder_frame w :
  ∃ o pq q m,
    pickNextOrder w
    = (Ok o, MkWorld (set_incomingOrdersMap m
                        (set_queue q (set_priorityQueue pq (fields w))))
                     (calls w)).
Proof.
  unfold pickNextOrder. unfold_universal.
  assert (∃ o pq q m, (Ok (@None IncomingOrderContext), w) = (Ok o, MkWorld (set_incomingOrdersMap m
                        (set_queue q (set_priorityQueue pq (fields w))))
                     (calls w))) as Hid.
  { exists None, (priorityQueue (fields w)), (queue (fields w)),
      (incomingOrdersMap (fields w)).
    destruct w as [[] ?]; reflexivity. }
  destruct (JS.or _ _) as [id|]; [|exact Hid].
  destruct (JS.truthy id); [|exact Hid].
  simpl. do 4 eexists. reflexivity.
Qed.

Lemma tryProcess_resume_eq env i w x :
  inFlight (fields w) !! i = Some x →
  snd (tryProcess_resume env i w)
  = let w1 := snd (processOrder env x w) in
    let w2 := MkWorld (set_isLocked false
                         (set_inFlight (delete i (inFlight (fields w1)))
                                       (fields w1)))
                      (calls w1) in
    match fst (pickNextOrder w2) with
    | Ok (Some next) => snd (tryProcess next (snd (pickNextOrder w2)))
    | _ => snd (pickNextOrder w2)
    end.
Proof.
  intros Hx. unfold tryProcess_resume. unfold_universal. rewrite Hx.
  destruct (processOrder env x w) as [[] w1]; simpl;
    destruct (pickNextOrder _) as [[[]|] ?]; simpl; try reflexivity;
    destruct (tryProcess _ _) as [[] ?]; reflexivity.
Qed.

Lemma lockInv_step w e : lockInv (fields w) → lockInv (fields (step w e)).
Proof.
  intros Hinv. destruct e as [env p | env i]; simpl.
  - unfold process.
    destruct (status (orderInfo p)) eqn:Hst.
    + destruct (isLocked (fields w)) eqn:Hl.
      * rewrite tryProcess_locked; [|assumption|left; assumption].
        rewrite Hst. simpl. unfold lockInv in *. simpl. rewrite Hl in *. assumption.
      * rewrite tryProcess_unlocked by assumption. simpl.
        unfold lockInv in *. rewrite Hl in Hinv. simpl. rewrite Hinv. eauto.
    + destruct (isLocked (fields w)) eqn:Hl.
      * rewrite tryProcess_locked; [|assumption|right; assumption].
        rewrite Hst. simpl. unfold lockInv in *. simpl. rewrite Hl in *. assumption.
      * rewrite tryProcess_unlocked by assumption. simpl.
        unfold lockInv in *. rewrite Hl in Hinv. simpl. rewrite Hinv. eauto.
    + unfold_universal. destruct (unlockOrder env _); simpl; assumption.
    + unfold forget. unfold_universal. simpl. assumption.
    + unfold forget. unfold_universal. simpl.
      destruct (unlockOrder env _); simpl; assumption.
    + assumption.
  - destruct (inFlight (fields w) !! i) as [x|] eqn:Hx.
    2:{ unfold tryProcess_resume. unfold_universal. rewrite Hx. assumption. }
    destruct (processOrder env x w) as [r w1] eqn:E.
    destruct (processOrder_frame env x w) as [m Hm]. rewrite E in Hm. simpl in Hm.
    assert (inFlight (fields w) = [x] ∧ i = 0) as [Hinf ->].
    { unfold lockInv in Hinv. destruct (isLocked (fields w)).
      - destruct Hinv as [y Hy]. rewrite Hy in Hx.
        destruct i; simpl in Hx; [|destruct i; discriminate]. 
        split; congruence.
      - rewrite Hinv in Hx. discriminate. }
    rewrite (tryProcess_resume_eq env 0 w x Hx). rewrite E. simpl.
    set (w2 := MkWorld _ _).
    destruct (pickNextOrder_frame w2) as (o & pq & q & m' & Hpick). rewrite Hpick.
    subst w2. destruct o as [next|]; simpl.
    + unfold lockInv. simpl. rewrite Hm. simpl. rewrite Hinf. simpl. eauto.
    + unfold lockInv. simpl. rewrite Hm. simpl. rewrite Hinf. reflexivity.
Qed.

Lemma set_delete_notin a (l : list string) : a ∉ l → JS.set_delete a l = l.
Proof.
  unfold JS.set_delete. induction l as [|b l IH]; intros H; [reflexivity|].
  apply not_elem_of_cons in H as [Hab Hl].
  rewrite filter_cons_True by congruence. f_equal. auto.
Qed.

Lemma set_delete_head a (l : list string) :
  NoDup (a :: l) → JS.set_delete a (a :: l) = l.
Proof.
  intros H. apply NoDup_cons in H as [Hn _].
  unfold JS.set_delete. rewrite filter_cons_False by (intros ?; congruence).
  apply set_delete_notin; assumption.
Qed.

Lemma elem_of_set_delete a b (l : list string) :
  b ∈ JS.set_delete a l ↔ b ∈ l ∧ b ≠ a.
Proof. unfold JS.set_delete. rewrite list_elem_of_filter. tauto. Qed.

Lemma NoDup_set_delete a (l : list string) : NoDup l → NoDup (JS.set_delete a l).
Proof. apply NoDup_filter. Qed.

Lemma NoDup_set_add a (l : list string) : NoDup l → NoDup (JS.set_add a l).
Proof.
  intros H. unfold JS.set_add. destruct (decide (a ∈ l)); [assumption|].
  apply NoDup_app. split; [assumption|]. split.
  - intros x Hx Hx'. apply list_elem_of_singleton in Hx'. congruence.
  - apply NoDup_singleton.
Qed.

Lemma elem_of_set_add a b (l : list string) :
  b ∈ JS.set_add a l ↔ b ∈ l ∨ b = a.
Proof.
  unfold JS.set_add. destruct (decide (a ∈ l)).
  - split; [tauto|]. intros [?| ->]; assumption.
  - rewrite elem_of_app, list_elem_of_singleton. tauto.
Qed.

Lemma filter_notin_nil (l : list string) : filter (λ id, id ∉ []) l = l.
Proof.
  induction l as [|a l IH]; [reflexivity|].
  rewrite filter_cons_True by apply not_elem_of_nil. f_equal; assumption.
Qed.

Lemma filter_notin_cons a (pq q : list string) :
  filter (λ id, id ∉ pq) (JS.set_delete a q) = filter (λ id, id ∉ a :: pq) q.
Proof.
  unfold JS.set_delete. rewrite list_filter_filter.
  apply list_filter_iff. intros x. rewrite not_elem_of_cons. tauto.
Qed.

Lemma NoDup_pending s : wf s → NoDup (pending s).
Proof.
  intros (Hp & Hq & _). unfold pending. apply NoDup_app.
  split; [assumption|]. split.
  - intros x Hx Hx'. apply list_elem_of_filter in Hx' as [Hn _]. contradiction.
  - apply NoDup_filter; assumption.
Qed.

Lemma pick_step w :
  wf (fields w) →
  match pending (fields w) with
  | [] => pickNextOrder w = (Ok None, w)
  | id :: rest =>
      ∃ p s',
        incomingOrdersMap (fields w) !! id = Some p
        ∧ orderId (orderInfo p) = id
        ∧ pickNextOrder w = (Ok (Some p), MkWorld s' (calls w))
        ∧ pending s' = rest
        ∧ incomingOrdersMap s' = delete id (incomingOrdersMap (fields w))
        ∧ isLocked s' = isLocked (fields w)
        ∧ inFlight s' = inFlight (fields w)
        ∧ processed s' = processed (fields w)
        ∧ wf s'
  end.
Proof.
  destruct w as [[pq q m l ps mp inf pr] cs]. unfold wf, pending. simpl.
  intros (Hp & Hq & Hids).
  destruct pq as [|a pq]; simpl.
  - rewrite filter_notin_nil. destruct q as [|b q]; [reflexivity|].
    destruct (Hids b) as (Hb & p & Hmp & Hpid); [right; left|].
    apply truthy_spec in Hb.
    exists p. eexists. split; [exact Hmp|]. split; [exact Hpid|].
    split.
    { unfold pickNextOrder. unfold_universal. simpl. rewrite Hb. simpl.
      rewrite Hmp. reflexivity. }
    simpl. rewrite set_delete_head by assumption.
    rewrite filter_notin_nil.
    repeat split; try reflexivity.
    + apply NoDup_nil_2.
    + eapply NoDup_cons_1_2; eassumption.
    + apply (Hids id). destruct H as [H|H]; [inversion H|]. right; right; assumption.
    + destruct H as [H|H]; [inversion H|].
      destruct (Hids id) as (_ & p' & Hp' & Hid'); [right; right; assumption|].
      exists p'. split; [|assumption].
      rewrite lookup_delete_ne; [assumption|].
      intros ->. apply NoDup_cons_1_1 in Hq. contradiction.
  - destruct (Hids a) as (Ha & p & Hmp & Hpid); [left; left|].
    apply truthy_spec in Ha.
    exists p. eexists. split; [exact Hmp|]. split; [exact Hpid|].
    split.
    { unfold pickNextOrder. unfold_universal. simpl. rewrite Ha. simpl.
      rewrite Ha. simpl. rewrite Hmp. reflexivity. }
    simpl. rewrite set_delete_head by assumption.
    rewrite filter_notin_cons.
    repeat split; try reflexivity.
    + eapply NoDup_cons_1_2; eassumption.
    + apply NoDup_set_delete; assumption.
    + apply (Hids id). destruct H as [H|H].
      * left; right; assumption.
      * apply elem_of_set_delete in H as [H _]. right; assumption.
    + assert (id ≠ a) as Hne.
      { destruct H as [H|H].
        - intros ->. apply NoDup_cons_1_1 in Hp. contradiction.
        - apply elem_of_set_delete in H as [_ H]. assumption. }
      destruct (Hids id) as (_ & p' & Hp' & Hid').
      { destruct H as [H|H]; [left; right; assumption|].
        apply elem_of_set_delete in H as [H _]. right; assumption. }
      exists p'. split; [|assumption].
      rewrite lookup_delete_ne; [assumption|congruence].
Qed.

Lemma settle_step env w x :
  wf (fields w) →
  inFlight (fields w) = [x] →
  let w' := step w (Settles env 0) in
  match pending (fields w) with
  | [] =>
      isLocked (fields w') = false ∧ inFlight (fields w') = []
      ∧ processed (fields w') = processed (fields w)
      ∧ pending (fields w') = [] ∧ wf (fields w')
  | id :: rest =>
      ∃ p, incomingOrdersMap (fields w) !! id = Some p
           ∧ orderId (orderInfo p) = id
           ∧ isLocked (fields w') = true ∧ inFlight (fields w') = [p]
           ∧ processed (fields w') = processed (fields w) ++ [p]
           ∧ pending (fields w') = rest
           ∧ incomingOrdersMap (fields w')
             = delete id (incomingOrdersMap (fields w))
           ∧ wf (fields w')
  end.
Proof.
  intros Hwf Hinf. simpl.
  rewrite (tryProcess_resume_eq env 0 w x) by (rewrite Hinf; reflexivity).
  destruct (processOrder_frame env x w) as [m Hm].
  destruct (processOrder env x w) as [r [s1 c1]]. simpl in *. subst s1.
  destruct w as [[pq q mp l ps mem inf pr] cs]. simpl in *. subst inf.
  set (w2 := MkWorld _ c1).
  pose proof (pick_step w2 Hwf) as Hpick.
  change (pending (fields w2)) with
    (pending {| priorityQueue := pq; queue := q; incomingOrdersMap := mp;
                isLocked := l; params := ps; mempoolService := mem;
                inFlight := [x]; processed := pr |}) in Hpick.
  destruct (pending _) as [|id rest] eqn:Hpend.
  - rewrite Hpick. simpl.
    split; [reflexivity|]. split; [reflexivity|]. split; [reflexivity|].
    split; [exact Hpend|exact Hwf].
  - destruct Hpick as (p & s' & Hmp & Hpid & Hpick & Hrest & Hmap & Hl & Hi & Hpr & Hwf').
    rewrite Hpick. simpl. exists p.
    rewrite tryProcess_unlocked by (simpl; rewrite Hl; reflexivity). simpl.
    rewrite Hi, Hpr. simpl.
    destruct s' as [pq' q' mp' l' ps' mem' inf' pr'].
    split; [exact Hmp|]. split; [exact Hpid|].
    split; [reflexivity|]. split; [reflexivity|]. split; [reflexivity|].
    split; [exact Hrest|]. split; [exact Hmap|exact Hwf'].
Qed.

Lemma wf_forget id w : wf (fields w) → wf (fields (snd (forget id w))).
Proof.
  destruct w as [[pq q mp l ps mem inf pr] cs]. unfold wf. simpl.
  intros (Hp & Hq & Hids). split; [|split].
  - apply NoDup_set_delete; assumption.
  - apply NoDup_set_delete; assumption.
  - intros id' H.
    assert ((id' ∈ pq ∨ id' ∈ q) ∧ id' ≠ id) as [Hin Hne].
    { destruct H as [H|H]; apply elem_of_set_delete in H as [H ?]; auto. }
    destruct (Hids id' Hin) as (Hn & p & Hp' & Hid). split; [assumption|].
    exists p. split; [|assumption]. rewrite lookup_delete_ne; [assumption|congruence].
Qed.

Lemma wf_step w e :
  wf (fields w) → lockInv (fields w) → event_ok e → wf (fields (step w e)).
Proof.
  intros Hwf Hinv Hok. destruct e as [env p | env i]; simpl in *.
  - unfold process.
    assert (isCreation (status (orderInfo p)) → wf (fields (snd (tryProcess p w)))) as Htry.
    { intros Hc. destruct (isLocked (fields w)) eqn:Hl.
      - rewrite tryProcess_locked by assumption. simpl.
        destruct w as [[pq q mp l ps mem inf pr] cs]. unfold wf in *. simpl in *.
        destruct Hwf as (Hp & Hq & Hids).
        assert (∀ id', id' ∈ JS.set_add (orderId (orderInfo p)) pq ∨ id' ∈ q
                       ∨ id' ∈ pq ∨ id' ∈ JS.set_add (orderId (orderInfo p)) q →
                  id' ≠ "" ∧ ∃ p', <[orderId (orderInfo p) := p]> mp !! id' = Some p'
                                   ∧ orderId (orderInfo p') = id') as Hnew.
        { intros id' H. destruct (decide (id' = orderId (orderInfo p))) as [->|Hne].
          - split; [assumption|]. exists p. rewrite lookup_insert_eq. auto.
          - rewrite lookup_insert_ne by congruence. apply Hids.
            rewrite !elem_of_set_add in H. tauto. }
        destruct Hc as [Hc|Hc]; rewrite Hc; simpl; (split; [|split]);
          auto using NoDup_set_add; intros id' H; apply Hnew; tauto.
      - rewrite tryProcess_unlocked by assumption. simpl.
        destruct w as [[pq q mp l ps mem inf pr] cs]. exact Hwf. }
    destruct (status (orderInfo p)) eqn:Hst.
    + apply Htry. left; reflexivity.
    + apply Htry. right; reflexivity.
    + unfold_universal. destruct (unlockOrder env _); exact Hwf.
    + apply wf_forget; assumption.
    + pose proof (wf_forget (orderId (orderInfo p)) w Hwf) as H.
      unfold bind. destruct (forget _ w) as [[] w']; [|exact H].
      unfold await. destruct (unlockOrder env _); exact H.
    + exact Hwf.
  - destruct (inFlight (fields w) !! i) as [x|] eqn:Hx.
    2:{ unfold tryProcess_resume. unfold_universal. rewrite Hx. assumption. }
    assert (inFlight (fields w) = [x] ∧ i = 0) as [Hinf ->].
    { unfold lockInv in Hinv. destruct (isLocked (fields w)).
      - destruct Hinv as [y Hy]. rewrite Hy in Hx.
        destruct i; simpl in Hx; [|destruct i; discriminate].
        split; congruence.
      - rewrite Hinv in Hx. discriminate. }
    pose proof (settle_step env w x Hwf Hinf) as H. simpl in H.
    destruct (pending (fields w)).
    + apply H.
    + destruct H as (p & H). apply H.
Qed.

Lemma idle_settles envs w :
  inFlight (fields w) = [] → run w (settles envs) = w.
Proof.
  intros H. induction envs as [|env envs IH]; [reflexivity|].
  simpl. unfold run in IH. 
  assert (snd (tryProcess_resume env 0 w) = w) as ->; [|exact IH].
  unfold tryProcess_resume. unfold_universal. rewrite H. reflexivity.
Qed.

Lemma omap_agree {A B} (f g : A → option B) (l : list A) :
  (∀ y, y ∈ l → f y = g y) → omap f l = omap g l.
Proof.
  induction l as [|a l IH]; intros H; [reflexivity|].
  assert (omap f l = omap g l) as IH'.
  { apply IH. intros y Hy. apply H. right; assumption. }
  cbn. rewrite (H a) by left. destruct (g a); cbn; rewrite IH'; reflexivity.
Qed.

Lemma drain envs : ∀ w x,
  wf (fields w) → inFlight (fields w) = [x] →
  processed (fields (run w (settles envs)))
  = processed (fields w)
    ++ omap (λ id, incomingOrdersMap (fields w) !! id)
            (firstn (length envs) (pending (fields w))).
Proof.
  induction envs as [|env envs IH]; intros w x Hwf Hinf.
  - simpl. rewrite app_nil_r. reflexivity.
  - change (run w (settles (env :: envs)))
      with (run (step w (Settles env 0)) (settles envs)).
    pose proof (settle_step env w x Hwf Hinf) as Hstep.
    pose proof (NoDup_pending _ Hwf) as Hnd.
    cbv zeta in Hstep.
    destruct (pending (fields w)) as [|id rest].
    + destruct Hstep as (_ & Hi & Hp & _).
      rewrite idle_settles by assumption. rewrite Hp. simpl.
      rewrite app_nil_r. reflexivity.
    + destruct Hstep as (p & Hmp & _ & _ & Hi & Hp & Hrest & Hmap & Hwf').
      rewrite (IH _ p Hwf' Hi). rewrite Hp, Hrest, Hmap.
      simpl. rewrite Hmp. rewrite <- app_assoc. simpl. do 2 f_equal.
      apply omap_agree. intros y Hy. apply lookup_delete_ne.
      apply NoDup_cons_1_1 in Hnd. intros ->. apply Hnd.
      eapply subseteq_take; eassumption.
Qed.

Lemma settle_absent env i w :
  inFlight (fields w) !! i = None → step w (Settles env i) = w.
Proof.
  intros Hx. simpl. unfold tryProcess_resume. unfold_universal.
  rewrite Hx. reflexivity.
Qed.

Lemma settle_outcome env i w x :
  lockInv (fields w) → inFlight (fields w) !! i = Some x →
  let w' := step w (Settles env i) in
  (isLocked (fields w') = false ∧ inFlight (fields w') = []
   ∧ processed (fields w') = processed (fields w))
  ∨ (∃ next, isLocked (fields w') = true ∧ inFlight (fields w') = [next]
             ∧ processed (fields w') = processed (fields w) ++ [next]).
Proof.
  intros Hinv Hx. simpl.
  assert (inFlight (fields w) = [x] ∧ i = 0) as [Hinf ->].
  { unfold lockInv in Hinv. destruct (isLocked (fields w)).
    - destruct Hinv as [y Hy]. rewrite Hy in Hx.
      destruct i; simpl in Hx; [|destruct i; discriminate].
      split; congruence.
    - rewrite Hinv in Hx. discriminate. }
  rewrite (tryProcess_resume_eq env 0 w x Hx).
  destruct (processOrder_frame env x w) as [m Hm].
  destruct (processOrder env x w) as [r w1]. simpl in *.
  set (w2 := MkWorld _ _).
  destruct (pickNextOrder_frame w2) as (o & pq & q & m' & Hpick). rewrite Hpick.
  subst w2. destruct o as [next|]; simpl.
  - right. exists next. rewrite Hm. simpl. rewrite Hinf. auto.
  - left. rewrite Hm. simpl. rewrite Hinf. auto.
Qed.

Lemma lockInv_run es : ∀ w, lockInv (fields w) → lockInv (fields (run w es)).
Proof.
  induction es as [|e es IH]; intros w H; [exact H|].
  apply (IH (step w e)). apply lockInv_step. exact H.
Qed.

Lemma constructor_idle arg s0 :
  constructor arg = Ok s0 →
  isLocked s0 = false ∧ inFlight s0 = [] ∧ priorityQueue s0 = []
  ∧ queue s0 = [] ∧ processed s0 = [].
Proof.
  unfold constructor. destruct (match _ with Some _ => _ | None => _ end);
    [discriminate|].
  intros [= <-]. repeat split.
Qed.

(** C1. At most one order is under active processing at any time. In every
    state that the processor reaches from its construction, at most one
    invocation of [processOrder] is in flight, and one is in flight exactly
    when [isLocked] is set. While the lock is held, an arriving [Created] or
    [ArchivalCreated] event is only put into a queue and into
    [incomingOrdersMap]: no invocation begins. While the lock is free,
    [tryProcess] sets it and begins the invocation. When an invocation
    settles it leaves, and either the lock is free and nothing is in flight,
    or the lock is held for the one order picked next, whose invocation has
    begun. *)
Theorem serial_processing arg s0 es :
  constructor arg = Ok s0 →
  let w := run (boot s0) es in
  length (inFlight (fields w)) ≤ 1
  ∧ (isLocked (fields w) = true ↔ inFlight (fields w) ≠ [])
  ∧ (∀ env p, isLocked (fields w) = true →
       isCreation (status (orderInfo p)) →
       let w' := step w (Arrives env p) in
       let id := orderId (orderInfo p) in
       inFlight (fields w') = inFlight (fields w)
       ∧ processed (fields w') = processed (fields w)
       ∧ isLocked (fields w') = true
       ∧ (id ∈ priorityQueue (fields w') ∨ id ∈ queue (fields w'))
       ∧ incomingOrdersMap (fields w') !! id = Some p)
  ∧ (∀ env p, isLocked (fields w) = false →
       isCreation (status (orderInfo p)) →
       let w' := step w (Arrives env p) in
       isLocked (fields w') = true ∧ inFlight (fields w') = [p]
       ∧ processed (fields w') = processed (fields w) ++ [p])
  ∧ (∀ env i, let w' := step w (Settles env i) in
       (inFlight (fields w) !! i = None → w' = w)
       ∧ (∀ x, inFlight (fields w) !! i = Some x →
            (isLocked (fields w') = false ∧ inFlight (fields w') = []
             ∧ processed (fields w') = processed (fields w))
            ∨ (∃ next, isLocked (fields w') = true
                       ∧ inFlight (fields w') = [next]
                       ∧ processed (fields w')
                         = processed (fields w) ++ [next]))).
Proof.
  intros Hc w.
  assert (lockInv (fields w)) as Hinv.
  { apply lockInv_run. apply constructor_idle in Hc as (Hl & Hi & _).
    unfold lockInv. simpl. rewrite Hl. exact Hi. }
  split; [|split; [|split; [|split]]].
  - unfold lockInv in Hinv. destruct (isLocked (fields w)).
    + destruct Hinv as [p ->]. simpl. lia.
    + rewrite Hinv. simpl. lia.
  - unfold lockInv in Hinv. destruct (isLocked (fields w)).
    + destruct Hinv as [p ->]. split; [discriminate|reflexivity].
    + rewrite Hinv. split; [discriminate|congruence].
  - intros env p Hl Hcr. simpl.
    assert (process env p w = tryProcess p w) as ->.
    { unfold process. destruct Hcr as [-> | ->]; reflexivity. }
    rewrite tryProcess_locked by assumption. simpl.
    destruct Hcr as [Hcr|Hcr]; rewrite Hcr; simpl;
      (split; [reflexivity|]); (split; [reflexivity|]); (split; [exact Hl|]);
      (split; [|apply lookup_insert_eq]).
    + left. apply elem_of_set_add. right; reflexivity.
    + right. apply elem_of_set_add. right; reflexivity.
  - intros env p Hl Hcr. simpl.
    assert (process env p w = tryProcess p w) as ->.
    { unfold process. destruct Hcr as [-> | ->]; reflexivity. }
    rewrite tryProcess_unlocked by assumption. simpl.
    unfold lockInv in Hinv. rewrite Hl in Hinv. rewrite Hinv. repeat split.
  - intros env i. cbv zeta. split.
    + apply settle_absent.
    + intros x Hx. apply (settle_outcome env i w x Hinv Hx).
Qed.

(** C2. [pickNextOrder] takes the orderId at the head of the primary queue
    when that queue is not empty, and the head of the secondary queue only
    otherwise; it removes the orderId from both queues. A busy processor
    with empty queues that receives C1, A1, C2, A2 (four distinct orders; C
    is [Created], A is [ArchivalCreated]) then processes, settlement after
    settlement, C1, C2, A1, A2. OrderIds are content hashes, so they are not
    the empty string, which JavaScript takes for false. *)
Theorem priority_ordering :
  (∀ w id rest,
     priorityQueue (fields w) = id :: rest → id ≠ "" →
     fst (pickNextOrder w) = Ok (incomingOrdersMap (fields w) !! id)
     ∧ (id ∉ priorityQueue (fields (snd (pickNextOrder w))))
     ∧ (id ∉ queue (fields (snd (pickNextOrder w)))))
  ∧ (∀ w id rest,
       priorityQueue (fields w) = [] → queue (fields w) = id :: rest →
       id ≠ "" →
       fst (pickNextOrder w) = Ok (incomingOrdersMap (fields w) !! id)
       ∧ (id ∉ queue (fields (snd (pickNextOrder w)))))
  ∧ (∀ w x env1 env2 env3 env4 c1 a1 c2 a2 envs,
       isLocked (fields w) = true → inFlight (fields w) = [x] →
       priorityQueue (fields w) = [] → queue (fields w) = [] →
       status (orderInfo c1) = OrderInfoStatus.Created →
       status (orderInfo a1) = OrderInfoStatus.ArchivalCreated →
       status (orderInfo c2) = OrderInfoStatus.Created →
       status (orderInfo a2) = OrderInfoStatus.ArchivalCreated →
       NoDup [orderId (orderInfo c1); orderId (orderInfo a1);
              orderId (orderInfo c2); orderId (orderInfo a2)] →
       Forall (λ p, orderId (orderInfo p) ≠ "") [c1; a1; c2; a2] →
       processed
         (fields (run w ([Arrives env1 c1; Arrives env2 a1; Arrives env3 c2;
                          Arrives env4 a2] ++ settles envs)))
       = processed (fields w) ++ firstn (length envs) [c1; c2; a1; a2]).
Proof.
  split; [|split].
  - intros w id rest Hpq Hid. apply truthy_spec in Hid.
    unfold pickNextOrder. unfold_universal. rewrite Hpq. simpl.
    rewrite Hid. simpl. rewrite Hid. simpl.
    split; [reflexivity|].
    split; intros H; apply elem_of_set_delete in H as [_ H]; congruence.
  - intros w id rest Hpq Hq Hid. apply truthy_spec in Hid.
    unfold pickNextOrder. unfold_universal. rewrite Hpq, Hq. simpl.
    rewrite Hid. simpl.
    split; [reflexivity|].
    intros H; apply elem_of_set_delete in H as [_ H]; congruence.
  - intros w x env1 env2 env3 env4 c1 a1 c2 a2 envs Hl Hi Hpq Hq
      Hc1 Ha1 Hc2 Ha2 Hnd Hne.
    assert (orderId (orderInfo c1) ≠ orderId (orderInfo a1)
            ∧ orderId (orderInfo c1) ≠ orderId (orderInfo c2)
            ∧ orderId (orderInfo c1) ≠ orderId (orderInfo a2)
            ∧ orderId (orderInfo a1) ≠ orderId (orderInfo c2)
            ∧ orderId (orderInfo a1) ≠ orderId (orderInfo a2)
            ∧ orderId (orderInfo c2) ≠ orderId (orderInfo a2))
      as (D1 & D2 & D3 & D4 & D5 & D6).
    { apply NoDup_cons in Hnd as [N1 Hnd]. apply NoDup_cons in Hnd as [N2 Hnd].
      apply NoDup_cons in Hnd as [N3 _].
      clear -N1 N2 N3. set_solver. }
    unfold run. rewrite fold_left_app. fold (run (fold_left step
      [Arrives env1 c1; Arrives env2 a1; Arrives env3 c2; Arrives env4 a2] w)
      (settles envs)).
    set (w4 := fold_left step _ w).
    assert (wf (fields w)) as Hwf0.
    { unfold wf. rewrite Hpq, Hq. repeat split; try apply NoDup_nil_2.
      all: destruct H as [H|H]; inversion H. }
    assert (lockInv (fields w)) as Hinv0.
    { unfold lockInv. rewrite Hl. eauto. }
    inversion Hne as [|? ? Hn1 Hne1]; subst.
    inversion Hne1 as [|? ? Hn2 Hne2]; subst.
    inversion Hne2 as [|? ? Hn3 Hne3]; subst.
    inversion Hne3 as [|? ? Hn4 _]; subst.
    assert (wf (fields w4)) as Hwf4.
    { subst w4. cbn [fold_left].
      apply (wf_step _ (Arrives env4 a2)); [| |exact Hn4].
      - apply (wf_step _ (Arrives env3 c2)); [| |exact Hn3].
        + apply (wf_step _ (Arrives env2 a1)); [| |exact Hn2].
          * apply (wf_step _ (Arrives env1 c1)); [exact Hwf0|exact Hinv0|exact Hn1].
          * apply lockInv_step; exact Hinv0.
        + do 2 apply lockInv_step; exact Hinv0.
      - do 3 apply lockInv_step; exact Hinv0. }
    assert (fields w4
            = set_incomingOrdersMap
                (<[orderId (orderInfo a2) := a2]>
                   (<[orderId (orderInfo c2) := c2]>
                      (<[orderId (orderInfo a1) := a1]>
                         (<[orderId (orderInfo c1) := c1]>
                            (incomingOrdersMap (fields w))))))
                (set_queue [orderId (orderInfo a1); orderId (orderInfo a2)]
                   (set_priorityQueue
                      [orderId (orderInfo c1); orderId (orderInfo c2)]
                      (fields w)))) as Hw4.
    { subst w4. simpl. unfold process. rewrite Hc1, Ha1, Hc2, Ha2.
      unfold tryProcess. unfold_universal. rewrite Hl. rewrite Hc1. simpl.
      rewrite Hl. rewrite Ha1. simpl. rewrite Hl. rewrite Hc2. simpl.
      rewrite Hl. rewrite Ha2. simpl. rewrite Hpq, Hq.
      unfold JS.set_add. simpl.
      rewrite (decide_False (P := orderId (orderInfo c2) ∈ [orderId (orderInfo c1)])).
      2:{ rewrite list_elem_of_singleton. congruence. }
      rewrite (decide_False (P := orderId (orderInfo a2) ∈ [orderId (orderInfo a1)])).
      2:{ rewrite list_elem_of_singleton. congruence. }
      destruct (fields w); reflexivity. }
    rewrite (drain envs w4 x Hwf4).
    2:{ rewrite Hw4. simpl. exact Hi. }
    rewrite Hw4. simpl. f_equal.
    assert (pending (set_incomingOrdersMap
                (<[orderId (orderInfo a2) := a2]>
                   (<[orderId (orderInfo c2) := c2]>
                      (<[orderId (orderInfo a1) := a1]>
                         (<[orderId (orderInfo c1) := c1]>
                            (incomingOrdersMap (fields w))))))
                (set_queue [orderId (orderInfo a1); orderId (orderInfo a2)]
                   (set_priorityQueue
                      [orderId (orderInfo c1); orderId (orderInfo c2)]
                      (fields w))))
            = [orderId (orderInfo c1); orderId (orderInfo c2);
               orderId (orderInfo a1); orderId (orderInfo a2)]) as ->.
    { unfold pending. simpl.
      rewrite filter_cons_True.
      2:{ rewrite !not_elem_of_cons. repeat split; try apply not_elem_of_nil; intuition congruence. }
      rewrite filter_cons_True.
      2:{ rewrite !not_elem_of_cons. repeat split; try apply not_elem_of_nil; intuition congruence. }
      reflexivity. }
    destruct envs as [|e1 [|e2 [|e3 [|e4 envs]]]]; simpl;
      repeat first
        [ rewrite lookup_insert_eq
        | rewrite lookup_insert_ne by intuition congruence ];
      rewrite ?take_nil; reflexivity.
Qed.

Lemma count_NoDup_le (id : string) (l : list string) :
  NoDup l → length (filter (λ y, y = id) l) ≤ 1.
Proof.
  induction l as [|a l IH]; intros H; [simpl; lia|].
  apply NoDup_cons in H as [Ha Hl].
  destruct (decide (a = id)) as [->|Hne].
  - rewrite filter_cons_True by reflexivity. simpl.
    assert (filter (λ y, y = id) l = []) as ->; [|simpl; lia].
    clear -Ha. induction l as [|b l IH]; [reflexivity|].
    apply not_elem_of_cons in Ha as [Hb Hl].
    rewrite filter_cons_False by congruence. auto.
  - rewrite filter_cons_False by assumption. auto.
Qed.

Lemma count_NoDup_in (id : string) (l : list string) :
  NoDup l → id ∈ l → length (filter (λ y, y = id) l) = 1.
Proof.
  intros Hnd Hin. pose proof (count_NoDup_le id l Hnd).
  assert (id ∈ filter (λ y, y = id) l) as H1.
  { apply list_elem_of_filter. auto. }
  destruct (filter (λ y, y = id) l); [inversion H1|]. simpl in *. lia.
Qed.

Lemma attemptsFor_ids id (l : list IncomingOrderContext) :
  attemptsFor id l
  = length (filter (λ y, y = id) ((λ p, orderId (orderInfo p)) <$> l)).
Proof.
  unfold attemptsFor. induction l as [|a l IH]; [reflexivity|].
  rewrite fmap_cons. destruct (decide (orderId (orderInfo a) = id)).
  - rewrite !filter_cons_True by assumption. simpl. rewrite IH. reflexivity.
  - rewrite !filter_cons_False by assumption. exact IH.
Qed.

Lemma ids_of_queued s (l : list string) :
  wf s →
  (∀ y, y ∈ l → y ∈ priorityQueue s ∨ y ∈ queue s) →
  (λ p, orderId (orderInfo p)) <$> omap (λ id, incomingOrdersMap s !! id) l = l.
Proof.
  intros (_ & _ & Hids). induction l as [|a l IH]; intros H; [reflexivity|].
  destruct (Hids a) as (_ & p & Hp & Hid); [apply H; left|].
  cbn. rewrite Hp. cbn. rewrite Hid. f_equal. apply IH.
  intros y Hy. apply H. right; assumption.
Qed.

Lemma elem_of_pending s y :
  y ∈ pending s ↔ y ∈ priorityQueue s ∨ y ∈ queue s.
Proof.
  unfold pending. rewrite elem_of_app, list_elem_of_filter.
  destruct (decide (y ∈ priorityQueue s)); tauto.
Qed.

(** C8, in the form that the code satisfies. While the processor is busy,
    let the same orderId arrive twice, each time as [Created] or
    [ArchivalCreated]. If both arrivals have the same status, the second
    leaves both queues as they were. If they differ in status, the orderId
    is held in the primary and in the secondary queue. In any case each queue
    holds the orderId at most once, at least one holds it, and
    [incomingOrdersMap] holds the context of the second arrival. As
    [pickNextOrder] removes a picked
    orderId from both queues, the settlements that follow begin at most one
    invocation of [processOrder] for the orderId, and exactly one once the
    queues are drained. *)
Theorem reenqueue_while_busy w x env1 env2 p1 p2 :
  wf (fields w) → inFlight (fields w) = [x] → isLocked (fields w) = true →
  orderId (orderInfo p1) = orderId (orderInfo p2) →
  orderId (orderInfo p1) ≠ "" →
  isCreation (status (orderInfo p1)) → isCreation (status (orderInfo p2)) →
  let id := orderId (orderInfo p1) in
  let w1 := step w (Arrives env1 p1) in
  let w2 := step w1 (Arrives env2 p2) in
  (status (orderInfo p1) = status (orderInfo p2) →
     priorityQueue (fields w2) = priorityQueue (fields w1)
     ∧ queue (fields w2) = queue (fields w1))
  ∧ (status (orderInfo p1) ≠ status (orderInfo p2) →
     id ∈ priorityQueue (fields w2) ∧ id ∈ queue (fields w2))
  ∧ NoDup (priorityQueue (fields w2)) ∧ NoDup (queue (fields w2))
  ∧ (id ∈ priorityQueue (fields w2) ∨ id ∈ queue (fields w2))
  ∧ incomingOrdersMap (fields w2) !! id = Some p2
  ∧ ∀ envs, ∃ new,
      processed (fields (run w2 (settles envs))) = processed (fields w) ++ new
      ∧ attemptsFor id new ≤ 1
      ∧ (length (pending (fields w2)) ≤ length envs → attemptsFor id new = 1).
Proof.
  intros Hwf Hinf Hl Hsame Hne Hc1 Hc2 id w1 w2.
  assert (lockInv (fields w)) as Hinv.
  { unfold lockInv. rewrite Hl. eauto. }
  assert (wf (fields w1)) as Hwf1 by (apply wf_step; assumption).
  assert (lockInv (fields w1)) as Hinv1 by (apply lockInv_step; assumption).
  assert (wf (fields w2)) as Hwf2.
  { apply wf_step; [assumption|assumption|]. simpl. congruence. }
  assert (step w (Arrives env1 p1) = snd (tryProcess p1 w)) as E1.
  { simpl. unfold process. destruct Hc1 as [-> | ->]; reflexivity. }
  assert (step w1 (Arrives env2 p2) = snd (tryProcess p2 w1)) as E2.
  { simpl. unfold process. destruct Hc2 as [-> | ->]; reflexivity. }
  assert (isLocked (fields w1) = true ∧ inFlight (fields w1) = [x]
          ∧ processed (fields w1) = processed (fields w)
          ∧ (id ∈ priorityQueue (fields w1) ∨ id ∈ queue (fields w1))
          ∧ (status (orderInfo p1) = OrderInfoStatus.Created →
             id ∈ priorityQueue (fields w1))
          ∧ (status (orderInfo p1) = OrderInfoStatus.ArchivalCreated →
             id ∈ queue (fields w1)))
    as (Hl1 & Hinf1 & Hpr1 & Hin1 & HinC & HinA).
  { subst w1. rewrite E1. rewrite tryProcess_locked by assumption.
    assert (∀ l, id ∈ JS.set_add id l) as Hadd.
    { intros l. apply elem_of_set_add. right; reflexivity. }
    destruct Hc1 as [Hc1|Hc1]; rewrite Hc1; simpl;
      (split; [assumption|]); (split; [assumption|]); (split; [reflexivity|]).
    - split; [left; apply Hadd|]. split; [intros _; apply Hadd|discriminate].
    - split; [right; apply Hadd|]. split; [discriminate|intros _; apply Hadd]. }
  assert (isLocked (fields w2) = true ∧ inFlight (fields w2) = [x]
          ∧ processed (fields w2) = processed (fields w)
          ∧ (id ∈ priorityQueue (fields w2) ∨ id ∈ queue (fields w2))
          ∧ incomingOrdersMap (fields w2) !! id = Some p2
          ∧ (status (orderInfo p1) = status (orderInfo p2) →
             priorityQueue (fields w2) = priorityQueue (fields w1)
             ∧ queue (fields w2) = queue (fields w1))
          ∧ (status (orderInfo p1) ≠ status (orderInfo p2) →
             id ∈ priorityQueue (fields w2) ∧ id ∈ queue (fields w2)))
    as (Hl2 & Hinf2 & Hpr2 & Hin2 & Hmap2 & Hsameq & Hboth).
  { subst w2. rewrite E2. rewrite tryProcess_locked by assumption.
    unfold id in *. rewrite Hsame in *.
    destruct Hc2 as [Hc2|Hc2]; rewrite Hc2; simpl;
      (split; [assumption|]); (split; [assumption|]); (split; [assumption|]);
      (split; [|split; [apply lookup_insert_eq|split]]).
    - left. apply elem_of_set_add; right; reflexivity.
    - intros E. split; [|reflexivity].
      unfold JS.set_add. rewrite decide_True; [reflexivity|]. apply HinC; assumption.
    - intros Hdiff. split; [apply elem_of_set_add; right; reflexivity|].
      apply HinA. destruct Hc1 as [Hc1|Hc1]; [congruence|exact Hc1].
    - right. apply elem_of_set_add; right; reflexivity.
    - intros E. split; [reflexivity|].
      unfold JS.set_add. rewrite decide_True; [reflexivity|]. apply HinA; assumption.
    - intros Hdiff. split; [|apply elem_of_set_add; right; reflexivity].
      apply HinC. destruct Hc1 as [Hc1|Hc1]; [exact Hc1|congruence]. }
  split; [exact Hsameq|]. split; [exact Hboth|].
  split; [apply Hwf2|]. split; [apply Hwf2|].
  split; [exact Hin2|]. split; [exact Hmap2|].
  intros envs. eexists. split.
  { rewrite (drain envs w2 x Hwf2 Hinf2). rewrite Hpr2. reflexivity. }
  rewrite attemptsFor_ids.
  rewrite (ids_of_queued (fields w2)); [|assumption|].
  2:{ intros y Hy. apply elem_of_pending. eapply subseteq_take; eassumption. }
  pose proof (NoDup_pending _ Hwf2) as Hnd.
  split.
  - apply count_NoDup_le. eapply sublist_NoDup; [eassumption|apply sublist_take].
  - intros Hlen. rewrite firstn_all2 by assumption.
    apply count_NoDup_in; [assumption|]. apply elem_of_pending. exact Hin2.
Qed.

(** The empty string is false for JavaScript: [pickNextOrder] passes over an
    empty orderId at the head of the primary queue and takes the head of the
    secondary queue. The executor delivers no event with an empty orderId. *)
Example empty_orderId_is_passed_over :
  (orderId ∘ orderInfo)
    <$> processed
          (fields
             (run busy
                [Arrives env0 (incoming "" OrderInfoStatus.Created);
                 Arrives env0 (incoming "c" OrderInfoStatus.Created);
                 Arrives env0 (incoming "a" OrderInfoStatus.ArchivalCreated);
                 Settles env0 0; Settles env0 0; Settles env0 0]))
  = ["x"; "a"].
Proof. vm_compute. reflexivity. Qed.

Lemma serial_processing_witness :
  constructor None = Ok idle
  ∧ length (inFlight (fields
       (run (boot idle)
          [Arrives env0 (incoming "x" OrderInfoStatus.Created);
           Arrives env0 (incoming "y" OrderInfoStatus.ArchivalCreated);
           Settles env0 0]))) ≤ 1.
Proof.
  split; [reflexivity|].
  pose proof (serial_processing None idle
                [Arrives env0 (incoming "x" OrderInfoStatus.Created);
                 Arrives env0 (incoming "y" OrderInfoStatus.ArchivalCreated);
                 Settles env0 0] eq_refl) as H.
  cbv zeta in H. exact (proj1 H).
Defined.

Lemma priority_ordering_witness :
  processed
    (fields
       (run busy
          ([Arrives env0 (incoming "c1" OrderInfoStatus.Created);
            Arrives env0 (incoming "a1" OrderInfoStatus.ArchivalCreated);
            Arrives env0 (incoming "c2" OrderInfoStatus.Created);
            Arrives env0 (incoming "a2" OrderInfoStatus.ArchivalCreated)]
           ++ settles [env0; env0; env0; env0; env0])))
  = processed (fields busy)
    ++ [incoming "c1" OrderInfoStatus.Created;
        incoming "c2" OrderInfoStatus.Created;
        incoming "a1" OrderInfoStatus.ArchivalCreated;
        incoming "a2" OrderInfoStatus.ArchivalCreated].
Proof.
  apply (proj2 (proj2 priority_ordering) busy
           (incoming "x" OrderInfoStatus.Created) env0 env0 env0 env0
           (incoming "c1" OrderInfoStatus.Created)
           (incoming "a1" OrderInfoStatus.ArchivalCreated)
           (incoming "c2" OrderInfoStatus.Created)
           (incoming "a2" OrderInfoStatus.ArchivalCreated)
           [env0; env0; env0; env0; env0]);
    try reflexivity.
  - apply (bool_decide_unpack _). vm_compute. exact I.
  - repeat constructor; discriminate.
Defined.

Lemma reenqueue_counterexample : ¬ reenqueue_as_stated.
Proof.
  intros H.
  specialize (H busy env0 env0 (incoming "a" OrderInfoStatus.Created)
                (incoming "a" OrderInfoStatus.ArchivalCreated)
                eq_refl eq_refl (or_introl eq_refl) (or_intror eq_refl)).
  cbv zeta in H. destruct H as (_ & Hq & _). vm_compute in Hq. discriminate.
Qed.

Lemma busy_wf : wf (fields busy).
Proof.
  split; [apply NoDup_nil_2|]. split; [apply NoDup_nil_2|].
  intros id [H|H]; inversion H.
Qed.

Lemma reenqueue_while_busy_witness :
  let w2 := run busy [Arrives env0 (incoming "a" OrderInfoStatus.Created);
                      Arrives env0 (incoming "a" OrderInfoStatus.ArchivalCreated)] in
  ("a" ∈ priorityQueue (fields w2) ∧ "a" ∈ queue (fields w2))
  ∧ ∃ new,
      processed (fields (run w2 (settles [env0; env0; env0])))
      = processed (fields busy) ++ new
      ∧ attemptsFor "a" new ≤ 1
      ∧ (length (pending (fields w2)) ≤ 3 → attemptsFor "a" new = 1).
Proof.
  pose proof (reenqueue_while_busy busy (incoming "x" OrderInfoStatus.Created)
                env0 env0 (incoming "a" OrderInfoStatus.Created)
                (incoming "a" OrderInfoStatus.ArchivalCreated)
                busy_wf eq_refl eq_refl eq_refl ltac:(discriminate)
                (or_introl eq_refl) (or_intror eq_refl)) as H.
  cbv zeta in H. split.
  - apply (proj1 (proj2 H)). discriminate.
  - exact (proj2 (proj2 (proj2 (proj2 (proj2 (proj2 H))))) [env0; env0; env0]).
Defined.

Lemma processOrder_prechecks_witness :
  order (orderInfo (incoming "x" OrderInfoStatus.Created)) = Some order0
  ∧ orderId (orderInfo (incoming "x" OrderInfoStatus.Created)) ≠ ""
  ∧ (fst (processOrder env0 (incoming "x" OrderInfoStatus.Created) (boot idle))
     = Throw (Error msgNoBucket)
     ↔ NoReserveCoverage (incoming "x" OrderInfoStatus.Created) order0).
Proof.
  split; [reflexivity|]. split; [discriminate|].
  pose proof (processOrder_prechecks env0 (incoming "x" OrderInfoStatus.Created)
                order0 (boot idle) eq_refl ltac:(discriminate)) as H.
  cbv zeta in H. exact (proj1 H).
Defined.

Lemma processOrder_soft_failures_witness :
  fst (processOrder envUnprofitable (incoming "x" OrderInfoStatus.Created)
         (boot idle)) = Ok tt
  ∧ mempoolService
      (fields (snd (processOrder envUnprofitable
                      (incoming "x" OrderInfoStatus.Created) (boot idle))))
    !! "x" = Some (deferred (incoming "x" OrderInfoStatus.Created)).
Proof.
  assert (¬ NoReserveCoverage (incoming "x" OrderInfoStatus.Created) order0)
    as Hcov.
  { intros H. destruct (H usdc) as [E|E]; [left|discriminate E|discriminate E]. }
  assert (TakeSideClear envUnprofitable (incoming "x" OrderInfoStatus.Created)
            order0) as Hclear.
  { exists (Some OrderState.NotSet). split; [reflexivity|right; reflexivity]. }
  pose proof (processOrder_soft_failures envUnprofitable
                (incoming "x" OrderInfoStatus.Created) order0
                {| reserveDstToken := [x01]; requiredReserveDstAmount := 5;
                   isProfitable := false; reserveToTakeSlippageBps := None |}
                (boot idle) eq_refl ltac:(discriminate) Hcov Hclear eq_refl
                eq_refl (or_introl eq_refl)) as [H1 H2].
  split; [exact H1|]. rewrite H2. reflexivity.
Defined.

End UniversalFacts.

(** ** StrictProcessor *)

Module StrictFacts.
Import StrictProcessor Fixtures.

Lemma approved_spec s o :
  existsb (λ address, buffersAreEqual (tokenAddress (take o)) address)
          (approvedTokensInBuffer s) = true
  ↔ approved s o.
Proof.
  unfold approved. rewrite existsb_exists. split.
  - intros (a & Hin & Heq). apply bool_decide_eq_true in Heq. subst a.
    apply list_elem_of_In. exact Hin.
  - intros H. exists (tokenAddress (take o)). split.
    + apply list_elem_of_In. exact H.
    + apply bool_decide_eq_true. reflexivity.
Qed.

Lemma sends_app l1 l2 : sends (l1 ++ l2) = sends l1 ++ sends l2.
Proof. unfold sends. apply omap_app. Qed.


(** The waiting loop returns once it sees the fulfilment in time. *)
Lemma waitFulfilled_seen env id chain remaining : ∀ asked state w,
  (state = Some OrderState.Fulfilled
   ∨ ∃ k, k < remaining
          ∧ getTakeOrderStatus env id chain (asked + k)
            = Resolved (Some OrderState.Fulfilled)
          ∧ ∀ j, j < k →
              ∃ st, getTakeOrderStatus env id chain (asked + j) = Resolved st
                    ∧ st ≠ Some OrderState.Fulfilled) →
  fst (waitFulfilled env id chain remaining asked state w) = Ok tt.
Proof.
  induction remaining as [|n IH]; intros asked state w H; simpl.
  - destruct H as [->|(k & Hk & _)]; [reflexivity|lia].
  - destruct (bool_decide (state = Some OrderState.Fulfilled)) eqn:E;
      [reflexivity|].
    apply bool_decide_eq_false in E.
    destruct H as [H|(k & Hk & Hseen & Hbefore)]; [contradiction|].
    unfold_monad. simpl.
    destruct k as [|k].
    + rewrite Nat.add_0_r in Hseen. rewrite Hseen. simpl.
      apply IH. left; reflexivity.
    + destruct (Hbefore 0) as (st & Hst & Hne); [lia|].
      rewrite Nat.add_0_r in Hst. rewrite Hst. simpl.
      apply IH. right. exists k. split; [lia|]. split.
      * rewrite <- Hseen. f_equal. lia.
      * intros j Hj. destruct (Hbefore (S j)) as (st' & Hst' & Hne'); [lia|].
        exists st'. split; [|exact Hne']. rewrite <- Hst'. f_equal. lia.
Qed.


Local Opaque waitFulfilled.







(** On Solana the unlock waits until the order shows as fulfilled: here at
    the third status call. *)
Example strict_solana_waits :
  fst (process strictConfig envFulfilledLater "o2" orderToSolana
         (strictWorld ∅)) = Ok tt
  ∧ calls (snd (process strictConfig envFulfilledLater "o2" orderToSolana
                  (strictWorld ∅)))
    = [ GetPrice Arbitrum evmNativeTokenAddress;
        GetPrice Solana solanaNativeTokenAddress;
        GetTakerFlowCost orderToSolana 1 1;
        GetAmountToSend Solana Arbitrum 1;
        FulfillOrder orderToSolana "o2";
        SendTransaction 11%Z;
        GetTakeOrderStatus "o2" Solana;
        GetTakeOrderStatus "o2" Solana; Sleep 2000;
        GetTakeOrderStatus "o2" Solana; Sleep 2000;
        SendUnlockOrder orderToSolana "beneficiary" 1 None;
        SendTransaction 12%Z ].
Proof. split; vm_compute; reflexivity. Qed.

(** When the order never shows as fulfilled, the loop gives up after the
    first status call and ten more, and nothing is unlocked. *)
Example strict_solana_gives_up :
  fst (process strictConfig env0 "o2" orderToSolana (strictWorld ∅))
  = Throw (Error "Failed to wait for order fulfillment, retries limit reached")
  ∧ sends (calls (snd (process strictConfig env0 "o2" orderToSolana
                         (strictWorld ∅)))) = [11%Z]
  ∧ length (List.filter
              (λ c, match c with GetTakeOrderStatus _ _ => true | _ => false end)
              (calls (snd (process strictConfig env0 "o2" orderToSolana
                             (strictWorld ∅))))) = 11.
Proof. repeat split; vm_compute; reflexivity. Qed.



End StrictFacts.

(** ** Executor *)

Module ExecutorFacts.
Import Executor Fixtures.

Lemma sort_insert_perm {A} (cmp : A → A → Z) x l :
  Permutation (sort_insert cmp x l) (x :: l).
Proof.
  induction l as [|y l IH]; simpl; [reflexivity|].
  destruct (cmp x y <? 0)%Z; [reflexivity|].
  rewrite IH. apply perm_swap.
Qed.

Lemma sort_perm_acc {A} (cmp : A → A → Z) l : ∀ acc,
  Permutation (fold_left (λ sorted x, sort_insert cmp x sorted) l acc) (acc ++ l).
Proof.
  induction l as [|x l IH]; intros acc; simpl.
  - rewrite app_nil_r. reflexivity.
  - rewrite IH. rewrite sort_insert_perm.
    rewrite (Permutation_middle acc l x). reflexivity.
Qed.

Lemma sort_perm {A} (cmp : A → A → Z) l : Permutation (sort cmp l) l.
Proof. unfold sort. rewrite sort_perm_acc. reflexivity. Qed.

Lemma byUsdWorthAsc_lt a b :
  (byUsdWorthAsc a b <? 0)%Z = true
  ↔ (thresholdAmountInUSD a < thresholdAmountInUSD b)%Z.
Proof.
  unfold byUsdWorthAsc.
  destruct (thresholdAmountInUSD a <? thresholdAmountInUSD b)%Z eqn:E; simpl; lia.
Qed.

Lemma sort_insert_sorted x l :
  StronglySorted usd_le l →
  StronglySorted usd_le (sort_insert byUsdWorthAsc x l).
Proof.
  induction 1 as [|y l Hs IH Hall]; simpl.
  - repeat constructor.
  - destruct (byUsdWorthAsc x y <? 0)%Z eqn:E.
    + apply byUsdWorthAsc_lt in E. constructor.
      * constructor; assumption.
      * constructor; [unfold usd_le; lia|].
        eapply Forall_impl; [exact Hall|]. unfold usd_le. simpl. intros; lia.
    + assert (usd_le y x) as Hyx.
      { unfold usd_le. destruct (byUsdWorthAsc_lt x y) as [_ H].
        destruct (Z_lt_ge_dec (thresholdAmountInUSD x) (thresholdAmountInUSD y));
          [rewrite H in E by assumption; discriminate | lia]. }
      constructor; [exact IH|].
      rewrite (sort_insert_perm byUsdWorthAsc x l). constructor; assumption.
Qed.

Lemma sort_sorted l : StronglySorted usd_le (sort byUsdWorthAsc l).
Proof.
  unfold sort.
  assert (∀ acc, StronglySorted usd_le acc →
            StronglySorted usd_le
              (fold_left (λ sorted x, sort_insert byUsdWorthAsc x sorted) l acc))
    as H.
  { induction l as [|x l IH]; intros acc Hacc; simpl; [assumption|].
    apply IH. apply sort_insert_sorted. assumption. }
  apply H. constructor.
Qed.

Lemma forEachThreshold_throws chain l : ∀ prev ranges,
  (∃ e, forEachThreshold chain prev l ranges = Throw e)
  ↔ ∃ i t p, l !! i = Some t ∧ (prev :: l) !! i = Some p
             ∧ ((minBlockConfirmations t ≤ minBlockConfirmations p)%Z
                ∨ (BLOCK_CONFIRMATIONS_HARD_CAPS chain
                   ≤ minBlockConfirmations t)%Z).
Proof.
  induction l as [|t l IH]; intros prev ranges; simpl.
  - split; [intros [e H]; discriminate|].
    intros (i & t & p & H & _). destruct i; discriminate.
  - destruct (minBlockConfirmations t <=? minBlockConfirmations prev)%Z eqn:E1.
    { split; [|eauto]. intros _. exists 0, t, prev. simpl.
      repeat split; try reflexivity. left; lia. }
    destruct (BLOCK_CONFIRMATIONS_HARD_CAPS chain <=? minBlockConfirmations t)%Z
      eqn:E2.
    { split; [|eauto]. intros _. exists 0, t, prev. simpl.
      repeat split; try reflexivity. right; lia. }
    rewrite IH. split.
    + intros (i & t' & p & H1 & H2 & H3). exists (S i), t', p. auto.
    + intros (i & t' & p & H1 & H2 & H3). destruct i as [|i]; simpl in *.
      * injection H1 as <-. injection H2 as <-. lia.
      * exists i, t', p. auto.
Qed.

Lemma forEachThreshold_ok chain l : ∀ prev ranges r,
  forEachThreshold chain prev l ranges = Ok r →
  StronglySorted conf_lt (prev :: l)
  ∧ Forall (λ t, (minBlockConfirmations t
                  < BLOCK_CONFIRMATIONS_HARD_CAPS chain)%Z) l.
Proof.
  induction l as [|t l IH]; intros prev ranges r; simpl.
  - intros _. repeat constructor.
  - destruct (minBlockConfirmations t <=? minBlockConfirmations prev)%Z eqn:E1;
      [discriminate|].
    destruct (BLOCK_CONFIRMATIONS_HARD_CAPS chain <=? minBlockConfirmations t)%Z
      eqn:E2; [discriminate|].
    intros H. apply IH in H as [Hs Hf]. split.
    + constructor; [assumption|]. constructor; [unfold conf_lt; lia|].
      apply StronglySorted_inv in Hs as [_ Hall].
      eapply Forall_impl; [exact Hall|]. unfold conf_lt. simpl. intros; lia.
    + constructor; [lia|assumption].
Qed.

Lemma StronglySorted_both {A} (R1 R2 : A → A → Prop) l :
  StronglySorted R1 l → StronglySorted R2 l →
  StronglySorted (λ a b, R1 a b ∧ R2 a b) l.
Proof.
  induction l as [|a l IH]; intros H1 H2; [constructor|].
  apply StronglySorted_inv in H1 as [H1 F1].
  apply StronglySorted_inv in H2 as [H2 F2].
  constructor; [auto|].
  rewrite Forall_forall in *. auto.
Qed.

Lemma StronglySorted_related {A} (R : A → A → Prop) l x y :
  StronglySorted R l → x ∈ l → y ∈ l → x = y ∨ R x y ∨ R y x.
Proof.
  induction 1 as [|a l Hs IH Hall]; intros Hx Hy; [inversion Hx|].
  rewrite Forall_forall in Hall.
  apply elem_of_cons in Hx as [->|Hx]; apply elem_of_cons in Hy as [->|Hy]; auto.
Qed.

Lemma initChains_throws cfg defs : ∀ chains0 d e,
  d ∈ defs → initChain cfg d = Throw e →
  ∃ e', initChains cfg defs chains0 = Throw e'.
Proof.
  induction defs as [|d0 defs IH]; intros chains0 d e Hin He; [inversion Hin|].
  simpl. destruct (initChain cfg d0) as [sc|e0] eqn:E0; [|eauto].
  apply elem_of_cons in Hin as [->|Hin]; [congruence|].
  eapply IH; eassumption.
Qed.

Lemma init_throws cfg d e :
  d ∈ launch_chains cfg →
  getConfirmationRanges (def_chain d) (def_requiredConfirmationsThresholds d)
  = Throw e →
  ∃ e', init new cfg = Throw e'.
Proof.
  intros Hin He.
  destruct (initChains_throws cfg (launch_chains cfg) (chains new) d e Hin)
    as [e' He'].
  { unfold initChain. rewrite He. reflexivity. }
  exists e'. unfold init. simpl. simpl in He'. rewrite He'. reflexivity.
Qed.

(** C4. [getConfirmationRanges] visits the thresholds in ascending order of
    USD amount. It throws, and with it [init], if and only if some threshold
    in that order has [minBlockConfirmations] not above that of its
    predecessor (0 for the first) or not below the hard cap of the chain.
    When it returns, any two thresholds with [t1.usd < t2.usd] satisfy
    [t1.minBlockConfirmations < t2.minBlockConfirmations < hardCap]. *)
Theorem confirmation_thresholds chain (thresholds : list Threshold) :
  let sorted := sort byUsdWorthAsc thresholds in
  Permutation sorted thresholds
  ∧ StronglySorted usd_le sorted
  ∧ ((∃ i t, violates chain sorted i t)
     ↔ ∃ e, getConfirmationRanges chain (Some thresholds) = Throw e)
  ∧ (∀ ranges, getConfirmationRanges chain (Some thresholds) = Ok ranges →
     ∀ t1 t2, t1 ∈ thresholds → t2 ∈ thresholds →
       (thresholdAmountInUSD t1 < thresholdAmountInUSD t2)%Z →
       (minBlockConfirmations t1 < minBlockConfirmations t2)%Z
       ∧ (minBlockConfirmations t2 < BLOCK_CONFIRMATIONS_HARD_CAPS chain)%Z)
  ∧ (∀ cfg d e,
       d ∈ launch_chains cfg → def_chain d = chain →
       def_requiredConfirmationsThresholds d = Some thresholds →
       getConfirmationRanges chain (Some thresholds) = Throw e →
       ∃ e', init new cfg = Throw e').
Proof.
  intros sorted. split; [apply sort_perm|]. split; [apply sort_sorted|].
  assert (∀ cfg d e,
            d ∈ launch_chains cfg → def_chain d = chain →
            def_requiredConfirmationsThresholds d = Some thresholds →
            getConfirmationRanges chain (Some thresholds) = Throw e →
            ∃ e', init new cfg = Throw e') as Hinit.
  { intros cfg d e Hin Hc Ht He. apply (init_throws cfg d e Hin).
    rewrite Hc, Ht. exact He. }
  refine (conj _ (conj _ Hinit)); clear Hinit;
    unfold getConfirmationRanges; simpl; fold sorted.
  - rewrite forEachThreshold_throws. unfold violates, zeroThreshold.
    split.
    + intros (i & t & H1 & p & H2 & H3). eauto 6.
    + intros (i & t & p & H1 & H2 & H3). eauto 6.
  - intros ranges Hok t1 t2 H1 H2 Hlt.
    apply forEachThreshold_ok in Hok as [Hs Hf].
    apply StronglySorted_inv in Hs as [Hs _].
    pose proof (StronglySorted_both _ _ _ (sort_sorted thresholds) Hs) as Hboth.
    fold sorted in Hboth.
    assert (t1 ∈ sorted) as H1'.
    { eapply elem_of_Permutation_proper; [apply sort_perm|exact H1]. }
    assert (t2 ∈ sorted) as H2'.
    { eapply elem_of_Permutation_proper; [apply sort_perm|exact H2]. }
    split.
    + destruct (StronglySorted_related _ _ _ _ Hboth H1' H2')
        as [-> | [[_ H] | [H _]]]; unfold usd_le, conf_lt in *; lia.
    + rewrite Forall_forall in Hf. apply Hf. exact H2'.
Qed.


Lemma settle_all_accepts (l : list (Call * Answer bool)) :
  (∃ bs, settle_all l = Ok bs ∧ forallb (λ it, it) bs = true)
  ↔ ∀ a, a ∈ (snd <$> l) → a = Resolved true.
Proof.
  induction l as [|[c a] l IH]; simpl.
  - split; [intros _ a H; inversion H|]. intros _. exists []. auto.
  - split.
    + intros (bs & H & Hall). destruct a as [b|]; [|discriminate].
      destruct (settle_all l) as [bs'|]; [|discriminate].
      injection H as <-. simpl in Hall. apply andb_true_iff in Hall as [-> Hall].
      intros a Ha. apply elem_of_cons in Ha as [->|Ha]; [reflexivity|].
      apply IH; eauto.
    + intros H. rewrite (H a) by left.
      destruct IH as [_ IH]. destruct IH as (bs & -> & Hall).
      { intros a' Ha'. apply H. right; assumption. }
      exists (true :: bs). auto.
Qed.


Lemma settle_all_false (l : list (Call * Answer bool)) bs :
  settle_all l = Ok bs → Resolved false ∈ (snd <$> l) →
  forallb (λ it, it) bs = false.
Proof.
  revert bs. induction l as [|[c a] l IH]; simpl; intros bs H Hin;
    [inversion Hin|].
  destruct a as [b|]; [|discriminate].
  destruct (settle_all l) as [bs'|]; [|discriminate].
  injection H as <-. simpl.
  apply elem_of_cons in Hin as [Hb|Hin].
  - injection Hb as <-. reflexivity.
  - rewrite (IH bs') by auto. apply andb_false_r.
Qed.

Lemma answers_of_filters (o : OrderData) (ctx : FilterContext)
    (filters : list OrderFilter) :
  snd <$> imap (λ i filter, (RunFilter i o, filter o ctx)) filters
  = (λ filter, filter o ctx) <$> filters.
Proof.
  rewrite fmap_imap. unfold compose. simpl. apply imap_const.
Qed.

Lemma calls_of_filters (o : OrderData) (ctx : FilterContext)
    (filters : list OrderFilter) :
  map fst (imap (λ i filter, (RunFilter i o, filter o ctx)) filters)
  = filterRuns o filters.
Proof.
  unfold filterRuns. change (map fst ?l) with (fst <$> l).
  rewrite fmap_imap. reflexivity.
Qed.

(** [executeOrder], path by path. *)
Lemma executeOrder_paths (ev : IncomingOrder) (w : World Executor) :
  executeOrder ev w
  = match order ev with
    | None => (Throw (Error "Order is undefined"), w)
    | Some o =>
      if negb (JS.truthy (orderId ev))
      then (Throw (Error "Order is undefined"), w)
      else
      match chains (fields w) (chainId (take o)) with
      | None => (Ok false, w)
      | Some takeChain =>
      match chains (fields w) (chainId (give o)) with
      | None => (Ok false, w)
      | Some giveChain =>
        let filters := dstFilters takeChain ++ srcFilters giveChain in
        let ctx := {| filter_giveChain := chain giveChain;
                      filter_takeChain := chain takeChain |} in
        let forward :=
          ProcessorProcess (chain takeChain)
            (dispatched (fields w) ev giveChain) in
        if runsFilters (status ev) then
          match settle_all
                  (imap (λ i filter, (RunFilter i o, filter o ctx)) filters)
          with
          | Ok bs =>
              if forallb (λ it, it) bs
              then (Ok true,
                    MkWorld (fields w)
                      ((calls w ++ filterRuns o filters) ++ [forward]))
              else (Ok false,
                    MkWorld (fields w) (calls w ++ filterRuns o filters))
          | Throw e =>
              (Throw e, MkWorld (fields w) (calls w ++ filterRuns o filters))
          end
        else (Ok true, MkWorld (fields w) (calls w ++ [forward]))
      end
      end
    end.
Proof.
  unfold executeOrder. destruct (order ev) as [o|]; [|reflexivity].
  destruct (negb _); [reflexivity|].
  unfold_monad. simpl.
  destruct (chains (fields w) (chainId (take o))) as [tc|]; [|destruct w; reflexivity].
  destruct (chains (fields w) (chainId (give o))) as [gc|]; [|destruct w; reflexivity].
  simpl. destruct (runsFilters (status ev)).
  - unfold_monad. simpl. rewrite calls_of_filters.
    destruct (settle_all _) as [bs|]; [|reflexivity].
    destruct (forallb _ bs); reflexivity.
  - reflexivity.
Qed.


Lemma initChain_filters cfg d sc :
  initChain cfg d = Ok sc →
  chain sc = def_chain d
  ∧ dstFilters sc
    = ownDstFilters d
      ++ (if def_disabled d then [disableFulfill (def_chain d)] else [])
      ++ globalFilters cfg (def_chain d)
  ∧ srcFilters sc = ownSrcFilters d.
Proof.
  unfold initChain. destruct (getConfirmationRanges _ _); [|discriminate].
  intros [= <-]. simpl. split; [reflexivity|]. split; [|reflexivity].
  unfold ownDstFilters, globalFilters. rewrite !map_app.
  rewrite <- app_assoc. destruct (def_disabled d); reflexivity.
Qed.

Lemma initChains_lookup cfg defs : ∀ chains0 chains',
  initChains cfg defs chains0 = Ok chains' →
  ∀ c sc, chains' c = Some sc →
    chains0 c = Some sc
    ∨ ∃ d, d ∈ defs ∧ initChain cfg d = Ok sc ∧ def_chain d = c.
Proof.
  induction defs as [|d defs IH]; intros chains0 chains'; simpl.
  - intros [= <-]. auto.
  - destruct (initChain cfg d) as [sc0|] eqn:E; [|discriminate].
    intros H c sc Hc. destruct (IH _ _ H c sc Hc) as [H0|(d' & Hin & Hd & Hdc)].
    + destruct (bool_decide (c = def_chain d)) eqn:Eb.
      * apply bool_decide_eq_true in Eb. injection H0 as <-.
        right. exists d. split; [left|]. auto.
      * auto.
    + right. exists d'. split; [right; assumption|]. auto.
Qed.

Lemma init_lookup cfg ex c sc :
  init new cfg = Ok ex → chains ex c = Some sc →
  ∃ d, d ∈ launch_chains cfg ∧ initChain cfg d = Ok sc ∧ def_chain d = c.
Proof.
  unfold init. simpl.
  destruct (initChains cfg (launch_chains cfg) (λ _, None)) as [chains'|] eqn:E;
    [|discriminate].
  intros [= <-]. simpl. intros H.
  destruct (initChains_lookup _ _ _ _ E c sc H) as [H0|H0]; [discriminate|exact H0].
Qed.

Lemma runsFilters_spec t :
  runsFilters t = true
  ↔ t = OrderInfoStatus.Created ∨ t = OrderInfoStatus.ArchivalCreated.
Proof.
  unfold runsFilters. rewrite bool_decide_eq_true.
  rewrite !elem_of_cons. split; [|tauto].
  intros [?|[?|H]]; [tauto|tauto|inversion H].
Qed.


(** C10. [executeOrder] throws "Order is undefined", with nothing looked up,
    run or handed on, for an event of any status without an order or with
    an empty orderId; so whatever it hands to a processor has an order and
    an orderId. [processOrder] throws "order is empty, should not happen"
    when called without an order or with an empty orderId. *)
Theorem order_undefined :
  (∀ ev w, order ev = None ∨ orderId ev = "" →
     executeOrder ev w = (Throw (Error "Order is undefined"), w))
  ∧ (∀ ev w c p,
       ProcessorProcess c p ∈ calls (snd (executeOrder ev w)) →
       (ProcessorProcess c p ∉ calls w) →
       orderInfo p = ev ∧ order ev ≠ None ∧ orderId ev ≠ "")
  ∧ (∀ env p w,
       order (orderInfo p) = None ∨ orderId (orderInfo p) = "" →
       UniversalProcessor.processOrder env p w
       = (Throw (Error "order is empty, should not happen"), w)).
Proof.
  split; [|split].
  - intros ev w H. rewrite executeOrder_paths.
    destruct (order ev); [|reflexivity].
    destruct H as [H|H]; [discriminate|]. rewrite H. reflexivity.
  - intros ev w c p Hin Hnot. rewrite executeOrder_paths in Hin.
    destruct (order ev) as [o|]; [|contradiction].
    destruct (JS.truthy (orderId ev)) eqn:Et; simpl in Hin; [|contradiction].
    apply truthy_spec in Et.
    assert (∀ fs, ProcessorProcess c p ∉ filterRuns o fs) as Hruns.
    { intros fs H. unfold filterRuns in H.
      apply elem_of_lookup_imap in H as (i & f & H & _). discriminate. }
    destruct (chains (fields w) (chainId (take o))) as [tc|]; [|contradiction].
    destruct (chains (fields w) (chainId (give o))) as [gc|]; [|contradiction].
    cbv zeta in Hin.
    assert (ProcessorProcess c p
            = ProcessorProcess (chain tc) (dispatched (fields w) ev gc)) as E.
    { destruct (runsFilters (status ev)).
      - destruct (settle_all _) as [bs|].
        + destruct (forallb _ bs); simpl in Hin.
          * rewrite !elem_of_app in Hin. destruct Hin as [[H|H]|H].
            -- contradiction.
            -- exfalso. eapply Hruns; eassumption.
            -- apply list_elem_of_singleton in H. exact H.
          * rewrite !elem_of_app in Hin. destruct Hin as [H|H];
              [contradiction|exfalso; eapply Hruns; eassumption].
        + simpl in Hin. rewrite !elem_of_app in Hin. destruct Hin as [H|H];
              [contradiction|exfalso; eapply Hruns; eassumption].
      - simpl in Hin. rewrite !elem_of_app in Hin. destruct Hin as [H|H];
          [contradiction|]. apply list_elem_of_singleton in H. exact H. }
    injection E as _ ->. simpl. repeat split; [discriminate|assumption].
  - intros env p w H. apply UniversalFacts.processOrder_order_empty. exact H.
Qed.

Lemma confirmation_thresholds_witness :
  ∃ e, getConfirmationRanges Polygon
         (Some [ {| thresholdAmountInUSD := 100; minBlockConfirmations := 300 |};
                 {| thresholdAmountInUSD := 1000; minBlockConfirmations := 256 |} ])
       = Throw e.
Proof.
  pose proof (confirmation_thresholds Polygon
                [ {| thresholdAmountInUSD := 100; minBlockConfirmations := 300 |};
                  {| thresholdAmountInUSD := 1000; minBlockConfirmations := 256 |} ])
    as H.
  cbv zeta in H. destruct H as (_ & _ & H & _).
  apply H. exists 0, {| thresholdAmountInUSD := 100; minBlockConfirmations := 300 |}.
  split; [reflexivity|].
  exists zeroThreshold. split; [reflexivity|]. right. simpl. lia.
Defined.


Lemma order_undefined_witness :
  executeOrder {| orderId := "e"; status := OrderInfoStatus.Fulfilled;
                  order := None |}
    (MkWorld (executorOf (launch [])) [])
  = (Throw (Error "Order is undefined"), MkWorld (executorOf (launch [])) []).
Proof.
  apply (proj1 order_undefined). left; reflexivity.
Defined.

End ExecutorFacts.

(** ** UniversalProcessor: the fulfilment of one order *)

Module FulfilmentFacts.
Import UniversalProcessor Fixtures Observations UniversalFacts.

Ltac thrown :=
  split;
  [ auto
  | intros ? [= <-]; split;
    [ reflexivity
    | first [ left; eexists; reflexivity
            | right; eexists; split; [reflexivity|apply last_snoc] ] ] ].

Ltac in_log H :=
  repeat (apply elem_of_cons in H as [H|H]);
  try (apply elem_of_nil in H; destruct H);
  try discriminate H.

(** The log grew by the calls shown, none of which sends or unlocks. *)
Ltac quiet :=
  eexists; split;
  [ first [ symmetry; apply app_nil_r
          | repeat rewrite <- app_assoc; reflexivity ]
  | split; [simpl; lia|]; split; [simpl; lia|];
    split; (let H := fresh in intros ? H; in_log H) ].

(** The log grew by calls among which one sends. *)
Ltac loud Hgates :=
  eexists; split;
  [ repeat rewrite <- app_assoc; reflexivity
  | split; [simpl; lia|]; split; [simpl; lia|];
    split;
    [ let H := fresh in
      intros ? H; in_log H; injection H as ->; apply Hgates; reflexivity
    | let H := fresh in
      intros ? H; in_log H;
      (injection H as ->;
       split; [reflexivity|]; split; [first [assumption|reflexivity]|];
       eexists _, _; split; [|eassumption]; simpl;
       repeat first [apply list_elem_of_here | apply list_elem_of_further]) ] ].

(** X1. Whatever the collaborators answer, [processOrder] changes no field
    but the mempool, and the mempool only by adding the order when it
    returns normally: when it throws, whether an [Error] of its own checks or
    the rejection of the call it made last, no field has changed, so the
    order is not kept for a retry. *)
Theorem processOrder_throw_keeps_fields env p w :
  let r := processOrder env p w in
  let id := orderId (orderInfo p) in
  (fields (snd r) = fields w
   ∨ (fst r = Ok tt
      ∧ fields (snd r)
        = set_mempoolService
            (<[id := deferred p]> (mempoolService (fields w))) (fields w)))
  ∧ (∀ e, fst r = Throw e →
       fields (snd r) = fields w
       ∧ ((∃ m, e = Error m)
          ∨ (∃ c, e = Rejection c ∧ last (calls (snd r)) = Some c))).
Proof.
  cbv zeta. unfold processOrder, deferred.
  destruct (order (orderInfo p)) as [o|]; [|unfold throw; simpl; thrown].
  destruct (negb _); [unfold throw; simpl; thrown|].
  destruct (List.find _ _); [|unfold throw; simpl; thrown].
  unfold_universal; simpl.
  destruct (getTakeOrderStatus env _ _ 0) as [ts|]; simpl; [|thrown].
  destruct (bool_decide _ && bool_decide _); simpl; [thrown|].
  destruct (getGiveOrderStatus env _ _) as [gs|]; simpl; [|thrown].
  destruct (bool_decide _); simpl; [thrown|].
  destruct (calculateExpectedTakeAmount env _ _ _) as [r|]; simpl; [|thrown].
  destruct (isProfitable r); simpl; [|split; [auto|discriminate]].
  destruct (getBalance env _) as [bal|]; simpl; [|thrown].
  destruct (bal <? _)%Z; simpl; [split; [auto|discriminate]|].
  destruct (preswapAndFulfillOrder env _ _ _ _ _) as [tx|]; simpl; [|thrown].
  destruct (sendTransaction env _) as [h|]; simpl; [|split; [auto|discriminate]].
  destruct (waitIsOrderFulfilled env _) as [[]|]; simpl; [|thrown].
  destruct (unlockOrder env _) as [[]|]; simpl; [|thrown].
  split; [auto|discriminate].
Qed.

(** X2. An order that passes the prechecks, is profitable and covered by the
    reserve, and whose fulfill transaction is sent: [processOrder] has made
    exactly the calls below, in this order, and has changed no field, so the
    order is not in the mempool whatever follows. The batch unlocker is asked
    exactly when [waitIsOrderFulfilled] resolves; if it rejects,
    [processOrder] throws that rejection and the order is not unlocked. *)
Theorem processOrder_fulfils env p o q balance tx hash w :
  let id := orderId (orderInfo p) in
  order (orderInfo p) = Some o →
  id ≠ "" →
  ¬ NoReserveCoverage p o →
  TakeSideClear env p o →
  getGiveOrderStatus env id (chainId (give o))
    = Resolved (Some OrderState.Created) →
  calculateExpectedTakeAmount env o (minProfitabilityBps (params (fields w)))
    (batchSizeFor (fields w) o) = Resolved q →
  isProfitable q = true →
  getBalance env (reserveDstToken q) = Resolved balance →
  (requiredReserveDstAmount q ≤ balance)%Z →
  preswapAndFulfillOrder env o id (reserveDstToken q)
    (requiredReserveDstAmount q) (reserveToTakeSlippageBps q) = Resolved tx →
  sendTransaction env tx = Resolved hash →
  let r := processOrder env p w in
  let sent :=
    [ GetTakeOrderStatus id (chainId (take o));
      GetGiveOrderStatus id (chainId (give o));
      CalculateExpectedTakeAmount o (minProfitabilityBps (params (fields w)))
        (batchSizeFor (fields w) o);
      GetBalance (reserveDstToken q);
      PreswapAndFulfillOrder o id (reserveDstToken q)
        (requiredReserveDstAmount q) (reserveToTakeSlippageBps q);
      SendTransaction tx;
      WaitIsOrderFulfilled id ] in
  fields (snd r) = fields w
  ∧ (waitIsOrderFulfilled env id = Resolved tt →
       calls (snd r) = calls w ++ sent ++ [UnlockOrder id]
       ∧ (fst r = Ok tt ↔ unlockOrder env id = Resolved tt))
  ∧ (waitIsOrderFulfilled env id = Rejected →
       r = (Throw (Rejection (WaitIsOrderFulfilled id)),
            MkWorld (fields w) (calls w ++ sent))).
Proof.
  intros id Ho Hid Hcov (ts & Hts & Hclear) Hgive Hcalc Hp Hbal Hge Htx Hsend.
  subst id. apply truthy_spec in Hid. rewrite <- find_covers_None in Hcov.
  unfold batchSizeFor in *. cbv zeta.
  unfold processOrder. rewrite Ho, Hid. simpl.
  destruct (List.find _ _) as [b|]; [|congruence].
  unfold_universal; simpl. rewrite Hts; simpl.
  assert (bool_decide (ts ≠ Some OrderState.NotSet) && bool_decide (ts ≠ None)
          = false) as ->.
  { destruct Hclear as [->| ->]; reflexivity. }
  rewrite Hgive; simpl. rewrite Hcalc; simpl. rewrite Hp; simpl.
  rewrite Hbal; simpl.
  assert ((balance <? requiredReserveDstAmount q)%Z = false) as -> by lia.
  rewrite Htx; simpl. rewrite Hsend; simpl.
  destruct (waitIsOrderFulfilled env _) as [[]|]; simpl.
  - destruct (unlockOrder env _) as [[]|]; simpl.
    + split; [reflexivity|]. split; [|discriminate]. intros _.
      split; [repeat rewrite <- app_assoc; reflexivity|]. tauto.
    + split; [reflexivity|]. split; [|discriminate]. intros _.
      split; [repeat rewrite <- app_assoc; reflexivity|].
      split; discriminate.
  - split; [reflexivity|]. split; [discriminate|]. intros _.
    repeat rewrite <- app_assoc. reflexivity.
Qed.

Lemma processOrder_fulfils_witness :
  calls (snd (processOrder env0 (incoming "x" OrderInfoStatus.Created)
                (boot idle)))
  = [ GetTakeOrderStatus "x" Polygon; GetGiveOrderStatus "x" Arbitrum;
      CalculateExpectedTakeAmount order0 (Some 4%Z) (Some 10%Z);
      GetBalance [x01];
      PreswapAndFulfillOrder order0 "x" [x01] 5 None;
      SendTransaction 7%Z; WaitIsOrderFulfilled "x"; UnlockOrder "x" ].
Proof.
  refine (proj1 (proj1 (proj2
    (processOrder_fulfils env0 (incoming "x" OrderInfoStatus.Created) order0
       {| reserveDstToken := [x01]; requiredReserveDstAmount := 5;
          isProfitable := true; reserveToTakeSlippageBps := None |}
       10%Z 7%Z 8%Z (boot idle) _ _ _ _ _ _ _ _ _ _ _)) _)).
  - reflexivity.
  - discriminate.
  - intros H. destruct (H usdc) as [E|E]; [left|discriminate E|discriminate E].
  - exists (Some OrderState.NotSet). split; [reflexivity|right; reflexivity].
  - reflexivity.
  - reflexivity.
  - reflexivity.
  - reflexivity.
  - simpl. lia.
  - reflexivity.
  - reflexivity.
  - reflexivity.
Defined.

(** X3. The transactions and unlocks of [processOrder], for every order and
    whatever the collaborators answer: it sends at most one transaction, and
    only the fulfill transaction that [preswapAndFulfillOrder] built for an
    order that passed the prechecks, was reported profitable and is covered
    by the reserve balance; it asks the batch unlocker for at most one
    unlock, of this order, and only after that transaction was sent and
    [waitIsOrderFulfilled] resolved. *)
Theorem processOrder_sends_after_gates env p w :
  let id := orderId (orderInfo p) in
  ∃ extra,
    calls (snd (processOrder env p w)) = calls w ++ extra
    ∧ length (StrictProcessor.sends extra) ≤ 1
    ∧ length (unlocks extra) ≤ 1
    ∧ (∀ tx, SendTransaction tx ∈ extra →
         ∃ o q balance,
           order (orderInfo p) = Some o
           ∧ ¬ NoReserveCoverage p o
           ∧ TakeSideClear env p o
           ∧ getGiveOrderStatus env id (chainId (give o))
             = Resolved (Some OrderState.Created)
           ∧ calculateExpectedTakeAmount env o
               (minProfitabilityBps (params (fields w)))
               (batchSizeFor (fields w) o) = Resolved q
           ∧ isProfitable q = true
           ∧ getBalance env (reserveDstToken q) = Resolved balance
           ∧ (requiredReserveDstAmount q ≤ balance)%Z
           ∧ preswapAndFulfillOrder env o id (reserveDstToken q)
               (requiredReserveDstAmount q) (reserveToTakeSlippageBps q)
             = Resolved tx)
    ∧ (∀ id', UnlockOrder id' ∈ extra →
         id' = id
         ∧ waitIsOrderFulfilled env id = Resolved tt
         ∧ ∃ tx hash, SendTransaction tx ∈ extra
                      ∧ sendTransaction env tx = Resolved hash).
Proof.
  cbv zeta. unfold processOrder, batchSizeFor.
  destruct (order (orderInfo p)) as [o|] eqn:Ho; [|unfold throw; simpl; quiet].
  destruct (negb _) eqn:Hid; [unfold throw; simpl; quiet|].
  destruct (List.find _ _) as [b|] eqn:Hb; [|unfold throw; simpl; quiet].
  assert (¬ NoReserveCoverage p o) as Hcov.
  { rewrite <- find_covers_None. congruence. }
  unfold_universal; simpl.
  destruct (getTakeOrderStatus env _ _ 0) as [ts|] eqn:Hts; simpl; [|quiet].
  destruct (bool_decide _ && bool_decide _) eqn:Hclear; simpl; [quiet|].
  assert (TakeSideClear env p o) as Htake.
  { exists ts. split; [exact Hts|].
    destruct ts as [[]|]; simpl in Hclear; try discriminate; auto. }
  destruct (getGiveOrderStatus env _ _) as [gs|] eqn:Hgs; simpl; [|quiet].
  destruct (bool_decide (gs ≠ _)) eqn:Hcreated; simpl; [quiet|].
  assert (gs = Some OrderState.Created) as ->.
  { apply bool_decide_eq_false in Hcreated.
    destruct (decide (gs = Some OrderState.Created)); [assumption|contradiction]. }
  destruct (calculateExpectedTakeAmount env _ _ _) as [r|] eqn:Hr; simpl;
    [|quiet].
  destruct (isProfitable r) eqn:Hp; simpl; [|quiet].
  destruct (getBalance env _) as [bal|] eqn:Hbal; simpl; [|quiet].
  destruct (bal <? _)%Z eqn:Hlt; simpl; [quiet|].
  destruct (preswapAndFulfillOrder env _ _ _ _ _) as [tx|] eqn:Htx; simpl;
    [|quiet].
  assert (∀ tx', tx' = tx →
            ∃ o' q balance,
              Some o = Some o' ∧ ¬ NoReserveCoverage p o'
              ∧ TakeSideClear env p o'
              ∧ getGiveOrderStatus env (orderId (orderInfo p)) (chainId (give o'))
                = Resolved (Some OrderState.Created)
              ∧ calculateExpectedTakeAmount env o'
                  (minProfitabilityBps (params (fields w)))
                  (if bool_decide (chainId (give o') = Solana)
                      || bool_decide (chainId (take o') = Solana)
                   then None else batchUnlockSize (params (fields w)))
                = Resolved q
              ∧ isProfitable q = true
              ∧ getBalance env (reserveDstToken q) = Resolved balance
              ∧ (requiredReserveDstAmount q ≤ balance)%Z
              ∧ preswapAndFulfillOrder env o' (orderId (orderInfo p))
                  (reserveDstToken q) (requiredReserveDstAmount q)
                  (reserveToTakeSlippageBps q) = Resolved tx') as Hgates.
  { intros tx' ->. exists o, r, bal.
    repeat (split; [first [reflexivity|assumption|lia]|]). assumption. }
  destruct (sendTransaction env _) as [h|] eqn:Hsend; simpl; [|loud Hgates].
  destruct (waitIsOrderFulfilled env _) as [[]|] eqn:Hwait; simpl; [|loud Hgates].
  destruct (unlockOrder env _) as [[]|] eqn:Hunlock; simpl; loud Hgates.
Qed.

(** X4. A [batchUnlockSize] that is given as [undefined], rather than left
    out, passes the range check of the constructor, and [Object.assign]
    copies it over the default: the processor is built without a batch size,
    and [processOrder] hands no batch size on for any order. *)
Theorem constructor_explicit_undefined a :
  p_batchUnlockSize a = Present None →
  ∃ s, constructor (Some a) = Ok s
       ∧ batchUnlockSize (params s) = None
       ∧ ∀ o, batchSizeFor s o = None.
Proof.
  intros H. unfold constructor. simpl. rewrite H. simpl.
  eexists. split; [reflexivity|]. simpl. split; [reflexivity|].
  intros o. unfold batchSizeFor. simpl. destruct (_ || _); reflexivity.
Qed.

Lemma constructor_explicit_undefined_witness :
  ∃ s, constructor (Some {| p_minProfitabilityBps := Omitted;
                            p_mempoolInterval := Omitted;
                            p_batchUnlockSize := Present None |}) = Ok s
       ∧ batchUnlockSize (params s) = None
       ∧ ∀ o, batchSizeFor s o = None.
Proof.
  apply (constructor_explicit_undefined
           {| p_minProfitabilityBps := Omitted; p_mempoolInterval := Omitted;
              p_batchUnlockSize := Present None |}).
  reflexivity.
Defined.

End FulfilmentFacts.

(** ** UniversalProcessor: the queues *)

Module SchedulerFacts.
Import UniversalProcessor Fixtures Observations Invariants UniversalFacts.

Lemma forget_eq id w :
  forget id w
  = (Ok tt,
     MkWorld
       {| priorityQueue := JS.set_delete id (priorityQueue (fields w));
          queue := JS.set_delete id (queue (fields w));
          incomingOrdersMap := delete id (incomingOrdersMap (fields w));
          isLocked := isLocked (fields w);
          params := params (fields w);
          mempoolService := delete id (mempoolService (fields w));
          inFlight := inFlight (fields w);
          processed := processed (fields w) |}
       (calls w)).
Proof. reflexivity. Qed.

Lemma pending_forget id w :
  pending (fields (snd (forget id w)))
  = filter (λ y, y ≠ id) (pending (fields w)).
Proof.
  rewrite forget_eq. unfold pending. simpl. rewrite filter_app. f_equal.
  unfold JS.set_delete. rewrite !list_filter_filter.
  apply list_filter_iff. intros y. rewrite list_elem_of_filter. tauto.
Qed.

Lemma removal_step env p w :
  status (orderInfo p) = OrderInfoStatus.Cancelled
  ∨ status (orderInfo p) = OrderInfoStatus.Fulfilled →
  fields (step w (Arrives env p))
  = fields (snd (forget (orderId (orderInfo p)) w))
  ∧ calls (step w (Arrives env p))
    = calls w ++ (if decide (status (orderInfo p) = OrderInfoStatus.Fulfilled)
                  then [UnlockOrder (orderId (orderInfo p))] else []).
Proof.
  intros [H|H]; simpl; unfold process; rewrite H.
  - rewrite app_nil_r. split; reflexivity.
  - unfold bind. rewrite forget_eq. unfold await. simpl.
    destruct (unlockOrder env _); split; reflexivity.
Qed.

Lemma unlocks_app l1 l2 : unlocks (l1 ++ l2) = unlocks l1 ++ unlocks l2.
Proof. unfold unlocks. apply omap_app. Qed.

(** X5. A [Cancelled] or [Fulfilled] event takes the order out of both
    queues, of [incomingOrdersMap] and of the mempool, and leaves the other
    queued orders in their order. It does not touch the lock or the order in
    flight, even if that is the order of the event. [Fulfilled] also asks the
    batch unlocker, [Cancelled] calls nobody. If the processor is busy, the
    order is not processed in any of the settlements that follow, as long as
    it does not arrive again. *)
Theorem removal_events w env p :
  status (orderInfo p) = OrderInfoStatus.Cancelled
  ∨ status (orderInfo p) = OrderInfoStatus.Fulfilled →
  let id := orderId (orderInfo p) in
  let w' := step w (Arrives env p) in
  pending (fields w') = filter (λ y, y ≠ id) (pending (fields w))
  ∧ (id ∉ priorityQueue (fields w')) ∧ (id ∉ queue (fields w'))
  ∧ incomingOrdersMap (fields w') = delete id (incomingOrdersMap (fields w))
  ∧ mempoolService (fields w') = delete id (mempoolService (fields w))
  ∧ isLocked (fields w') = isLocked (fields w)
  ∧ inFlight (fields w') = inFlight (fields w)
  ∧ processed (fields w') = processed (fields w)
  ∧ unlocks (calls w')
    = unlocks (calls w)
      ++ (if decide (status (orderInfo p) = OrderInfoStatus.Fulfilled)
          then [id] else [])
  ∧ calls w'
    = calls w
      ++ (if decide (status (orderInfo p) = OrderInfoStatus.Fulfilled)
          then [UnlockOrder id] else [])
  ∧ (wf (fields w) → ∀ x, inFlight (fields w) = [x] →
     ∀ envs, ∃ new,
       processed (fields (run w' (settles envs))) = processed (fields w) ++ new
       ∧ attemptsFor id new = 0).
Proof.
  intros Hst id w'.
  destruct (removal_step env p w Hst) as [Hf Hc].
  change (fields w' = fields (snd (forget id w))) in Hf.
  change (calls w' = calls w ++ (if decide (status (orderInfo p)
                                             = OrderInfoStatus.Fulfilled)
                                 then [UnlockOrder id] else [])) in Hc.
  assert (pending (fields w') = filter (λ y, y ≠ id) (pending (fields w)))
    as Hpend.
  { rewrite Hf. apply pending_forget. }
  clearbody w' id. rewrite Hc. rewrite forget_eq in Hf. simpl in Hf.
  split; [exact Hpend|].
  split; [rewrite Hf; simpl; rewrite elem_of_set_delete; tauto|].
  split; [rewrite Hf; simpl; rewrite elem_of_set_delete; tauto|].
  do 5 (split; [rewrite Hf; reflexivity|]).
  split.
  { rewrite unlocks_app. destruct (decide _); reflexivity. }
  split; [reflexivity|].
  intros Hwf x Hinf envs.
  assert (wf (fields w')) as Hwf'.
  { pose proof (wf_forget id w Hwf) as H. rewrite forget_eq in H. simpl in H.
    rewrite Hf. exact H. }
  assert (inFlight (fields w') = [x]) as Hinf'.
  { rewrite Hf. exact Hinf. }
  eexists. split.
  { rewrite (drain envs w' x Hwf' Hinf'). rewrite Hf at 1. simpl. reflexivity. }
  rewrite attemptsFor_ids.
  rewrite (ids_of_queued (fields w')); [|exact Hwf'|].
  2:{ intros y Hy. apply elem_of_pending.
      eapply subseteq_take. exact Hy. }
  assert (id ∉ firstn (length envs) (pending (fields w'))) as Hnot.
  { intros Hin. apply subseteq_take in Hin. rewrite Hpend in Hin.
    apply list_elem_of_filter in Hin as [Hne _]. congruence. }
  induction (firstn _ _) as [|a l IH]; [reflexivity|].
  rewrite filter_cons. destruct (decide (a = _)) as [->|Hne].
  - exfalso. apply Hnot. left.
  - apply IH. intros Hin. apply Hnot. right. exact Hin.
Qed.

Lemma removal_events_witness :
  let w' := run busy [Arrives env0 (incoming "a" OrderInfoStatus.Created);
                      Arrives env0 (incoming "b" OrderInfoStatus.Created);
                      Arrives env0 (incoming "a" OrderInfoStatus.Cancelled)] in
  pending (fields w') = ["b"]
  ∧ inFlight (fields w') = [incoming "x" OrderInfoStatus.Created].
Proof.
  pose proof (removal_events
                (run busy [Arrives env0 (incoming "a" OrderInfoStatus.Created);
                           Arrives env0 (incoming "b" OrderInfoStatus.Created)])
                env0 (incoming "a" OrderInfoStatus.Cancelled)
                (or_introl eq_refl)) as H.
  cbv zeta in H. destruct H as (Hp & _ & _ & _ & _ & _ & Hi & _).
  split; [exact Hp|exact Hi].
Defined.

Lemma pending_nil s : pending s = [] ↔ priorityQueue s = [] ∧ queue s = [].
Proof.
  unfold pending. split.
  - intros H. apply app_eq_nil in H as [Hp Hq]. rewrite Hp in Hq.
    rewrite filter_notin_nil in Hq. auto.
  - intros [-> ->]. reflexivity.
Qed.

Lemma inFlight_single s i x :
  lockInv s → inFlight s !! i = Some x → inFlight s = [x] ∧ i = 0.
Proof.
  unfold lockInv. intros Hinv Hx. destruct (isLocked s).
  - destruct Hinv as [y Hy]. rewrite Hy in Hx.
    destruct i; simpl in Hx; [|destruct i; discriminate].
    split; congruence.
  - rewrite Hinv in Hx. discriminate.
Qed.

(** A settlement that finds nothing queued leaves [incomingOrdersMap] as it
    is. *)
Lemma settle_idle_map env w x :
  wf (fields w) → inFlight (fields w) = [x] → pending (fields w) = [] →
  incomingOrdersMap (fields (step w (Settles env 0)))
  = incomingOrdersMap (fields w).
Proof.
  intros Hwf Hinf Hpend. simpl.
  rewrite (tryProcess_resume_eq env 0 w x) by (rewrite Hinf; reflexivity).
  destruct (processOrder_frame env x w) as [m Hm].
  destruct (processOrder env x w) as [r [s1 c1]]. simpl in *. subst s1.
  destruct w as [[pq q mp l ps mem inf pr] cs]. simpl in *. subst inf.
  set (w2 := MkWorld _ c1).
  pose proof (pick_step w2 Hwf) as Hpick.
  change (pending (fields w2)) with
    (pending {| priorityQueue := pq; queue := q; incomingOrdersMap := mp;
                isLocked := l; params := ps; mempoolService := mem;
                inFlight := [x]; processed := pr |}) in Hpick.
  rewrite Hpend in Hpick. rewrite Hpick. reflexivity.
Qed.

Lemma consistent_step w e :
  consistent (fields w) → event_ok e → consistent (fields (step w e)).
Proof.
  intros (Hwf & Hinv & Hkeys & Hidle) Hok.
  pose proof (wf_step w e Hwf Hinv Hok) as Hwf'.
  pose proof (lockInv_step w e Hinv) as Hinv'.
  split; [exact Hwf'|]. split; [exact Hinv'|].
  clear Hwf' Hinv'.
  destruct e as [env p | env i].
  - assert (isCreation (status (orderInfo p)) →
            let s' := fields (snd (tryProcess p w)) in
            (∀ id q, incomingOrdersMap s' !! id = Some q →
               (id ∈ priorityQueue s' ∨ id ∈ queue s')
               ∧ isCreation (status (orderInfo q)))
            ∧ (isLocked s' = false → priorityQueue s' = [] ∧ queue s' = []))
      as Htry.
    { intros Hc. destruct (isLocked (fields w)) eqn:Hl.
      - rewrite tryProcess_locked by assumption. cbv zeta. simpl.
        split.
        + intros id q Hq.
          destruct (decide (id = orderId (orderInfo p))) as [->|Hne].
          * rewrite lookup_insert_eq in Hq. injection Hq as <-.
            split; [|exact Hc].
            destruct Hc as [Hc|Hc]; rewrite Hc; simpl;
              rewrite elem_of_set_add; auto.
          * rewrite lookup_insert_ne in Hq by congruence.
            destruct (Hkeys id q Hq) as [Hin Hcq]. split; [|exact Hcq].
            destruct (status (orderInfo p)); simpl;
              rewrite ?elem_of_set_add; tauto.
        + destruct (status (orderInfo p)); simpl; rewrite Hl; discriminate.
      - rewrite tryProcess_unlocked by assumption. cbv zeta. simpl.
        split; [exact Hkeys|discriminate]. }
    simpl. unfold process.
    destruct (status (orderInfo p)) eqn:Hst.
    + apply Htry. left; reflexivity.
    + apply Htry. right; reflexivity.
    + unfold await. destruct (unlockOrder env _); simpl; auto.
    + rewrite forget_eq. simpl. split.
      * intros id q Hq. apply lookup_delete_Some in Hq as [Hne Hq].
        destruct (Hkeys id q Hq) as [Hin Hcq]. split; [|exact Hcq].
        rewrite !elem_of_set_delete. intuition congruence.
      * intros Hl. destruct (Hidle Hl) as [-> ->]. auto.
    + unfold bind. rewrite forget_eq. unfold await.
      destruct (unlockOrder env _); simpl.
      all: split;
        [ intros id q Hq; apply lookup_delete_Some in Hq as [Hne Hq];
          destruct (Hkeys id q Hq) as [Hin Hcq]; split; [|exact Hcq];
          rewrite !elem_of_set_delete; intuition congruence
        | intros Hl; destruct (Hidle Hl) as [-> ->]; auto ].
    + simpl. auto.
  - destruct (inFlight (fields w) !! i) as [x|] eqn:Hx.
    2:{ rewrite settle_absent by assumption. auto. }
    destruct (inFlight_single _ _ _ Hinv Hx) as [Hinf ->].
    pose proof (settle_step env w x Hwf Hinf) as Hstep. cbv zeta in Hstep.
    pose proof (settle_idle_map env w x Hwf Hinf) as Hmap.
    destruct (pending (fields w)) as [|id rest] eqn:Hpend.
    + destruct Hstep as (_ & _ & _ & Hp' & _).
      rewrite Hmap by reflexivity.
      apply pending_nil in Hpend as [Hpq Hq].
      apply pending_nil in Hp' as [Hpq' Hq'].
      split; [|auto].
      intros id q Hlook. destruct (Hkeys id q Hlook) as [[Hin|Hin] _].
      * rewrite Hpq in Hin. inversion Hin.
      * rewrite Hq in Hin. inversion Hin.
    + destruct Hstep as (p & _ & _ & Hl' & _ & _ & Hrest & Hmap' & _).
      split; [|rewrite Hl'; discriminate].
      intros y q Hlook. rewrite Hmap' in Hlook.
      apply lookup_delete_Some in Hlook as [Hne Hlook].
      destruct (Hkeys y q Hlook) as [Hin Hcq]. split; [|exact Hcq].
      apply elem_of_pending. rewrite Hrest.
      apply elem_of_pending in Hin. rewrite Hpend in Hin.
      apply elem_of_cons in Hin as [Hin|Hin]; [congruence|exact Hin].
Qed.

Lemma consistent_run es : ∀ w,
  consistent (fields w) → Forall event_ok es → consistent (fields (run w es)).
Proof.
  induction es as [|e es IH]; intros w Hc Hok; [exact Hc|].
  inversion Hok as [|? ? He Hes]; subst.
  apply (IH (step w e)); [apply consistent_step; assumption|assumption].
Qed.

(** X6. Between any two events of a processor that was built by the
    constructor and has since received events with non-empty orderIds: each
    queue holds an orderId at most once; an orderId is queued exactly when it
    has an entry in [incomingOrdersMap], and that entry is an order of this
    orderId with status [Created] or [ArchivalCreated]; and whenever the lock
    is free, both queues are empty and nothing is in flight, so no order
    waits while the processor is idle. *)
Theorem queues_consistent arg s0 es :
  constructor arg = Ok s0 →
  Forall event_ok es →
  let s := fields (run (boot s0) es) in
  NoDup (priorityQueue s) ∧ NoDup (queue s)
  ∧ (∀ id, id ∈ priorityQueue s ∨ id ∈ queue s
           ↔ is_Some (incomingOrdersMap s !! id))
  ∧ (∀ id p, incomingOrdersMap s !! id = Some p →
       orderId (orderInfo p) = id ∧ id ≠ ""
       ∧ isCreation (status (orderInfo p)))
  ∧ (isLocked s = false →
       priorityQueue s = [] ∧ queue s = [] ∧ inFlight s = []).
Proof.
  intros Hc Hok s.
  assert (consistent (fields (boot s0))) as Hinit.
  { unfold constructor in Hc. destruct (match _ with Some _ => _ | None => _ end);
      [discriminate|]. injection Hc as <-. unfold consistent, wf, lockInv. simpl.
    split; [split; [constructor|split; [constructor|]]|].
    - intros id [H|H]; inversion H.
    - split; [reflexivity|]. split; [|auto].
      intros id p H. rewrite lookup_empty in H. discriminate. }
  destruct (consistent_run es _ Hinit Hok) as ((Hp & Hq & Hids) & Hinv & Hkeys & Hidle).
  fold s in Hp, Hq, Hids, Hinv, Hkeys, Hidle.
  split; [exact Hp|]. split; [exact Hq|]. split; [|split].
  - intros id. split.
    + intros Hin. destruct (Hids id Hin) as (_ & p & Hl & _). eauto.
    + intros [p Hl]. apply (Hkeys id p Hl).
  - intros id p Hl. destruct (Hkeys id p Hl) as [Hin Hcp].
    destruct (Hids id Hin) as (Hne & p' & Hl' & Hid').
    assert (p' = p) as -> by congruence. auto.
  - intros Hl. destruct (Hidle Hl) as [-> ->].
    unfold lockInv in Hinv. rewrite Hl in Hinv. auto.
Qed.

Lemma queues_consistent_witness :
  let s := fields (run (boot idle)
                     [Arrives env0 (incoming "x" OrderInfoStatus.Created);
                      Arrives env0 (incoming "y" OrderInfoStatus.ArchivalCreated);
                      Settles env0 0; Settles env0 0]) in
  priorityQueue s = [] ∧ queue s = [] ∧ inFlight s = [].
Proof.
  refine (proj2 (proj2 (proj2 (proj2
    (queues_consistent None idle
       [Arrives env0 (incoming "x" OrderInfoStatus.Created);
        Arrives env0 (incoming "y" OrderInfoStatus.ArchivalCreated);
        Settles env0 0; Settles env0 0] _ _)))) _).
  - reflexivity.
  - repeat constructor; discriminate.
  - reflexivity.
Defined.

Lemma drain_idle envs : ∀ w x,
  wf (fields w) → inFlight (fields w) = [x] →
  length (pending (fields w)) < length envs →
  let w' := run w (settles envs) in
  isLocked (fields w') = false ∧ inFlight (fields w') = []
  ∧ pending (fields w') = []
  ∧ ∀ id, id ∈ pending (fields w) →
      incomingOrdersMap (fields w') !! id = None.
Proof.
  induction envs as [|env envs IH]; intros w x Hwf Hinf Hlen; [simpl in Hlen; lia|].
  change (run w (settles (env :: envs)))
    with (run (step w (Settles env 0)) (settles envs)).
  pose proof (settle_step env w x Hwf Hinf) as Hstep.
  pose proof (NoDup_pending _ Hwf) as Hnd.
  cbv zeta in *.
  destruct (pending (fields w)) as [|id rest].
  - destruct Hstep as (Hl & Hi & _ & Hp & _).
    rewrite idle_settles by assumption.
    split; [exact Hl|]. split; [exact Hi|]. split; [exact Hp|].
    intros y Hy. inversion Hy.
  - destruct Hstep as (p & _ & _ & _ & Hi & _ & Hrest & Hmap' & Hwf').
    simpl in Hlen.
    destruct (IH _ p Hwf' Hi) as (Hl & Hinf' & Hp & Hgone).
    { rewrite Hrest. lia. }
    split; [exact Hl|]. split; [exact Hinf'|]. split; [exact Hp|].
    intros y Hy. apply elem_of_cons in Hy as [->|Hy].
    + set (w1 := step w (Settles env 0)) in *.
      assert (∀ envs' w2,
                incomingOrdersMap (fields w2) !! id = None →
                incomingOrdersMap (fields (run w2 (settles envs'))) !! id = None)
        as Hstay; [|apply Hstay; rewrite Hmap'; apply lookup_delete_eq].
      clear. induction envs' as [|env' envs' IH']; intros w2 H2; [exact H2|].
      change (run w2 (settles (env' :: envs')))
        with (run (step w2 (Settles env' 0)) (settles envs')).
      apply IH'. simpl.
      destruct (inFlight (fields w2) !! 0) as [x2|] eqn:Hx2.
      2:{ pose proof (settle_absent env' 0 w2 Hx2) as E. simpl in E.
          rewrite E. exact H2. }
      rewrite (tryProcess_resume_eq env' 0 w2 x2 Hx2).
      destruct (processOrder_frame env' x2 w2) as [m Hm].
      destruct (processOrder env' x2 w2) as [r [s1 c1]]. simpl in *. subst s1.
      set (w3 := MkWorld _ c1).
      assert (incomingOrdersMap (fields w3) !! id = None) as H3 by exact H2.
      assert (isLocked (fields w3) = false) as Hl3 by reflexivity.
      clearbody w3.
      unfold pickNextOrder. unfold_universal.
      destruct (JS.or _ _) as [nid|]; simpl; [|exact H3].
      destruct (JS.truthy nid); simpl; [|exact H3].
      assert (delete nid (incomingOrdersMap (fields w3)) !! id = None) as Hd.
      { destruct (decide (nid = id)) as [->|Hne];
          [apply lookup_delete_eq|rewrite lookup_delete_ne by exact Hne; exact H3]. }
      destruct (incomingOrdersMap (fields w3) !! nid) as [next|]; simpl;
        [|exact Hd].
      rewrite tryProcess_unlocked by exact Hl3. simpl. exact Hd.
    + apply Hgone. rewrite Hrest. exact Hy.
Qed.

(** X7. A busy processor that receives no further event drains its queues:
    once the order in flight and then every queued order have settled, each
    queued order has been processed exactly once, all of the primary queue in
    its order before the rest of the secondary queue in its order, the lock
    is free, both queues are empty and [incomingOrdersMap] holds none of
    them. *)
Theorem queues_drain w x envs :
  wf (fields w) → inFlight (fields w) = [x] →
  length (pending (fields w)) < length envs →
  let w' := run w (settles envs) in
  ∃ new,
    processed (fields w') = processed (fields w) ++ new
    ∧ (λ p, orderId (orderInfo p)) <$> new
      = priorityQueue (fields w)
        ++ filter (λ id, id ∉ priorityQueue (fields w)) (queue (fields w))
    ∧ (∀ p, p ∈ new →
         incomingOrdersMap (fields w) !! orderId (orderInfo p) = Some p)
    ∧ isLocked (fields w') = false ∧ inFlight (fields w') = []
    ∧ priorityQueue (fields w') = [] ∧ queue (fields w') = []
    ∧ ∀ id, id ∈ priorityQueue (fields w) ∨ id ∈ queue (fields w) →
        incomingOrdersMap (fields w') !! id = None.
Proof.
  intros Hwf Hinf Hlen w'.
  destruct (drain_idle envs w x Hwf Hinf Hlen) as (Hl & Hi & Hp & Hgone).
  fold w' in Hl, Hi, Hp, Hgone.
  pose proof (drain envs w x Hwf Hinf) as Hdrain. fold w' in Hdrain.
  rewrite firstn_all2 in Hdrain by lia.
  assert ((λ p, orderId (orderInfo p))
            <$> omap (λ id, incomingOrdersMap (fields w) !! id)
                     (pending (fields w)) = pending (fields w)) as Hids.
  { apply ids_of_queued; [exact Hwf|]. intros y. apply elem_of_pending. }
  eexists. split; [exact Hdrain|]. split; [exact Hids|].
  apply pending_nil in Hp as [Hpq Hq].
  split.
  2:{ split; [exact Hl|]. split; [exact Hi|]. split; [exact Hpq|].
      split; [exact Hq|].
      intros id Hin. apply elem_of_pending in Hin. apply Hgone. exact Hin. }
  intros p Hnew. apply list_elem_of_omap in Hnew.
  destruct Hnew as (id & Hin & Hlook).
  destruct Hwf as (_ & _ & Hwf). apply elem_of_pending in Hin.
  destruct (Hwf id Hin) as (_ & p' & Hl' & Hid').
  assert (p' = p) as -> by congruence. rewrite Hid'. exact Hlook.
Qed.

Lemma queues_drain_witness :
  let w := run busy [Arrives env0 (incoming "a" OrderInfoStatus.ArchivalCreated);
                     Arrives env0 (incoming "c" OrderInfoStatus.Created)] in
  ∃ new,
    processed (fields (run w (settles [env0; env0; env0])))
    = processed (fields w) ++ new
    ∧ (λ p, orderId (orderInfo p)) <$> new = ["c"; "a"].
Proof.
  destruct (queues_drain
              (run busy [Arrives env0 (incoming "a" OrderInfoStatus.ArchivalCreated);
                         Arrives env0 (incoming "c" OrderInfoStatus.Created)])
              (incoming "x" OrderInfoStatus.Created) [env0; env0; env0])
    as (new & Hnew & Hids & _).
  - assert (lockInv (fields busy)) as Hb by (unfold lockInv; simpl; eauto).
    apply (wf_step (step busy _) (Arrives env0 _));
      [apply wf_step; [exact busy_wf|exact Hb|discriminate]
      |apply lockInv_step; exact Hb|discriminate].
  - reflexivity.
  - vm_compute. lia.
  - exists new. split; [exact Hnew|exact Hids].
Defined.

Lemma pickNextOrder_empty_head w rest :
  priorityQueue (fields w) = "" :: rest →
  fst (pickNextOrder w)
  = Ok (match queue (fields w) with
        | id :: _ =>
            if JS.truthy id then incomingOrdersMap (fields w) !! id else None
        | [] => None
        end)
  ∧ ∃ rest', priorityQueue (fields (snd (pickNextOrder w))) = "" :: rest'.
Proof.
  intros Hpq. unfold pickNextOrder. unfold_universal. rewrite Hpq. simpl.
  destruct (queue (fields w)) as [|id q]; simpl; [rewrite Hpq; eauto|].
  destruct (JS.truthy id) eqn:Hid; simpl; [|rewrite Hpq; eauto].
  split; [reflexivity|]. rewrite Hpq. unfold JS.set_delete.
  rewrite filter_cons. apply truthy_spec in Hid.
  destruct (decide ("" ≠ id)) as [_|Hn]; [eauto|].
  exfalso. apply Hn. congruence.
Qed.

Lemma empty_head_step w rest e :
  priorityQueue (fields w) = "" :: rest → event_ok e →
  ∃ rest', priorityQueue (fields (step w e)) = "" :: rest'.
Proof.
  intros Hpq Hok. destruct e as [env p | env i]; simpl in *.
  - assert (isCreation (status (orderInfo p)) →
            ∃ rest', priorityQueue (fields (snd (tryProcess p w))) = "" :: rest')
      as Htry.
    { intros Hc. destruct (isLocked (fields w)) eqn:Hl.
      - rewrite tryProcess_locked by assumption. cbv zeta.
        destruct Hc as [Hc|Hc]; rewrite Hc; simpl; [|eauto].
        rewrite Hpq. unfold JS.set_add. destruct (decide _); simpl; eauto.
      - rewrite tryProcess_unlocked by assumption. simpl. eauto. }
    assert (∃ rest', JS.set_delete (orderId (orderInfo p))
                       (priorityQueue (fields w)) = "" :: rest') as Hdel.
    { rewrite Hpq. unfold JS.set_delete. rewrite filter_cons.
      destruct (decide ("" ≠ orderId (orderInfo p))) as [_|Hn]; [eauto|].
      exfalso. apply Hn. congruence. }
    unfold process. destruct (status (orderInfo p)).
    + apply Htry. left; reflexivity.
    + apply Htry. right; reflexivity.
    + unfold await. destruct (unlockOrder env _); simpl; eauto.
    + rewrite forget_eq. exact Hdel.
    + unfold bind. rewrite forget_eq. unfold await.
      destruct (unlockOrder env _); exact Hdel.
    + simpl. eauto.
  - destruct (inFlight (fields w) !! i) as [x|] eqn:Hx.
    2:{ pose proof (settle_absent env i w Hx) as E. simpl in E. rewrite E. eauto. }
    rewrite (tryProcess_resume_eq env i w x Hx).
    destruct (processOrder_frame env x w) as [m Hm].
    destruct (processOrder env x w) as [r [s1 c1]]. simpl in *. subst s1.
    set (w2 := MkWorld _ c1).
    assert (priorityQueue (fields w2) = "" :: rest) as Hpq2 by exact Hpq.
    assert (isLocked (fields w2) = false) as Hl2 by reflexivity.
    clearbody w2.
    destruct (pickNextOrder_empty_head w2 rest Hpq2) as [_ [rest' Hrest']].
    destruct (pickNextOrder_frame w2) as (o & pq & q & m' & Hpick).
    rewrite Hpick in *. simpl in Hrest'.
    destruct o as [next|]; simpl; [|eauto].
    rewrite tryProcess_unlocked by exact Hl2. simpl. eauto.
Qed.

(** X8. An empty orderId at the head of the primary queue stays there: the
    pick passes over it, because an empty string is falsy, and takes the head
    of the secondary queue instead, and no sequence of events with non-empty
    orderIds removes it. From then on no order is picked from the primary
    queue. *)
Theorem empty_orderId_blocks_primary w rest es :
  priorityQueue (fields w) = "" :: rest →
  Forall event_ok es →
  fst (pickNextOrder w)
  = Ok (match queue (fields w) with
        | id :: _ =>
            if JS.truthy id then incomingOrdersMap (fields w) !! id else None
        | [] => None
        end)
  ∧ ∃ rest', priorityQueue (fields (run w es)) = "" :: rest'.
Proof.
  intros Hpq Hok. split; [apply (pickNextOrder_empty_head w rest Hpq)|].
  revert w rest Hpq. induction Hok as [|e es He Hes IH]; intros w rest Hpq.
  - eauto.
  - destruct (empty_head_step w rest e Hpq He) as [rest' Hrest'].
    apply (IH (step w e) rest' Hrest').
Qed.

Lemma empty_orderId_blocks_primary_witness :
  ∃ rest',
    priorityQueue
      (fields (run (run busy [Arrives env0 (incoming "" OrderInfoStatus.Created)])
                 [Arrives env0 (incoming "c" OrderInfoStatus.Created);
                  Settles env0 0; Settles env0 0]))
    = "" :: rest'.
Proof.
  refine (proj2 (empty_orderId_blocks_primary
                   (run busy [Arrives env0 (incoming "" OrderInfoStatus.Created)])
                   [] [Arrives env0 (incoming "c" OrderInfoStatus.Created);
                       Settles env0 0; Settles env0 0] _ _)).
  - reflexivity.
  - repeat constructor; discriminate.
Defined.

Lemma arrived_snoc es e p : arrived es p → arrived (es ++ [e]) p.
Proof. intros [env H]. exists env. apply elem_of_app. auto. Qed.

Lemma pickNextOrder_from_map w :
  ∃ o s',
    pickNextOrder w = (Ok o, MkWorld s' (calls w))
    ∧ (∀ p, o = Some p → ∃ id, incomingOrdersMap (fields w) !! id = Some p)
    ∧ (∀ id p, incomingOrdersMap s' !! id = Some p →
         incomingOrdersMap (fields w) !! id = Some p)
    ∧ isLocked s' = isLocked (fields w)
    ∧ inFlight s' = inFlight (fields w)
    ∧ processed s' = processed (fields w).
Proof.
  assert (∃ o s',
            (Ok (@None IncomingOrderContext), w) = (Ok o, MkWorld s' (calls w))
            ∧ (∀ p, o = Some p → ∃ id, incomingOrdersMap (fields w) !! id = Some p)
            ∧ (∀ id p, incomingOrdersMap s' !! id = Some p →
                 incomingOrdersMap (fields w) !! id = Some p)
            ∧ isLocked s' = isLocked (fields w)
            ∧ inFlight s' = inFlight (fields w)
            ∧ processed s' = processed (fields w)) as Hnone.
  { exists None, (fields w). destruct w. simpl.
    split; [reflexivity|]. split; [discriminate|]. auto. }
  unfold pickNextOrder. unfold_universal.
  destruct (JS.or _ _) as [id|]; [|exact Hnone].
  destruct (JS.truthy id); [|exact Hnone].
  simpl. eexists _, _. split; [reflexivity|]. simpl.
  split; [intros p Hp; eauto|].
  split; [|auto].
  intros id' p Hp. apply lookup_delete_Some in Hp as [_ Hp]. exact Hp.
Qed.

Lemma accounted_step es w e :
  accounted es (fields w) → accounted (es ++ [e]) (fields (step w e)).
Proof.
  intros Hacc.
  assert (∀ s', (∀ p, p ∈ processed s' → p ∈ processed (fields w))
                → (∀ p, p ∈ inFlight s' → p ∈ inFlight (fields w))
                → (∀ id p, incomingOrdersMap s' !! id = Some p →
                     incomingOrdersMap (fields w) !! id = Some p)
                → accounted (es ++ [e]) s') as Hsub.
  { intros s' Hp Hi Hm p Hin.
    destruct (Hacc p) as [Ha Hc]; [|split; [apply arrived_snoc; exact Ha|exact Hc]].
    destruct Hin as [Hin|[Hin|[id Hin]]]; eauto. }
  destruct e as [env p | env i]; simpl.
  - assert (isCreation (status (orderInfo p)) →
            accounted (es ++ [Arrives env p]) (fields (snd (tryProcess p w))))
      as Htry.
    { intros Hc.
      assert (arrived (es ++ [Arrives env p]) p) as Hp.
      { exists env. apply elem_of_app. right. left. }
      destruct (isLocked (fields w)) eqn:Hl.
      - rewrite tryProcess_locked by assumption. cbv zeta.
        intros q Hq.
        assert (q ∈ processed (fields w) ∨ q ∈ inFlight (fields w)
                ∨ (∃ id, incomingOrdersMap (fields w) !! id = Some q)
                ∨ q = p) as Hcases.
        { destruct (status (orderInfo p)); simpl in Hq;
            (destruct Hq as [Hq|[Hq|[id Hq]]]; [auto|auto|];
             destruct (decide (id = orderId (orderInfo p))) as [->|Hne];
             [rewrite lookup_insert_eq in Hq; right; right; right; congruence
             |rewrite lookup_insert_ne in Hq by congruence; eauto 6]). }
        destruct Hcases as [H|[H|[H| ->]]]; [| | |auto];
          (destruct (Hacc q) as [Ha Hcq]; [tauto|];
           split; [apply arrived_snoc; exact Ha|exact Hcq]).
      - rewrite tryProcess_unlocked by assumption. simpl.
        intros q Hq.
        assert (q ∈ processed (fields w) ∨ q ∈ inFlight (fields w)
                ∨ (∃ id, incomingOrdersMap (fields w) !! id = Some q)
                ∨ q = p) as Hcases.
        { simpl in Hq. rewrite !elem_of_app, !list_elem_of_singleton in Hq.
          tauto. }
        destruct Hcases as [H|[H|[H| ->]]]; [| | |auto];
          (destruct (Hacc q) as [Ha Hcq]; [tauto|];
           split; [apply arrived_snoc; exact Ha|exact Hcq]). }
    unfold process. destruct (status (orderInfo p)).
    + apply Htry. left; reflexivity.
    + apply Htry. right; reflexivity.
    + unfold await. destruct (unlockOrder env _); simpl; apply Hsub; auto.
    + rewrite forget_eq. apply Hsub; simpl; auto.
      intros id q Hq. apply lookup_delete_Some in Hq as [_ Hq]. exact Hq.
    + unfold bind. rewrite forget_eq. unfold await.
      destruct (unlockOrder env _); apply Hsub; simpl; auto;
        intros id q Hq; apply lookup_delete_Some in Hq as [_ Hq]; exact Hq.
    + apply Hsub; auto.
  - destruct (inFlight (fields w) !! i) as [x|] eqn:Hx.
    2:{ pose proof (settle_absent env i w Hx) as E. simpl in E. rewrite E.
        apply Hsub; auto. }
    rewrite (tryProcess_resume_eq env i w x Hx).
    destruct (processOrder_frame env x w) as [m Hm].
    destruct (processOrder env x w) as [r [s1 c1]]. simpl in *. subst s1.
    set (w2 := MkWorld _ c1).
    assert (isLocked (fields w2) = false) as Hl2 by reflexivity.
    assert (processed (fields w2) = processed (fields w)) as Hp2 by reflexivity.
    assert (∀ q, q ∈ inFlight (fields w2) → q ∈ inFlight (fields w)) as Hi2.
    { intros q Hq. simpl in Hq. eapply list_elem_of_delete_inv. exact Hq. }
    assert (incomingOrdersMap (fields w2) = incomingOrdersMap (fields w)) as Hm2
      by reflexivity.
    clearbody w2.
    destruct (pickNextOrder_from_map w2)
      as (o & s' & Hpick & Ho & Hmap & Hl' & Hi' & Hp').
    rewrite Hpick. simpl.
    destruct o as [next|]; simpl.
    + rewrite tryProcess_unlocked by (simpl; congruence). simpl.
      intros q Hq.
      assert (q ∈ processed (fields w) ∨ q ∈ inFlight (fields w)
              ∨ (∃ id, incomingOrdersMap (fields w) !! id = Some q)) as Hcases.
      { destruct (Ho next eq_refl) as [nid Hnid]. rewrite Hm2 in Hnid.
        simpl in Hq. rewrite Hi', Hp', Hp2 in Hq.
        rewrite !elem_of_app, !list_elem_of_singleton in Hq.
        destruct Hq as [[Hq| ->]|[[Hq| ->]|[id Hq]]]; eauto 6.
        apply Hmap in Hq. rewrite Hm2 in Hq. eauto 6. }
      destruct (Hacc q Hcases) as [Ha Hcq].
      split; [apply arrived_snoc; exact Ha|exact Hcq].
    + apply Hsub.
      * rewrite Hp', Hp2. auto.
      * rewrite Hi'. exact Hi2.
      * intros id q Hq. apply Hmap in Hq. rewrite Hm2 in Hq. exact Hq.
Qed.

(** X9. The processor processes only what it was given: every order for
    which [processOrder] has begun, after any sequence of events since the
    constructor, was the argument of an earlier call of [process], and that
    call had status [Created] or [ArchivalCreated]. Events of any other
    status never start the processing of an order. *)
Theorem processes_only_arrivals arg s0 es p :
  constructor arg = Ok s0 →
  p ∈ processed (fields (run (boot s0) es)) →
  arrived es p ∧ isCreation (status (orderInfo p)).
Proof.
  intros Hc Hp.
  assert (accounted es (fields (run (boot s0) es))) as Hacc; [|apply Hacc; auto].
  clear Hp p. induction es as [|e es IH] using rev_ind.
  - destruct (constructor_idle arg s0 Hc) as (_ & Hi & _ & _ & Hp).
    intros p [H|[H|[id H]]]; simpl in H.
    + rewrite Hp in H. inversion H.
    + rewrite Hi in H. inversion H.
    + unfold constructor in Hc.
      destruct (match _ with Some _ => _ | None => _ end); [discriminate|].
      injection Hc as <-. simpl in H. rewrite lookup_empty in H. discriminate.
  - unfold run. rewrite fold_left_app. simpl. apply accounted_step. exact IH.
Qed.

Lemma processes_only_arrivals_witness :
  arrived [Arrives env0 (incoming "x" OrderInfoStatus.Created);
           Arrives env0 (incoming "x" OrderInfoStatus.Fulfilled)]
          (incoming "x" OrderInfoStatus.Created)
  ∧ isCreation (status (orderInfo (incoming "x" OrderInfoStatus.Created))).
Proof.
  apply (processes_only_arrivals None idle
           [Arrives env0 (incoming "x" OrderInfoStatus.Created);
            Arrives env0 (incoming "x" OrderInfoStatus.Fulfilled)]
           (incoming "x" OrderInfoStatus.Created)).
  - reflexivity.
  - simpl. left.
Defined.

End SchedulerFacts.

(** ** Executor: start-up and dispatch *)

Module DispatchFacts.
Import Executor Fixtures OrderFilters Observations ExecutorFacts.

Lemma StronglySorted_lookup {A} (R : A → A → Prop) (l : list A) :
  StronglySorted R l →
  ∀ i j a b, l !! i = Some a → l !! j = Some b → i < j → R a b.
Proof.
  induction 1 as [|x l Hs IH Hall]; intros i j a b Hi Hj Hlt.
  - discriminate.
  - destruct j as [|j]; [lia|]. simpl in Hj. destruct i as [|i]; simpl in Hi.
    + injection Hi as <-. rewrite Forall_forall in Hall. apply Hall.
      eapply list_elem_of_lookup_2. exact Hj.
    + apply (IH i j); [assumption|assumption|lia].
Qed.

(** The ranges that the [forEach] pushes: one per threshold, from the
    amount of the threshold before it. *)
Lemma forEachThreshold_ranges chain l : ∀ prev acc r,
  forEachThreshold chain prev l acc = Ok r →
  r = acc
      ++ zip_with (λ p t, {| usdWorthFrom := thresholdAmountInUSD p;
                             usdWorthTo := thresholdAmountInUSD t;
                             range_minBlockConfirmations :=
                               minBlockConfirmations t |})
                  (prev :: l) l.
Proof.
  induction l as [|t l IH]; intros prev acc r; simpl.
  - intros [= <-]. rewrite app_nil_r. reflexivity.
  - destruct (_ <=? _)%Z; [discriminate|].
    destruct (_ <=? _)%Z; [discriminate|].
    intros H. rewrite (IH _ _ _ H). rewrite <- app_assoc. reflexivity.
Qed.

(** X10. When [getConfirmationRanges] returns, there is one range per
    threshold, in ascending order of USD amount: a range ends at the amount
    of its threshold and requires its confirmations, the first range starts
    at 0 and every other range starts where the range before it ends, so the
    ranges are contiguous; the required confirmations grow strictly from
    range to range and lie strictly between 0 and the hard cap of the chain.
    Without thresholds there is no range. *)
Theorem confirmation_ranges chain thresholds ranges :
  getConfirmationRanges chain thresholds = Ok ranges →
  let sorted := sort byUsdWorthAsc (default [] thresholds) in
  length ranges = length (default [] thresholds)
  ∧ (∀ i r, ranges !! i = Some r →
       ∃ t, sorted !! i = Some t
            ∧ usdWorthTo r = thresholdAmountInUSD t
            ∧ range_minBlockConfirmations r = minBlockConfirmations t)
  ∧ (∀ r, ranges !! 0 = Some r → usdWorthFrom r = 0%Z)
  ∧ (∀ i r r', ranges !! i = Some r → ranges !! S i = Some r' →
       usdWorthFrom r' = usdWorthTo r
       ∧ (usdWorthTo r ≤ usdWorthTo r')%Z
       ∧ (range_minBlockConfirmations r < range_minBlockConfirmations r')%Z)
  ∧ (∀ r, r ∈ ranges →
       (0 < range_minBlockConfirmations r
        < BLOCK_CONFIRMATIONS_HARD_CAPS chain)%Z)
  ∧ (default [] thresholds = [] → ranges = []).
Proof.
  intros H sorted. unfold getConfirmationRanges in H. fold sorted in H.
  pose proof (forEachThreshold_ranges _ _ _ _ _ H) as Hr.
  rewrite app_nil_l in Hr.
  pose proof (forEachThreshold_ok _ _ _ _ _ H) as [Hconf Hcap].
  pose proof (sort_sorted (default [] thresholds)) as Husd. fold sorted in Husd.
  pose proof (sort_perm byUsdWorthAsc (default [] thresholds)) as Hperm.
  fold sorted in Hperm.
  assert (∀ i r, ranges !! i = Some r →
            ∃ p t, (zeroThreshold :: sorted) !! i = Some p
                   ∧ sorted !! i = Some t
                   ∧ r = {| usdWorthFrom := thresholdAmountInUSD p;
                            usdWorthTo := thresholdAmountInUSD t;
                            range_minBlockConfirmations :=
                              minBlockConfirmations t |}) as Hlook.
  { intros i r Hi. rewrite Hr in Hi.
    apply lookup_zip_with_Some in Hi as (p & t & -> & Hp & Ht).
    exists p, t. auto. }
  split.
  { rewrite Hr. rewrite length_zip_with_r by (simpl; lia).
    apply Permutation_length. exact Hperm. }
  split.
  { intros i r Hi. destruct (Hlook i r Hi) as (p & t & _ & Ht & ->).
    exists t. auto. }
  split.
  { intros r Hi. destruct (Hlook 0 r Hi) as (p & t & Hp & _ & ->).
    injection Hp as <-. reflexivity. }
  split.
  { intros i r r' Hi Hi'.
    destruct (Hlook i r Hi) as (p & t & _ & Ht & ->).
    destruct (Hlook (S i) r' Hi') as (p' & t' & Hp' & Ht' & ->).
    simpl in Hp'. assert (p' = t) as -> by congruence. simpl.
    split; [reflexivity|]. split.
    - apply (StronglySorted_lookup usd_le sorted Husd i (S i) t t');
        [assumption|assumption|lia].
    - apply StronglySorted_inv in Hconf as [Hconf _].
      apply (StronglySorted_lookup conf_lt sorted Hconf i (S i) t t');
        [assumption|assumption|lia]. }
  split.
  { intros r Hin. apply list_elem_of_lookup_1 in Hin as [i Hi].
    destruct (Hlook i r Hi) as (p & t & _ & Ht & ->). simpl.
    apply list_elem_of_lookup_2 in Ht.
    split.
    - apply StronglySorted_inv in Hconf as [_ Hzero].
      rewrite Forall_forall in Hzero.
      apply (Hzero t). exact Ht.
    - rewrite Forall_forall in Hcap. apply Hcap. exact Ht. }
  intros Hnil. rewrite Hr. subst sorted. rewrite Hnil. reflexivity.
Qed.

Lemma confirmation_ranges_witness :
  let first := {| usdWorthFrom := 0; usdWorthTo := 100;
                  range_minBlockConfirmations := 3 |} in
  let second := {| usdWorthFrom := 100; usdWorthTo := 1000;
                   range_minBlockConfirmations := 6 |} in
  getConfirmationRanges Ethereum
    (Some [ {| thresholdAmountInUSD := 1000; minBlockConfirmations := 6 |};
            {| thresholdAmountInUSD := 100; minBlockConfirmations := 3 |} ])
  = Ok [first; second]
  ∧ usdWorthFrom second = usdWorthTo first
  ∧ (usdWorthTo first ≤ usdWorthTo second)%Z
  ∧ (range_minBlockConfirmations first < range_minBlockConfirmations second)%Z.
Proof.
  split; [reflexivity|].
  refine (proj1 (proj2 (proj2 (proj2
    (confirmation_ranges Ethereum
       (Some [ {| thresholdAmountInUSD := 1000; minBlockConfirmations := 6 |};
               {| thresholdAmountInUSD := 100; minBlockConfirmations := 3 |} ])
       _ _)))) 0 _ _ _ _).
  - reflexivity.
  - reflexivity.
  - reflexivity.
Defined.

Lemma NoDup_fmap_eq {A B} (f : A → B) (l : list A) x y :
  NoDup (f <$> l) → x ∈ l → y ∈ l → f x = f y → x = y.
Proof.
  induction l as [|a l IH]; intros Hnd Hx Hy Hf; [inversion Hx|].
  rewrite fmap_cons in Hnd. apply NoDup_cons in Hnd as [Hnotin Hnd].
  apply elem_of_cons in Hx as [->|Hx]; apply elem_of_cons in Hy as [->|Hy].
  - reflexivity.
  - exfalso. apply Hnotin. rewrite Hf. apply list_elem_of_fmap_2. exact Hy.
  - exfalso. apply Hnotin. rewrite <- Hf. apply list_elem_of_fmap_2. exact Hx.
  - apply IH; assumption.
Qed.

(** Two sorted lists with the same elements are equal, where the order
    tells their elements apart. *)
Lemma sorted_perm_eq {A} (R : A → A → Prop) (l1 : list A) : ∀ l2,
  (∀ x1 x2, x1 ∈ l1 → x2 ∈ l2 → R x1 x2 → R x2 x1 → x1 = x2) →
  StronglySorted R l1 → StronglySorted R l2 → Permutation l1 l2 → l1 = l2.
Proof.
  induction l1 as [|x l1 IH]; intros l2 Hanti Hs1 Hs2 Hperm.
  - apply Permutation_nil in Hperm. congruence.
  - destruct l2 as [|y l2].
    { symmetry in Hperm. apply Permutation_nil in Hperm. discriminate. }
    apply StronglySorted_inv in Hs1 as [Hs1 Hx].
    apply StronglySorted_inv in Hs2 as [Hs2 Hy].
    rewrite Forall_forall in Hx, Hy.
    assert (x = y) as ->.
    { assert (x ∈ y :: l2) as Hxin by (rewrite <- Hperm; left).
      assert (y ∈ x :: l1) as Hyin by (rewrite Hperm; left).
      apply elem_of_cons in Hxin as [?|Hxin]; [assumption|].
      apply elem_of_cons in Hyin as [?|Hyin]; [congruence|].
      apply Hanti; [left|left|apply Hx; exact Hyin|apply Hy; exact Hxin]. }
    f_equal. apply Permutation_cons_inv in Hperm.
    apply IH; [|assumption|assumption|assumption].
    intros x1 x2 H1 H2. apply Hanti; right; assumption.
Qed.

(** X21. The order in which the thresholds of a chain are listed does not
    matter when their USD amounts are pairwise distinct: two listings of the
    same thresholds give the same ranges, or the same error. *)
Theorem thresholds_order_irrelevant chain l l' :
  Permutation l l' →
  NoDup (thresholdAmountInUSD <$> l) →
  sort byUsdWorthAsc l = sort byUsdWorthAsc l'
  ∧ getConfirmationRanges chain (Some l) = getConfirmationRanges chain (Some l').
Proof.
  intros Hperm Hnd.
  assert (sort byUsdWorthAsc l = sort byUsdWorthAsc l') as Hsort.
  { apply (sorted_perm_eq usd_le).
    - intros x1 x2 H1 H2 H12 H21.
      rewrite (sort_perm byUsdWorthAsc l) in H1.
      rewrite (sort_perm byUsdWorthAsc l'), <- Hperm in H2.
      apply (NoDup_fmap_eq thresholdAmountInUSD l); [assumption..|].
      unfold usd_le in *. lia.
    - apply sort_sorted.
    - apply sort_sorted.
    - rewrite !sort_perm. exact Hperm. }
  split; [exact Hsort|].
  unfold getConfirmationRanges. simpl. rewrite Hsort. reflexivity.
Qed.

Lemma thresholds_order_irrelevant_witness :
  getConfirmationRanges Ethereum
    (Some [ {| thresholdAmountInUSD := 1000; minBlockConfirmations := 6 |};
            {| thresholdAmountInUSD := 100; minBlockConfirmations := 3 |} ])
  = getConfirmationRanges Ethereum
      (Some [ {| thresholdAmountInUSD := 100; minBlockConfirmations := 3 |};
              {| thresholdAmountInUSD := 1000; minBlockConfirmations := 6 |} ]).
Proof.
  refine (proj2 (thresholds_order_irrelevant Ethereum
    [ {| thresholdAmountInUSD := 1000; minBlockConfirmations := 6 |};
      {| thresholdAmountInUSD := 100; minBlockConfirmations := 3 |} ]
    [ {| thresholdAmountInUSD := 100; minBlockConfirmations := 3 |};
      {| thresholdAmountInUSD := 1000; minBlockConfirmations := 6 |} ] _ _)).
  - apply perm_swap.
  - apply (bool_decide_unpack _). vm_compute. exact I.
Defined.

(** The table that the loop of [init] builds: a chain has the entry of its
    last definition, or the entry it had before. *)
Lemma initChains_table cfg defs : ∀ chains0 chains',
  initChains cfg defs chains0 = Ok chains' →
  ∀ c,
    (chains' c = chains0 c ∧ ∀ d, d ∈ defs → def_chain d ≠ c)
    ∨ (∃ before d after sc,
         defs = before ++ d :: after ∧ def_chain d = c
         ∧ (∀ d', d' ∈ after → def_chain d' ≠ c)
         ∧ initChain cfg d = Ok sc ∧ chains' c = Some sc).
Proof.
  induction defs as [|d defs IH]; intros chains0 chains'; simpl.
  - intros [= <-] c. left. split; [reflexivity|]. intros d H. inversion H.
  - destruct (initChain cfg d) as [sc0|] eqn:E; [|discriminate].
    intros H c. destruct (IH _ _ H c) as [[Hsame Hnone]|Hlast].
    + destruct (bool_decide (c = def_chain d)) eqn:Eb.
      * apply bool_decide_eq_true in Eb. right.
        exists [], d, defs, sc0. simpl. auto.
      * apply bool_decide_eq_false in Eb. left. split; [exact Hsame|].
        intros d' Hd'. apply elem_of_cons in Hd' as [->|Hd']; [congruence|auto].
    + destruct Hlast as (before & d' & after & sc & -> & Hc & Hafter & Hsc & Hlook).
      right. exists (d :: before), d', after, sc. simpl. auto.
Qed.

(** X11. After [init] of a new executor has succeeded, the executor holds an
    entry for exactly the chains that [config.chains] defines; where a chain
    is defined more than once the entry is that of its last definition; the
    entry carries the chain and the beneficiary of that definition; the
    buckets are those of the configuration; and every later [init], with
    whatever configuration, returns without changing the executor. *)
Theorem init_chain_table cfg ex :
  init new cfg = Ok ex →
  buckets ex = launch_buckets cfg
  ∧ (∀ c, is_Some (chains ex c)
          ↔ ∃ d, d ∈ launch_chains cfg ∧ def_chain d = c)
  ∧ (∀ c sc, chains ex c = Some sc →
       ∃ before d after,
         launch_chains cfg = before ++ d :: after
         ∧ def_chain d = c
         ∧ (∀ d', d' ∈ after → def_chain d' ≠ c)
         ∧ initChain cfg d = Ok sc
         ∧ chain sc = c ∧ beneficiary sc = def_beneficiary d)
  ∧ (∀ cfg', init ex cfg' = Ok ex).
Proof.
  unfold init at 1. simpl.
  destruct (initChains cfg (launch_chains cfg) (λ _, None)) as [chains'|] eqn:E;
    [|discriminate].
  intros [= <-]. simpl.
  pose proof (initChains_table _ _ _ _ E) as Htable.
  split; [reflexivity|]. split; [|split].
  - intros c. destruct (Htable c) as [[Hsame Hnone]|Hlast].
    + rewrite Hsame. split.
      * intros [x Hx]. discriminate.
      * intros (d & Hd & Hc). exfalso. apply (Hnone d Hd Hc).
    + destruct Hlast as (before & d & after & sc & Hdefs & Hc & _ & _ & Hlook).
      rewrite Hlook. split; [|eauto].
      intros _. exists d. split; [|exact Hc].
      rewrite Hdefs. apply elem_of_app. right. left.
  - intros c sc Hlook. destruct (Htable c) as [[Hsame _]|Hlast].
    + rewrite Hsame in Hlook. discriminate.
    + destruct Hlast as (before & d & after & sc' & Hdefs & Hc & Hafter & Hsc & Hlook').
      assert (sc' = sc) as -> by congruence.
      exists before, d, after. do 4 (split; [assumption|]).
      unfold initChain in Hsc.
      destruct (getConfirmationRanges _ _); [|discriminate].
      injection Hsc as <-. simpl. auto.
  - intros cfg'. reflexivity.
Qed.

Lemma init_chain_table_witness :
  ∃ before d after,
    launch_chains (launch [rejectAll]) = before ++ d :: after
    ∧ def_chain d = Polygon
    ∧ (∀ d', d' ∈ after → def_chain d' ≠ Polygon)
    ∧ initChain (launch [rejectAll]) d
      = Ok {| chain := Polygon; srcFilters := [];
              dstFilters := [rejectAll Polygon; acceptAll Polygon];
              usdAmountConfirmations := []; beneficiary := "beneficiary" |}
    ∧ Polygon = Polygon ∧ "beneficiary" = def_beneficiary d.
Proof.
  refine (proj1 (proj2 (proj2
    (init_chain_table (launch [rejectAll]) (executorOf (launch [rejectAll])) _)))
    Polygon _ _).
  - reflexivity.
  - reflexivity.
Defined.

(** X12. An event whose take chain or give chain is defined nowhere in
    [config.chains] is dropped by the executor that [init] built from a new
    one, whatever its status: [executeOrder] returns [false], no filter
    runs, the processor is not called and nothing changes, and [execute]
    returns normally. *)
Theorem unconfigured_chain_drops cfg ex ev o w :
  init new cfg = Ok ex → fields w = ex →
  order ev = Some o → orderId ev ≠ "" →
  (∀ d, d ∈ launch_chains cfg → def_chain d ≠ chainId (take o))
  ∨ (∀ d, d ∈ launch_chains cfg → def_chain d ≠ chainId (give o)) →
  executeOrder ev w = (Ok false, w) ∧ execute ev w = (Ok tt, w).
Proof.
  intros Hinit Hw Ho Hid Hmissing.
  assert (executeOrder ev w = (Ok false, w)) as Hdrop.
  { rewrite executeOrder_paths. rewrite Ho.
    apply truthy_spec in Hid. rewrite Hid. simpl. rewrite Hw.
    destruct (chains ex (chainId (take o))) as [tc|] eqn:Htc; [|reflexivity].
    destruct (chains ex (chainId (give o))) as [gc|] eqn:Hgc; [|reflexivity].
    exfalso.
    destruct (init_lookup _ _ _ _ Hinit Htc) as (dt & Hdt & _ & Hdtc).
    destruct (init_lookup _ _ _ _ Hinit Hgc) as (dg & Hdg & _ & Hdgc).
    destruct Hmissing as [H|H];
      [apply (H dt Hdt Hdtc)|apply (H dg Hdg Hdgc)]. }
  split; [exact Hdrop|].
  unfold execute, try_catch, bind. rewrite Hdrop. reflexivity.
Qed.

Lemma unconfigured_chain_drops_witness :
  executeOrder {| orderId := "e"; status := OrderInfoStatus.Fulfilled;
                  order := Some orderToSolana |}
    (MkWorld (executorOf (launch [])) [])
  = (Ok false, MkWorld (executorOf (launch [])) []).
Proof.
  refine (proj1 (unconfigured_chain_drops (launch []) (executorOf (launch []))
                   {| orderId := "e"; status := OrderInfoStatus.Fulfilled;
                      order := Some orderToSolana |}
                   orderToSolana (MkWorld (executorOf (launch [])) [])
                   _ _ _ _ _)).
  - reflexivity.
  - reflexivity.
  - reflexivity.
  - discriminate.
  - left. intros d Hd. simpl in Hd.
    apply elem_of_cons in Hd as [->|Hd]; [discriminate|].
    apply list_elem_of_singleton in Hd as ->. discriminate.
Defined.

Lemma forwards_app l1 l2 : forwards (l1 ++ l2) = forwards l1 ++ forwards l2.
Proof. unfold forwards. apply omap_app. Qed.

Lemma forwards_filterRuns o (filters : list OrderFilter) :
  forwards (filterRuns o filters) = [].
Proof.
  unfold filterRuns. generalize 0 as n.
  assert (∀ (l : list OrderFilter) (f : nat → nat),
            forwards (imap (λ i _, RunFilter (f i) o) l) = []) as H.
  { induction l as [|x l IH]; intros f; [reflexivity|].
    simpl. unfold forwards in *. simpl. apply (IH (λ i, f (S i))). }
  intros _. apply (H filters (λ i, i)).
Qed.

(** X22. [execute] never throws and never changes the executor. It hands the
    event to a processor exactly when [executeOrder] returns [true], and then
    to one processor only: that of the order's take chain, with the event,
    the buckets, the give chain and [attempts] 0. When [executeOrder] returns
    [false] or throws, be it for a missing order, for a filter that rejects
    or for one that fails, no processor is called. *)
Theorem execute_dispatch ev w :
  let r := execute ev w in
  fst r = Ok tt
  ∧ fields (snd r) = fields w
  ∧ snd r = snd (executeOrder ev w)
  ∧ ∃ extra,
      calls (snd r) = calls w ++ extra
      ∧ (fst (executeOrder ev w) ≠ Ok true → forwards extra = [])
      ∧ (fst (executeOrder ev w) = Ok true →
         ∃ o takeChain giveChain,
           order ev = Some o
           ∧ chains (fields w) (chainId (take o)) = Some takeChain
           ∧ chains (fields w) (chainId (give o)) = Some giveChain
           ∧ forwards extra
             = [(chain takeChain, dispatched (fields w) ev giveChain)]).
Proof.
  cbv zeta.
  assert (execute ev w = (Ok tt, snd (executeOrder ev w))) as Hex.
  { unfold execute, try_catch, bind, ret.
    destruct (executeOrder ev w) as [[b|e] w']; reflexivity. }
  rewrite Hex. simpl. split; [reflexivity|].
  rewrite executeOrder_paths.
  assert (∀ l : list Call, l = l ++ []) as Hnil
    by (intros l; symmetry; apply app_nil_r).
  destruct (order ev) as [o|];
    [|split; [reflexivity|]; split; [reflexivity|];
      exists []; split; [apply Hnil|]; split; [reflexivity|discriminate]].
  destruct (negb _);
    [split; [reflexivity|]; split; [reflexivity|];
     exists []; split; [apply Hnil|]; split; [reflexivity|discriminate]|].
  destruct (chains (fields w) (chainId (take o))) as [tc|] eqn:Htc;
    [|split; [reflexivity|]; split; [reflexivity|];
      exists []; split; [apply Hnil|]; split; [reflexivity|discriminate]].
  destruct (chains (fields w) (chainId (give o))) as [gc|] eqn:Hgc;
    [|split; [reflexivity|]; split; [reflexivity|];
      exists []; split; [apply Hnil|]; split; [reflexivity|discriminate]].
  cbv zeta. destruct (runsFilters (status ev)).
  - destruct (settle_all _) as [bs|e]; [destruct (forallb _ bs)|]; simpl.
    + split; [reflexivity|]. split; [reflexivity|].
      eexists. split; [rewrite <- app_assoc; reflexivity|].
      split; [congruence|]. intros _. exists o, tc, gc.
      do 3 (split; [first [reflexivity|assumption]|]).
      rewrite forwards_app, forwards_filterRuns. reflexivity.
    + split; [reflexivity|]. split; [reflexivity|].
      eexists. split; [reflexivity|].
      split; [intros _; apply forwards_filterRuns|discriminate].
    + split; [reflexivity|]. split; [reflexivity|].
      eexists. split; [reflexivity|].
      split; [intros _; apply forwards_filterRuns|discriminate].
  - simpl. split; [reflexivity|]. split; [reflexivity|].
    eexists. split; [reflexivity|].
    split; [congruence|]. intros _. exists o, tc, gc.
    do 3 (split; [first [reflexivity|assumption]|]). reflexivity.
Qed.

Section Whitelist.

Variable calculateId : OrderData → string.

Lemma whitelistedOrderId_spec ids c o ctx :
  whitelistedOrderId calculateId ids c o ctx
  = Resolved (bool_decide (calculateId o ∈ ids)).
Proof.
  unfold whitelistedOrderId. f_equal.
  destruct (existsb _ ids) eqn:E; symmetry.
  - apply bool_decide_eq_true. apply existsb_exists in E as (x & Hx & Hf).
    apply String.eqb_eq in Hf as <-. apply list_elem_of_In. exact Hx.
  - apply bool_decide_eq_false. intros H. apply list_elem_of_In in H.
    assert (existsb (λ orderId, String.eqb orderId (calculateId o)) ids = true)
      as Hyes; [|congruence].
    apply existsb_exists. exists (calculateId o).
    split; [exact H|apply String.eqb_refl].
Qed.

(** X13. The filter [whitelistedOrderId] always resolves, to [true] exactly
    for the orders whose calculated id is one of the listed ids. Installed as
    a global filter, it makes the executor hand a [Created] or
    [ArchivalCreated] order to a processor only if the order's calculated id
    is on the list; with an empty list no such order is handed on. *)
Theorem whitelist_gates_creation ids cfg ex fs ev o w :
  init new cfg = Ok ex → fields w = ex →
  launch_filters cfg = Some fs →
  whitelistedOrderId calculateId ids ∈ fs →
  order ev = Some o →
  UniversalProcessor.isCreation (status ev) →
  (∀ c ctx, whitelistedOrderId calculateId ids c o ctx
            = Resolved (bool_decide (calculateId o ∈ ids)))
  ∧ (fst (executeOrder ev w) = Ok true → calculateId o ∈ ids)
  ∧ (∀ c p, ProcessorProcess c p ∈ calls (snd (executeOrder ev w)) →
       ProcessorProcess c p ∈ calls w ∨ calculateId o ∈ ids).
Proof.
  intros Hinit Hw Hfs Hin Ho Hcr.
  split; [intros c ctx; apply whitelistedOrderId_spec|].
  apply runsFilters_spec in Hcr.
  rewrite executeOrder_paths. rewrite Ho.
  destruct (negb _); [split; [discriminate|simpl; auto]|].
  rewrite Hw.
  destruct (chains ex (chainId (take o))) as [tc|] eqn:Htc;
    [|split; [discriminate|simpl; auto]].
  destruct (chains ex (chainId (give o))) as [gc|] eqn:Hgc;
    [|split; [discriminate|simpl; auto]].
  cbv zeta. rewrite Hcr.
  set (ctx := {| filter_giveChain := chain gc; filter_takeChain := chain tc |}).
  destruct (settle_all _) as [bs|e] eqn:Es.
  2:{ split; [discriminate|]. simpl. intros c p H.
      apply elem_of_app in H as [H|H]; [auto|].
      unfold filterRuns in H. apply elem_of_lookup_imap_1 in H as (i & f & H & _).
      discriminate. }
  destruct (forallb (λ it, it) bs) eqn:Ef.
  2:{ split; [discriminate|]. simpl. intros c p H.
      apply elem_of_app in H as [H|H]; [auto|].
      unfold filterRuns in H. apply elem_of_lookup_imap_1 in H as (i & f & H & _).
      discriminate. }
  assert (calculateId o ∈ ids) as Hlisted; [|simpl; auto].
  pose proof (proj1 (settle_all_accepts
                       (imap (λ i filter, (RunFilter i o, filter o ctx))
                             (dstFilters tc ++ srcFilters gc)))
                    (ex_intro _ bs (conj Es Ef))) as Hall.
  rewrite answers_of_filters in Hall.
  destruct (init_lookup _ _ _ _ Hinit Htc) as (dt & Hdt & Hit & Hdtc).
  apply initChain_filters in Hit as (_ & Hdst & _).
  specialize (Hall (whitelistedOrderId calculateId ids (def_chain dt) o ctx)).
  rewrite whitelistedOrderId_spec in Hall.
  assert (Resolved (bool_decide (calculateId o ∈ ids)) = Resolved true) as Hyes.
  { apply Hall. apply list_elem_of_fmap.
    exists (whitelistedOrderId calculateId ids (def_chain dt)).
    split; [rewrite whitelistedOrderId_spec; reflexivity|].
    rewrite Hdst. rewrite !elem_of_app. left. right. right.
    unfold globalFilters. rewrite Hfs. simpl.
    apply list_elem_of_fmap.
    exists (whitelistedOrderId calculateId ids). auto. }
  injection Hyes as Hyes. apply bool_decide_eq_true in Hyes. exact Hyes.
Qed.

End Whitelist.

Lemma whitelist_gates_creation_witness :
  fst (executeOrder (event "e" OrderInfoStatus.Created)
         (MkWorld
            (executorOf
               {| launch_filters := Some [whitelistedOrderId (λ _, "id") ["id"]];
                  launch_chains := [chainDef Arbitrum []; chainDef Polygon []];
                  launch_buckets := [usdc] |}) [])) = Ok true
  ∧ "id" ∈ ["id"].
Proof.
  split; [reflexivity|].
  refine (proj1 (proj2
    (whitelist_gates_creation (λ _, "id") ["id"]
       {| launch_filters := Some [whitelistedOrderId (λ _, "id") ["id"]];
          launch_chains := [chainDef Arbitrum []; chainDef Polygon []];
          launch_buckets := [usdc] |}
       _ [whitelistedOrderId (λ _, "id") ["id"]]
       (event "e" OrderInfoStatus.Created) order0 (MkWorld _ [])
       _ _ _ _ _ _)) _).
  - reflexivity.
  - reflexivity.
  - reflexivity.
  - left.
  - reflexivity.
  - left. reflexivity.
  - reflexivity.
Defined.

End DispatchFacts.

(** ** StrictProcessor: the paths of [process] *)

Module StrictPathFacts.
Import StrictProcessor Fixtures Scenarios Observations StrictFacts.

Lemma statusCalls_app l1 l2 :
  statusCalls (l1 ++ l2) = statusCalls l1 ++ statusCalls l2.
Proof. unfold statusCalls. apply List.filter_app. Qed.

Lemma unlockRequests_app l1 l2 :
  unlockRequests (l1 ++ l2) = unlockRequests l1 ++ unlockRequests l2.
Proof. unfold unlockRequests. apply List.filter_app. Qed.

(** The waiting loop asks for the status at most [remaining] times, and does
    nothing else but sleep. *)
Lemma waitFulfilled_polls env id chain remaining : ∀ asked state w,
  ∃ extra,
    snd (waitFulfilled env id chain remaining asked state w)
    = MkWorld (fields w) (calls w ++ extra)
    ∧ length (statusCalls extra) ≤ remaining
    ∧ unlockRequests extra = []
    ∧ sends extra = [].
Proof.
  induction remaining as [|n IH]; intros asked state w; simpl.
  - exists []. rewrite app_nil_r.
    destruct (bool_decide _); destruct w; simpl; auto.
  - destruct (bool_decide _).
    { exists []. rewrite app_nil_r. destruct w; simpl. repeat split. lia. }
    unfold_monad. simpl.
    destruct (getTakeOrderStatus env id chain asked) as [st|]; simpl.
    + destruct (IH (S asked) st
                  (MkWorld (fields w)
                     ((calls w ++ [GetTakeOrderStatus id chain])
                      ++ [Sleep 2000])))
        as (extra & Hw & Hn & Hu & Hs).
      exists ([GetTakeOrderStatus id chain; Sleep 2000] ++ extra).
      rewrite Hw. simpl. split; [|split; [|split]].
      * f_equal. rewrite <- !app_assoc. reflexivity.
      * lia.
      * exact Hu.
      * exact Hs.
    + exists [GetTakeOrderStatus id chain]. simpl. repeat split. lia.
Qed.

(** The waiting loop gives up after [remaining] further status calls, none
    of which shows the order fulfilled. *)
Lemma waitFulfilled_gives_up env id chain remaining : ∀ asked state w,
  state ≠ Some OrderState.Fulfilled →
  (∀ k, k < remaining →
     ∃ st, getTakeOrderStatus env id chain (asked + k) = Resolved st
           ∧ st ≠ Some OrderState.Fulfilled) →
  fst (waitFulfilled env id chain remaining asked state w)
  = Throw (Error "Failed to wait for order fulfillment, retries limit reached")
  ∧ length (statusCalls
              (calls (snd (waitFulfilled env id chain remaining asked state w))))
    = length (statusCalls (calls w)) + remaining.
Proof.
  induction remaining as [|n IH]; intros asked state w Hstate Hnone; simpl.
  - rewrite bool_decide_eq_false_2 by exact Hstate. simpl. split; [reflexivity|lia].
  - rewrite bool_decide_eq_false_2 by exact Hstate.
    unfold_monad. simpl.
    destruct (Hnone 0) as (st & Hst & Hne); [lia|].
    rewrite Nat.add_0_r in Hst. rewrite Hst. simpl.
    destruct (IH (S asked) st
                (MkWorld (fields w)
                   ((calls w ++ [GetTakeOrderStatus id chain]) ++ [Sleep 2000]))
                Hne) as [Hthrow Hcount].
    { intros k Hk. destruct (Hnone (S k)) as (st' & Hst' & Hne'); [lia|].
      exists st'. split; [|exact Hne']. rewrite <- Hst'. f_equal. lia. }
    split; [exact Hthrow|]. rewrite Hcount. simpl.
    rewrite !statusCalls_app. rewrite !length_app. simpl. lia.
Qed.

(** The waiting loop throws nothing but its own error or the rejection of a
    status call. *)
Lemma waitFulfilled_throws env id chain remaining : ∀ asked state w,
  fst (waitFulfilled env id chain remaining asked state w)
  ≠ Throw (MarketMakerExecutorError OrderIsFulfilled).
Proof.
  induction remaining as [|n IH]; intros asked state w; simpl.
  - destruct (bool_decide _); discriminate.
  - destruct (bool_decide _); [discriminate|].
    unfold_monad. simpl.
    destruct (getTakeOrderStatus env id chain asked) as [st|]; simpl;
      [apply IH|discriminate].
Qed.

Local Opaque waitFulfilled.

(** A path on which no field has changed. *)
Ltac same :=
  eexists; split;
  [ first [ symmetry; apply app_nil_r
          | repeat rewrite <- app_assoc; reflexivity ]
  | left; split; [reflexivity|first [discriminate|assumption]] ].

(** Every path of [process]: the log grows, and the fields stay as they
    are unless the orderId is on record, in which case the record is removed,
    [OrderIsFulfilled] is thrown and nothing has been sent. *)
Lemma process_paths cfg env id o w :
  let r := process cfg env id o w in
  ∃ extra,
    calls (snd r) = calls w ++ extra
    ∧ ((fields (snd r) = fields w
        ∧ fst r ≠ Throw (MarketMakerExecutorError OrderIsFulfilled))
       ∨ (fst r = Throw (MarketMakerExecutorError OrderIsFulfilled)
          ∧ id ∈ orderFulfilledMap (fields w)
          ∧ approved (fields w) o
          ∧ sends extra = []
          ∧ fields (snd r)
            = {| approvedTokens := approvedTokens (fields w);
                 approvedTokensInBuffer := approvedTokensInBuffer (fields w);
                 orderFulfilledMap := orderFulfilledMap (fields w) ∖ {[ id ]} |})).
Proof.
  cbv zeta. unfold process. unfold_monad. simpl.
  rewrite !bool_decide_not.
  destruct (existsb _ _) eqn:Happ; simpl; [|same].
  apply approved_spec in Happ.
  destruct (bool_decide (chainId (give o) = Solana)) eqn:Eg;
    destruct (bool_decide (chainId (take o) = Solana)) eqn:Et; simpl.
  all: repeat match goal with
    | |- context [chains ?cf ?c] =>
        destruct (chains cf c) eqn:?; simpl; [|same]
    end.
  all: destruct (getPrice env (chainId (give o)) _) eqn:?; simpl; [|same].
  all: destruct (getPrice env (chainId (take o)) _) eqn:?; simpl; [|same].
  all: destruct (getTakerFlowCost env _ _ _) eqn:?; simpl; [|same].
  all: destruct (getAmountToSend env _ _ _) eqn:?; simpl; [|same].
  all: destruct (providersForFulfill cfg _) eqn:?; simpl; [|same].
  all: try (destruct (providersForUnlock cfg _) eqn:?; simpl; [|same]).
  all: destruct (fulfillOrder env _ _) eqn:?; simpl; [|same].
  all: destruct (bool_decide (id ∈ _)) eqn:Eid; simpl.
  all: try (apply bool_decide_eq_true in Eid; eexists; split;
            [repeat rewrite <- app_assoc; reflexivity|]; right;
            repeat (split; [first [reflexivity|assumption]|]); reflexivity).
  all: destruct (sendTransaction env _) eqn:?; simpl; [|same].
  all: try (destruct (getTakeOrderStatus env id _ 0) eqn:?; simpl; [|same]).
  all: try match goal with
    | |- context [waitFulfilled ?e ?i ?c ?n ?a ?st ?w0] =>
        let loop := fresh "loop" in
        let Hw := fresh "Hw" in
        let rw := fresh "rw" in
        let ww := fresh "ww" in
        destruct (waitFulfilled_polls e i c n a st w0) as (loop & Hw & _);
        assert (fst (waitFulfilled e i c n a st w0)
                ≠ Throw (MarketMakerExecutorError OrderIsFulfilled)) as Hnot
          by apply waitFulfilled_throws;
        destruct (waitFulfilled e i c n a st w0) as [rw ww];
        simpl in Hw, Hnot; subst ww; destruct rw; simpl; [|same]
    end.
  all: repeat match goal with
    | |- context [chains ?cf ?c] =>
        destruct (chains cf c) eqn:?; simpl; [|same]
    end.
  all: try (destruct (providersForUnlock cfg _) eqn:?; simpl; [|same]).
  all: destruct (sendUnlockOrder env _ _ _ _) eqn:?; simpl; [|same].
  all: match goal with
    | |- context [sendTransaction ?e ?t] =>
        destruct (sendTransaction e t) eqn:?; simpl
    end.
  all: same.
Qed.

(** X14. The record of fulfilled orders. [process] throws [OrderIsFulfilled]
    only for an approved order whose orderId is on record in
    [orderFulfilledMap]; it then only removes that record and has sent
    nothing. On every other path it changes no field. So the record is
    consulted once: after the throw the orderId is off the record, and the
    next call for the same orderId is not stopped by it. The approved tokens
    never change. *)
Theorem strict_fulfilled_record cfg env id o w :
  let r := process cfg env id o w in
  let stopped := Throw (MarketMakerExecutorError OrderIsFulfilled) in
  (fst r = stopped →
     id ∈ orderFulfilledMap (fields w) ∧ approved (fields w) o
     ∧ sends (calls (snd r)) = sends (calls w)
     ∧ orderFulfilledMap (fields (snd r))
       = orderFulfilledMap (fields w) ∖ {[ id ]})
  ∧ (fst r ≠ stopped → fields (snd r) = fields w)
  ∧ approvedTokens (fields (snd r)) = approvedTokens (fields w)
  ∧ approvedTokensInBuffer (fields (snd r)) = approvedTokensInBuffer (fields w)
  ∧ (∀ cfg' env' o',
       fst r = stopped → fst (process cfg' env' id o' (snd r)) ≠ stopped).
Proof.
  cbv zeta.
  assert (∀ cfg env o w,
            fst (process cfg env id o w)
            = Throw (MarketMakerExecutorError OrderIsFulfilled) →
            id ∈ orderFulfilledMap (fields w) ∧ approved (fields w) o
            ∧ sends (calls (snd (process cfg env id o w))) = sends (calls w)
            ∧ orderFulfilledMap (fields (snd (process cfg env id o w)))
              = orderFulfilledMap (fields w) ∖ {[ id ]}) as Hstop.
  { clear. intros cfg env o w Hthrow.
    destruct (process_paths cfg env id o w) as (extra & Hc & [[_ Hn]|H]);
      [contradiction|].
    destruct H as (_ & Hin & Happ & Hs & Hf).
    rewrite Hc, sends_app, Hs, app_nil_r, Hf. auto. }
  destruct (process_paths cfg env id o w) as (extra & Hc & Hcases).
  split; [apply Hstop|].
  split; [intros Hn; destruct Hcases as [[Hf _]|[Ht _]]; [exact Hf|contradiction]|].
  split; [destruct Hcases as [[-> _]|(_ & _ & _ & _ & ->)]; reflexivity|].
  split; [destruct Hcases as [[-> _]|(_ & _ & _ & _ & ->)]; reflexivity|].
  intros cfg' env' o' Hthrow Hagain.
  apply Hstop in Hthrow as (_ & _ & _ & Hrec).
  apply Hstop in Hagain as (Hin & _).
  rewrite Hrec in Hin. apply elem_of_difference in Hin as [_ Hn].
  apply Hn. apply elem_of_singleton. reflexivity.
Qed.

(** A path on which nothing was sent. *)
Ltac sent_none :=
  eexists; split;
  [ first [ symmetry; apply app_nil_r
          | repeat rewrite <- app_assoc; reflexivity ]
  | left; reflexivity ].

(** A path on which only the fulfill transaction was handed to the
    provider. *)
Ltac sent_one Hs :=
  eexists; split;
  [ repeat rewrite <- app_assoc; reflexivity
  | right; eexists; split; [reflexivity|]; split; [assumption|];
    split; [assumption|]; left;
    rewrite ?sends_app, ?Hs; reflexivity ].

(** X15. The transactions of [process], for every order and whatever the
    collaborators answer. It hands at most two transactions to a provider.
    The first is the fulfill transaction that [fulfillOrder] built, and only
    for an order with an approved take token whose orderId is not on record.
    The second is handed over only after the first was sent successfully, and
    it is the transaction that [sendUnlockOrder] built for the one unlock
    that [process] asked for. *)
Theorem strict_transactions cfg env id o w :
  let r := process cfg env id o w in
  ∃ extra,
    calls (snd r) = calls w ++ extra
    ∧ (sends extra = []
       ∨ ∃ ftx,
           fulfillOrder env o id = Resolved ftx
           ∧ approved (fields w) o
           ∧ (id ∉ orderFulfilledMap (fields w))
           ∧ (sends extra = [ftx]
              ∨ ∃ utx beneficiary fee rewards hash,
                  sends extra = [ftx; utx]
                  ∧ sendTransaction env ftx = Resolved hash
                  ∧ unlockRequests extra
                    = [SendUnlockOrder o beneficiary fee rewards]
                  ∧ sendUnlockOrder env o beneficiary fee rewards
                    = Resolved utx)).
Proof.
  cbv zeta. unfold process. unfold_monad. simpl.
  rewrite !bool_decide_not.
  destruct (existsb _ _) eqn:Happ; simpl; [|sent_none].
  apply approved_spec in Happ.
  destruct (bool_decide (chainId (give o) = Solana)) eqn:Eg;
    destruct (bool_decide (chainId (take o) = Solana)) eqn:Et; simpl.
  all: repeat match goal with
    | |- context [chains ?cf ?c] =>
        destruct (chains cf c) eqn:?; simpl; [|sent_none]
    end.
  all: destruct (getPrice env (chainId (give o)) _) eqn:?; simpl; [|sent_none].
  all: destruct (getPrice env (chainId (take o)) _) eqn:?; simpl; [|sent_none].
  all: destruct (getTakerFlowCost env _ _ _) eqn:?; simpl; [|sent_none].
  all: destruct (getAmountToSend env _ _ _) eqn:?; simpl; [|sent_none].
  all: destruct (providersForFulfill cfg _) eqn:?; simpl; [|sent_none].
  all: try (destruct (providersForUnlock cfg _) eqn:?; simpl; [|sent_none]).
  all: destruct (fulfillOrder env _ _) as [ftx|] eqn:Hftx; simpl; [|sent_none].
  all: destruct (bool_decide (id ∈ _)) eqn:Eid; simpl; [sent_none|].
  all: apply bool_decide_eq_false in Eid.
  all: assert (@nil Tx = []) as Hnil by reflexivity.
  all: destruct (sendTransaction env ftx) as [hash|] eqn:Hsend; simpl;
    [|sent_one Hnil].
  all: try (destruct (getTakeOrderStatus env id _ 0) eqn:?; simpl;
            [|sent_one Hnil]).
  all: try match goal with
    | |- context [waitFulfilled ?e ?i ?c ?n ?a ?st ?w0] =>
        destruct (waitFulfilled_polls e i c n a st w0)
          as (loop & Hw & _ & Hu & Hs);
        destruct (waitFulfilled e i c n a st w0) as [rw ww];
        simpl in Hw; subst ww; destruct rw; simpl; [|sent_one Hs]
    end.
  all: try (assert (sends (@nil Call) = []) as Hs by reflexivity;
            assert (unlockRequests (@nil Call) = []) as Hu by reflexivity).
  all: repeat match goal with
    | |- context [chains ?cf ?c] =>
        destruct (chains cf c) eqn:?; simpl; [|sent_one Hs]
    end.
  all: try (destruct (providersForUnlock cfg _) eqn:?; simpl; [|sent_one Hs]).
  all: destruct (sendUnlockOrder env _ _ _ _) as [utx|] eqn:Hutx; simpl;
    [|sent_one Hs].
  all: match goal with
    | |- context [sendTransaction ?e ?t] =>
        destruct (sendTransaction e t) eqn:?; simpl
    end.
  all: eexists; split; [repeat rewrite <- app_assoc; reflexivity|].
  all: right; eexists; split; [reflexivity|]; split; [assumption|];
    split; [assumption|]; right.
  all: eexists _, _, _, _, _.
  all: split; [rewrite ?sends_app, ?Hs; reflexivity|].
  all: split; [first [eassumption|reflexivity]|].
  all: split; [rewrite ?unlockRequests_app, ?Hu; reflexivity|].
  all: first [eassumption|reflexivity].
Qed.

(** X16. If the sending of the fulfill transaction is rejected, [process]
    catches the rejection and returns normally: it has made the six calls
    below and nothing else, so no status is polled and no unlock is built,
    and it has changed no field, so the order is kept nowhere for a retry. *)
Theorem strict_send_failure cfg env id o gp tp fees fee ftx w :
  let giveId := chainId (give o) in
  let takeId := chainId (take o) in
  approved (fields w) o → configured cfg o →
  getPrice env giveId (nativeToken giveId) = Resolved gp →
  getPrice env takeId (nativeToken takeId) = Resolved tp →
  getTakerFlowCost env o gp tp = Resolved fees →
  getAmountToSend env takeId giveId (executionFees_total fees) = Resolved fee →
  fulfillOrder env o id = Resolved ftx →
  id ∉ orderFulfilledMap (fields w) →
  sendTransaction env ftx = Rejected →
  process cfg env id o w
  = (Ok tt,
     MkWorld (fields w)
       (calls w ++ [ GetPrice giveId (nativeToken giveId);
                     GetPrice takeId (nativeToken takeId);
                     GetTakerFlowCost o gp tp;
                     GetAmountToSend takeId giveId (executionFees_total fees);
                     FulfillOrder o id;
                     SendTransaction ftx ])).
Proof.
  intros giveId takeId Happ ([gc Hgc] & [tc Htc] & [pu Hpu] & [pf Hpf])
    Hgp Htp Hfees Hfee Hftx Hid Hsend.
  subst giveId takeId. unfold process. unfold_monad. simpl.
  rewrite !bool_decide_not.
  apply approved_spec in Happ. rewrite Happ. simpl.
  destruct (bool_decide (chainId (give o) = Solana)) eqn:Eg;
    destruct (bool_decide (chainId (take o) = Solana)) eqn:Et; simpl.
  all: rewrite ?Hgc, ?Htc, ?Hpu, ?Hpf; simpl.
  all: rewrite Hgp; simpl; rewrite Htp; simpl; rewrite Hfees; simpl.
  all: rewrite Hfee; simpl.
  all: rewrite ?Hgc, ?Htc, ?Hpu, ?Hpf; simpl.
  all: rewrite Hftx; simpl.
  all: rewrite (bool_decide_eq_false_2 _ Hid); simpl.
  all: rewrite ?Hgc, ?Htc, ?Hpu, ?Hpf; simpl.
  all: rewrite Hsend; simpl.
  all: repeat rewrite <- app_assoc; reflexivity.
Qed.

Lemma strict_send_failure_witness :
  process strictConfig envSendFails "o2" order0 (strictWorld ∅)
  = (Ok tt,
     MkWorld (fields (strictWorld ∅))
       [ GetPrice Arbitrum evmNativeTokenAddress;
         GetPrice Polygon evmNativeTokenAddress;
         GetTakerFlowCost order0 1 1;
         GetAmountToSend Polygon Arbitrum 1;
         FulfillOrder order0 "o2";
         SendTransaction 11%Z ]).
Proof.
  apply (strict_send_failure strictConfig envSendFails "o2" order0 1%Z 1%Z
           {| executionFees_total := 1; executionFees_rewards := (0, 0)%Z |}
           1%Z 11%Z (strictWorld ∅)).
  - left.
  - unfold configured. simpl. eauto.
  - reflexivity.
  - reflexivity.
  - reflexivity.
  - reflexivity.
  - reflexivity.
  - apply not_elem_of_empty.
  - reflexivity.
Defined.

(** X17. The wait for the fulfilment on Solana is bounded. For an approved
    order taken on Solana whose fulfill transaction was sent, [process] asks
    the take chain for the status of the order at least once and at most
    eleven times. If none of the eleven answers shows the order fulfilled,
    [process] throws "Failed to wait for order fulfillment, retries limit
    reached": the fulfill transaction is then the only transaction sent and
    no unlock has been built. *)
Theorem strict_polling_bound cfg env id o w :
  chainId (take o) = Solana →
  approved (fields w) o → configured cfg o → responsive env →
  id ∉ orderFulfilledMap (fields w) →
  let r := process cfg env id o w in
  ∃ extra ftx,
    calls (snd r) = calls w ++ extra
    ∧ fulfillOrder env o id = Resolved ftx
    ∧ 1 ≤ length (statusCalls extra) ≤ 11
    ∧ ((∀ k, k ≤ 10 →
          ∃ st, getTakeOrderStatus env id Solana k = Resolved st
                ∧ st ≠ Some OrderState.Fulfilled) →
       fst r
       = Throw (Error "Failed to wait for order fulfillment, retries limit reached")
       ∧ length (statusCalls extra) = 11
       ∧ sends extra = [ftx]
       ∧ unlockRequests extra = []).
Proof.
  intros Htake Happ ([gc Hgc] & [tc Htc] & [pu Hpu] & [pf Hpf])
    (R1 & R2 & R3 & R4 & R5 & R6) Hid.
  cbv zeta. unfold process. unfold_monad. simpl.
  rewrite !bool_decide_not.
  apply approved_spec in Happ. rewrite Happ. simpl.
  rewrite Htake in *.
  rewrite (bool_decide_eq_true_2 (Solana = Solana)) by reflexivity. simpl.
  destruct (bool_decide (chainId (give o) = Solana)) eqn:Eg; simpl.
  all: rewrite ?Hgc, ?Htc, ?Hpu, ?Hpf; simpl.
  all: destruct (getPrice env (chainId (give o)) _) eqn:?; simpl;
    [|exfalso; eapply R1; eassumption].
  all: destruct (getPrice env Solana _) eqn:?; simpl;
    [|exfalso; eapply R1; eassumption].
  all: destruct (getTakerFlowCost env _ _ _) eqn:?; simpl;
    [|exfalso; eapply R2; eassumption].
  all: destruct (getAmountToSend env _ _ _) eqn:?; simpl;
    [|exfalso; eapply R3; eassumption].
  all: rewrite ?Hgc, ?Htc, ?Hpu, ?Hpf; simpl.
  all: destruct (fulfillOrder env _ _) as [ftx|] eqn:Hftx; simpl;
    [|exfalso; eapply R4; eassumption].
  all: rewrite (bool_decide_eq_false_2 _ Hid); simpl.
  all: rewrite ?Hgc, ?Htc, ?Hpu, ?Hpf; simpl.
  all: destruct (sendTransaction env ftx) eqn:?; simpl;
    [|exfalso; eapply R5; eassumption].
  all: destruct (getTakeOrderStatus env id Solana 0) as [st0|] eqn:Hst0; simpl.
  all: try (eexists _, ftx; split; [repeat rewrite <- app_assoc; reflexivity|];
            split; [reflexivity|]; split; [simpl; lia|];
            intros Hnone; destruct (Hnone 0) as (st & Hst & _); [lia|];
            congruence).
  all: match goal with
    | |- context [waitFulfilled ?e ?i ?c ?n ?a ?st ?w0] =>
        destruct (waitFulfilled_polls e i c n a st w0)
          as (loop & Hw & Hn & Hu & Hs);
        pose proof (waitFulfilled_gives_up e i c n a st w0) as Hgive;
        destruct (waitFulfilled e i c n a st w0) as [rw ww];
        simpl in Hw, Hgive; subst ww; destruct rw as [[]|e']; simpl
    end.
  all: rewrite ?Hgc, ?Htc, ?Hpu, ?Hpf; simpl.
  all: try (destruct (sendUnlockOrder env _ _ _ _) as [utx|] eqn:?; simpl;
            [|exfalso; eapply R6; eassumption];
            destruct (sendTransaction env utx) eqn:?; simpl;
            [|exfalso; eapply R5; eassumption]).
  all: eexists _, ftx; split; [repeat rewrite <- app_assoc; reflexivity|];
    split; [reflexivity|].
  all: split; [rewrite !statusCalls_app; simpl; rewrite ?length_app; simpl; lia|].
  all: intros Hnone; destruct (Hnone 0) as (st & Hst & Hne); [lia|].
  all: assert (st = st0) as -> by congruence.
  all: destruct Hgive as [Hthrow Hcount];
    [ exact Hne | intros k Hk; apply (Hnone (1 + k)); lia | ].
  all: try discriminate Hthrow.
  all: injection Hthrow as ->.
  all: split; [reflexivity|].
  all: simpl in Hcount; rewrite !statusCalls_app in Hcount;
    rewrite !length_app in Hcount; simpl in Hcount.
  all: split; [rewrite !statusCalls_app; rewrite !length_app; simpl; lia|].
  all: split; [rewrite !sends_app; rewrite Hs; reflexivity|].
  all: rewrite !unlockRequests_app; rewrite Hu; reflexivity.
Qed.

Lemma strict_polling_bound_witness :
  fst (process strictConfig env0 "o2" orderToSolana (strictWorld ∅))
  = Throw (Error "Failed to wait for order fulfillment, retries limit reached").
Proof.
  destruct (strict_polling_bound strictConfig env0 "o2" orderToSolana
              (strictWorld ∅)) as (extra & ftx & _ & _ & _ & H).
  - reflexivity.
  - left.
  - repeat split; eexists; reflexivity.
  - repeat split; intros; discriminate.
  - apply not_elem_of_empty.
  - apply H. intros k _. eexists. split; [reflexivity|discriminate].
Defined.

(** X18. A chain that is missing from [executorConfig.chains]. For an
    approved order given on an EVM chain without an entry, [process] throws a
    [TypeError] before it calls anybody. For an approved order given on
    Solana, whose entry is read only for the beneficiary of the unlock,
    [process] first sends the fulfill transaction and then throws the
    [TypeError]: the order is fulfilled, and no unlock is built or sent. *)
Theorem strict_missing_give_chain cfg env id o w :
  approved (fields w) o →
  chains cfg (chainId (give o)) = None →
  let r := process cfg env id o w in
  (chainId (give o) ≠ Solana → r = (Throw TypeError, w))
  ∧ (chainId (give o) = Solana → chainId (take o) ≠ Solana →
     is_Some (chains cfg (chainId (take o))) →
     is_Some (providersForUnlock cfg (chainId (take o))) →
     is_Some (providersForFulfill cfg (chainId (take o))) →
     responsive env →
     id ∉ orderFulfilledMap (fields w) →
     ∃ extra ftx,
       fulfillOrder env o id = Resolved ftx
       ∧ fst r = Throw TypeError
       ∧ calls (snd r) = calls w ++ extra
       ∧ sends extra = [ftx]
       ∧ unlockRequests extra = []).
Proof.
  intros Happ Hgc. cbv zeta. unfold process. unfold_monad. simpl.
  rewrite !bool_decide_not.
  apply approved_spec in Happ. rewrite Happ. simpl.
  split.
  - intros Hg. rewrite (bool_decide_eq_false_2 _ Hg). simpl.
    rewrite Hgc. simpl. destruct w; reflexivity.
  - intros Hg Ht [tc Htc] [pu Hpu] [pf Hpf] (R1 & R2 & R3 & R4 & R5 & R6) Hid.
    rewrite (bool_decide_eq_true_2 _ Hg). rewrite (bool_decide_eq_false_2 _ Ht).
    simpl. rewrite ?Htc, ?Hpu, ?Hpf; simpl.
    destruct (getPrice env (chainId (give o)) _) eqn:?; simpl;
      [|exfalso; eapply R1; eassumption].
    destruct (getPrice env (chainId (take o)) _) eqn:?; simpl;
      [|exfalso; eapply R1; eassumption].
    destruct (getTakerFlowCost env _ _ _) eqn:?; simpl;
      [|exfalso; eapply R2; eassumption].
    destruct (getAmountToSend env _ _ _) eqn:?; simpl;
      [|exfalso; eapply R3; eassumption].
    rewrite ?Htc, ?Hpu, ?Hpf; simpl.
    destruct (fulfillOrder env _ _) as [ftx|] eqn:Hftx; simpl;
      [|exfalso; eapply R4; eassumption].
    rewrite (bool_decide_eq_false_2 _ Hid); simpl.
    rewrite ?Htc, ?Hpu, ?Hpf; simpl.
    destruct (sendTransaction env ftx) eqn:?; simpl;
      [|exfalso; eapply R5; eassumption].
    rewrite Hgc. simpl.
    eexists _, ftx. split; [reflexivity|]. split; [reflexivity|].
    split; [repeat rewrite <- app_assoc; reflexivity|].
    split; reflexivity.
Qed.

Lemma strict_missing_give_chain_witness :
  ∃ extra ftx,
    fulfillOrder env0 orderFromSolana "o2" = Resolved ftx
    ∧ fst (process strictConfigWithoutSolana env0 "o2" orderFromSolana
             (strictWorld ∅)) = Throw TypeError
    ∧ calls (snd (process strictConfigWithoutSolana env0 "o2" orderFromSolana
                    (strictWorld ∅)))
      = calls (strictWorld ∅) ++ extra
    ∧ sends extra = [ftx]
    ∧ unlockRequests extra = [].
Proof.
  refine (proj2 (strict_missing_give_chain strictConfigWithoutSolana env0 "o2"
                   orderFromSolana (strictWorld ∅) _ _) _ _ _ _ _ _ _).
  - left.
  - reflexivity.
  - reflexivity.
  - discriminate.
  - eexists; reflexivity.
  - eexists; reflexivity.
  - eexists; reflexivity.
  - repeat split; intros; discriminate.
  - apply not_elem_of_empty.
Defined.

(** X19. The unlock that follows a fulfilment. When an approved order has
    gone through (the chains are configured, the collaborators answer, on
    Solana the fulfilment is seen in time, the orderId is not on record),
    [process] has built exactly one unlock: for the beneficiary of the give
    chain, with the amount that [getAmountToSend] answered for the total of
    the execution fees, and, on an EVM take chain, with the rewards of the
    fees if the order was given on Solana and with zero rewards otherwise;
    no field has changed. *)
Theorem strict_unlock_request cfg env id o w :
  let giveId := chainId (give o) in
  let takeId := chainId (take o) in
  approved (fields w) o → configured cfg o → responsive env →
  (takeId = Solana → fulfilmentSeen env id takeId) →
  id ∉ orderFulfilledMap (fields w) →
  let r := process cfg env id o w in
  ∃ extra gp tp fees fee gc,
    calls (snd r) = calls w ++ extra
    ∧ fields (snd r) = fields w
    ∧ getPrice env giveId (nativeToken giveId) = Resolved gp
    ∧ getPrice env takeId (nativeToken takeId) = Resolved tp
    ∧ getTakerFlowCost env o gp tp = Resolved fees
    ∧ getAmountToSend env takeId giveId (executionFees_total fees)
      = Resolved fee
    ∧ chains cfg giveId = Some gc
    ∧ unlockRequests extra
      = [ SendUnlockOrder o (beneficiary gc) fee
            (if decide (takeId = Solana) then None
             else Some (if decide (giveId = Solana)
                        then executionFees_rewards fees
                        else (0, 0)%Z)) ].
Proof.
  intros giveId takeId Happ ([gc Hgc] & [tc Htc] & [pu Hpu] & [pf Hpf])
    (R1 & R2 & R3 & R4 & R5 & R6) Hseen Hid.
  subst giveId takeId.
  cbv zeta. unfold process. unfold_monad. simpl.
  rewrite !bool_decide_not.
  apply approved_spec in Happ. rewrite Happ. simpl.
  destruct (decide (chainId (give o) = Solana)) as [Eg|Eg];
    destruct (decide (chainId (take o) = Solana)) as [Et|Et].
  all: rewrite ?(bool_decide_eq_true_2 _ Eg), ?(bool_decide_eq_false_2 _ Eg),
         ?(bool_decide_eq_true_2 _ Et), ?(bool_decide_eq_false_2 _ Et); simpl.
  all: rewrite ?Hgc, ?Htc, ?Hpu, ?Hpf; simpl.
  all: destruct (getPrice env (chainId (give o)) _) as [gp|] eqn:Hgp; simpl;
    [|exfalso; eapply R1; eassumption].
  all: destruct (getPrice env (chainId (take o)) _) as [tp|] eqn:Htp; simpl;
    [|exfalso; eapply R1; eassumption].
  all: destruct (getTakerFlowCost env _ _ _) as [fees|] eqn:Hfees; simpl;
    [|exfalso; eapply R2; eassumption].
  all: destruct (getAmountToSend env _ _ _) as [fee|] eqn:Hfee; simpl;
    [|exfalso; eapply R3; eassumption].
  all: rewrite ?Hgc, ?Htc, ?Hpu, ?Hpf; simpl.
  all: destruct (fulfillOrder env _ _) as [ftx|] eqn:Hftx; simpl;
    [|exfalso; eapply R4; eassumption].
  all: rewrite (bool_decide_eq_false_2 _ Hid); simpl.
  all: rewrite ?Hgc, ?Htc, ?Hpu, ?Hpf; simpl.
  all: destruct (sendTransaction env ftx) eqn:?; simpl;
    [|exfalso; eapply R5; eassumption].
  all: try match goal with
    | |- context [getTakeOrderStatus ?e ?i ?c 0] =>
        destruct (Hseen Et) as (k & Hk & Hfin & Hbefore);
        assert (∃ st, getTakeOrderStatus e i c 0 = Resolved st
                      ∧ (st = Some OrderState.Fulfilled
                         ∨ ∃ k', k' < 10
                              ∧ getTakeOrderStatus e i c (1 + k')
                                = Resolved (Some OrderState.Fulfilled)
                              ∧ ∀ j, j < k' →
                                  ∃ st', getTakeOrderStatus e i c (1 + j)
                                         = Resolved st'
                                         ∧ st' ≠ Some OrderState.Fulfilled))
          as (st & Hst & Hwait);
        [ destruct k as [|k'];
          [ eexists; split; [exact Hfin|left; reflexivity]
          | destruct (Hbefore 0) as (st & Hst & _); [lia|];
            exists st; split; [exact Hst|]; right; exists k';
            split; [lia|]; split; [exact Hfin|];
            intros j Hj; apply (Hbefore (S j)); lia ]
        | rewrite Hst; simpl;
          match goal with
          | |- context [waitFulfilled ?e' ?i' ?c' ?n ?a' ?st' ?w0] =>
              pose proof (waitFulfilled_seen e' i' c' n a' st' w0 Hwait) as Hok;
              destruct (waitFulfilled_polls e' i' c' n a' st' w0)
                as (loop & Hw & Hn & Hu & Hs);
              destruct (waitFulfilled e' i' c' n a' st' w0) as [rw ww];
              simpl in Hw, Hok; subst ww rw; simpl
          end ]
    end.
  all: rewrite ?Hgc, ?Htc, ?Hpu, ?Hpf; simpl.
  all: destruct (sendUnlockOrder env _ _ _ _) as [utx|] eqn:?; simpl;
    [|exfalso; eapply R6; eassumption].
  all: destruct (sendTransaction env utx) eqn:?; simpl;
    [|exfalso; eapply R5; eassumption].
  all: eexists _, gp, tp, fees, fee, gc;
    split; [repeat rewrite <- app_assoc; reflexivity|].
  all: do 6 (split; [first [reflexivity|assumption]|]).
  all: rewrite ?unlockRequests_app; rewrite ?Hu; reflexivity.
Qed.

Lemma strict_unlock_request_witness :
  ∃ extra,
    calls (snd (process strictConfig env0 "o2" order0 (strictWorld ∅)))
    = calls (strictWorld ∅) ++ extra
    ∧ unlockRequests extra
      = [SendUnlockOrder order0 "beneficiary" 1 (Some (0, 0)%Z)].
Proof.
  destruct (strict_unlock_request strictConfig env0 "o2" order0 (strictWorld ∅))
    as (extra & gp & tp & fees & fee & gc & Hc & _ & _ & _ & Hfees & Hfee & Hgc & Hu).
  - left.
  - repeat split; eexists; reflexivity.
  - repeat split; intros; discriminate.
  - discriminate.
  - apply not_elem_of_empty.
  - exists extra. split; [exact Hc|].
    injection Hgc as <-. injection Hfees as <-. injection Hfee as <-.
    exact Hu.
Defined.

End StrictPathFacts.

(** ** UniversalProcessor: the approvals of [init] *)

Module InitFacts.
Import UniversalInit Fixtures.

Section Approvals.

Variable tokenAddressToString : ChainId → Address → string.
Variable approveToken : ChainId → string → ServiceType → Answer unit.

Local Abbreviation approveEach := (approveEach approveToken).
Local Abbreviation answerOf := (answerOf approveToken).

Lemma approveEach_resolved chainId tokens : ∀ w,
  (∀ a, a ∈ approvalsOf chainId tokens → answerOf a ≠ Rejected) →
  approveEach chainId tokens w
  = (Ok tt, MkWorld (fields w ++ approvalsOf chainId tokens) (calls w)).
Proof.
  induction tokens as [|token rest IH]; intros w Hall; simpl.
  - rewrite app_nil_r. destruct w; reflexivity.
  - unfold approve. unfold_monad. simpl.
    pose proof (Hall _ (list_elem_of_here _ _)) as H1.
    pose proof (Hall _ (list_elem_of_further _ _ _ (list_elem_of_here _ _))) as H2.
    unfold UniversalInit.answerOf in H1, H2. simpl in H1, H2.
    destruct (approveToken chainId token CrosschainForwarder) as [[]|];
      [|contradiction]. simpl.
    destruct (approveToken chainId token Destination) as [[]|];
      [|contradiction]. simpl.
    rewrite IH.
    + simpl. rewrite <- !app_assoc. reflexivity.
    + intros a Ha. apply Hall. do 2 apply list_elem_of_further. exact Ha.
Qed.

Lemma approveEach_rejected chainId tokens : ∀ w before a after,
  approvalsOf chainId tokens = before ++ a :: after →
  (∀ b, b ∈ before → answerOf b ≠ Rejected) →
  answerOf a = Rejected →
  approveEach chainId tokens w
  = (Throw (Rejection (ApproveToken chainId (approval_token a))),
     MkWorld (fields w ++ before ++ [a]) (calls w)).
Proof.
  induction tokens as [|token rest IH]; intros w before a after Hplan Hok Hrej.
  - destruct before; discriminate.
  - simpl in Hplan. simpl. unfold approve. unfold_monad. simpl.
    destruct before as [|x before].
    { injection Hplan as <- _. unfold UniversalInit.answerOf in Hrej.
      simpl in Hrej. rewrite Hrej. reflexivity. }
    injection Hplan as <- Hplan.
    pose proof (Hok _ (list_elem_of_here _ _)) as H1.
    unfold UniversalInit.answerOf in H1. simpl in H1.
    destruct (approveToken chainId token CrosschainForwarder) as [[]|];
      [|contradiction]. simpl.
    destruct before as [|y before].
    { injection Hplan as <- _. unfold UniversalInit.answerOf in Hrej.
      simpl in Hrej. rewrite Hrej. simpl. rewrite <- !app_assoc. reflexivity. }
    injection Hplan as <- Hplan.
    pose proof (Hok _ (list_elem_of_further _ _ _ (list_elem_of_here _ _))) as H2.
    unfold UniversalInit.answerOf in H2. simpl in H2.
    destruct (approveToken chainId token Destination) as [[]|];
      [|contradiction]. simpl.
    rewrite (IH _ before a after Hplan); [|intros b Hb; apply Hok; do 2 right; exact Hb|exact Hrej].
    simpl. rewrite <- !app_assoc. reflexivity.
Qed.

(** X20. The approvals of [UniversalProcessor.init]. On Solana it asks for
    none. On any other chain it goes through the tokens that the buckets
    hold on this chain, bucket by bucket, and asks for two approvals per
    token, towards the crosschain forwarder and then towards the destination
    contract; a token held by two buckets is approved twice. It awaits each
    approval before the next: if none is rejected all are asked for and
    [init] returns; at the first rejection [init] throws and asks for no
    further approval. *)
Theorem init_approvals chainId buckets w :
  let r := init tokenAddressToString approveToken chainId buckets w in
  let plan := approvalsOf chainId (tokens tokenAddressToString chainId buckets) in
  (chainId = Solana → r = (Ok tt, w))
  ∧ (chainId ≠ Solana →
     ((∀ a, a ∈ plan → answerOf a ≠ Rejected) →
      r = (Ok tt, MkWorld (fields w ++ plan) (calls w)))
     ∧ (∀ before a after,
          plan = before ++ a :: after →
          (∀ b, b ∈ before → answerOf b ≠ Rejected) →
          answerOf a = Rejected →
          r = (Throw (Rejection (ApproveToken chainId (approval_token a))),
               MkWorld (fields w ++ before ++ [a]) (calls w))))
  ∧ length plan
    = 2 * length (flat_map (λ bucket : TokensBucket, bucket chainId) buckets).
Proof.
  cbv zeta. unfold init. split; [|split].
  - intros ->. reflexivity.
  - intros Hne. rewrite (bool_decide_eq_true_2 _ Hne). split.
    + apply approveEach_resolved.
    + apply approveEach_rejected.
  - unfold approvalsOf, tokens.
    induction buckets as [|bucket rest IH]; [reflexivity|].
    simpl. rewrite flat_map_app, !length_app, IH.
    assert (∀ l : list Address,
              length (flat_map
                        (λ token,
                           [ {| approval_chain := chainId;
                                approval_token := token;
                                approval_service := CrosschainForwarder |};
                             {| approval_chain := chainId;
                                approval_token := token;
                                approval_service := Destination |} ])
                        (map (tokenAddressToString chainId) l))
              = 2 * length l) as Hl.
    { induction l as [|x l IHl]; [reflexivity|]. simpl. rewrite IHl. lia. }
    rewrite Hl. lia.
Qed.

End Approvals.

Lemma init_approvals_witness :
  init (λ _ _, "usdc") (λ _ _ _, Resolved tt) Polygon [usdc] (MkWorld [] [])
  = (Ok tt,
     MkWorld [ {| approval_chain := Polygon; approval_token := "usdc";
                  approval_service := CrosschainForwarder |};
               {| approval_chain := Polygon; approval_token := "usdc";
                  approval_service := Destination |} ] []).
Proof.
  refine (proj1 (proj1 (proj2
    (init_approvals (λ _ _, "usdc") (λ _ _ _, Resolved tt) Polygon [usdc]
       (MkWorld [] []))) _) _).
  - discriminate.
  - intros a _. discriminate.
Defined.

End InitFacts.
